(** * Sudoku: puzzle generation, constraint validation and game state

    A shallow embedding of [src/components/sudoku-game.tsx].

    - JavaScript arrays are lists read with stdpp's lookup [!!] and written
      with [<[i:=x]>]; [number | null] is [option nat].
    - [Math.random()] is an explicit entropy source threaded through the
      generator; every statement about generated grids quantifies over all
      sources.
    - The React component state is the record [Session]; every event handler
      is a function from the state of the current render to the next state
      together with the sounds it plays. *)

From Stdlib Require Import ZArith Lia Ascii.
From stdpp Require Import base list strings pretty.

Set Default Proof Using "Type".

(** ** Data model *)

(** [type SudokuGrid = (number | null)[][]] *)
Abbreviation SudokuGrid := (list (list (option nat))).

(** [type SudokuCell = { value, isFixed, isValid }] *)
Record SudokuCell := mkCell {
  value : option nat;
  isFixed : bool;
  isValid : bool
}.

(** [grid[row][col]] on a raw grid.  On a 9x9 grid every read made by the
    source is in range.  Past the end of a row JavaScript yields [undefined],
    which equals no number, as [None] here; a missing row raises a TypeError,
    which the 9x9 shape assumed by the statements below excludes. *)
Definition rawAt (grid : SudokuGrid) (row col : nat) : option nat :=
  match grid !! row with
  | Some r => match r !! col with Some v => v | None => None end
  | None => None
  end.

(** [grid[row][col]] on an annotated grid; [None] is an index outside the
    grid. *)
Definition cellAt (grid : list (list SudokuCell)) (row col : nat) : option SudokuCell :=
  match grid !! row with
  | Some r => r !! col
  | None => None
  end.

(** [grid[row][col].value]; the reads of [isValidMove] stay inside a 9x9
    grid. *)
Definition valueAt (grid : list (list SudokuCell)) (row col : nat) : option nat :=
  match cellAt grid row col with
  | Some cell => value cell
  | None => None
  end.

(** [x === num] for [x : number | null] and a number [num]. *)
Definition holds (x : option nat) (num : nat) : bool :=
  match x with
  | Some v => v =? num
  | None => false
  end.

(** The shape every grid of the program has: nine rows of nine cells. *)
Definition wf9 {A} (grid : list (list A)) : Prop :=
  length grid = 9 ∧ ∀ row r, grid !! row = Some r → length r = 9.

(** ** Constraint validator *)

(** [isValidPlacement], used while generating. Each [for] loop that returns
    [false] at the first hit is a [forallb] over the indices it visits. *)
Definition isValidPlacement (grid : SudokuGrid) (row col num : nat) : bool :=
  forallb (λ c, negb (holds (rawAt grid row c) num)) (seq 0 9)
  && forallb (λ r, negb (holds (rawAt grid r col) num)) (seq 0 9)
  && (let boxRow := row / 3 * 3 in
      let boxCol := col / 3 * 3 in
      forallb (λ r,
        forallb (λ c, negb (holds (rawAt grid r c) num)) (seq boxCol 3))
        (seq boxRow 3)).

(** [isValidMove], used while playing: the same three scans, each skipping
    the cell [(row, col)] itself. *)
Definition isValidMove (grid : list (list SudokuCell)) (row col num : nat) : bool :=
  forallb (λ c, negb (negb (c =? col) && holds (valueAt grid row c) num)) (seq 0 9)
  && forallb (λ r, negb (negb (r =? row) && holds (valueAt grid r col) num)) (seq 0 9)
  && (let boxRow := row / 3 * 3 in
      let boxCol := col / 3 * 3 in
      forallb (λ r,
        forallb (λ c,
          negb ((negb (r =? row) || negb (c =? col)) && holds (valueAt grid r c) num))
          (seq boxCol 3))
        (seq boxRow 3)).

(** [updateValidation]: both [map]s carry the index. *)
Definition updateValidation (newGrid : list (list SudokuCell)) : list (list SudokuCell) :=
  imap (λ rowIndex row,
    imap (λ colIndex cell,
      {| value := value cell;
         isFixed := isFixed cell;
         isValid := match value cell with
                    | None => true
                    | Some v => isValidMove newGrid rowIndex colIndex v
                    end |}) row) newGrid.

(** ** Specification vocabulary *)

(** Two positions share a row, a column or a 3x3 box. *)
Definition sameBox (r c r' c' : nat) : Prop := r' / 3 = r / 3 ∧ c' / 3 = c / 3.
Definition peer (r c r' c' : nat) : Prop := r' = r ∨ c' = c ∨ sameBox r c r' c'.

(** No cell other than [(row, col)] in its row, column or box holds [num]. *)
Definition noOtherHolds (read : nat → nat → option nat) (row col num : nat) : Prop :=
  ∀ r c, r < 9 → c < 9 → (r, c) ≠ (row, col) → peer row col r c → read r c ≠ Some num.

(** The annotated grid carries the values of the raw grid. *)
Definition sameValues (raw : SudokuGrid) (grid : list (list SudokuCell)) : Prop :=
  ∀ r c, r < 9 → c < 9 → valueAt grid r c = rawAt raw r c.

(** ** Grid generator *)

(** The source of randomness.  The k-th call of [Math.random()] since the
    start is the k-th draw of the source; [Math.floor(Math.random() * n)] is
    an integer of [0, n), modelled as the draw reduced modulo [n], so every
    value of the range can come out and no other. *)
Definition Rng := nat → nat.

Definition randomBelow (n : nat) (rng : Rng) : nat * Rng :=
  (rng 0 mod n, λ k, rng (S k)).

(** [[array[i], array[j]] = [array[j], array[i]]] *)
Definition swap {A} (array : list A) (i j : nat) : list A :=
  match array !! i, array !! j with
  | Some x, Some y => <[j := x]> (<[i := y]> array)
  | _, _ => array
  end.

(** The loop of [shuffleArray], from index [i] down to 1. *)
Fixpoint shuffleFrom {A} (i : nat) (array : list A) (rng : Rng) : list A * Rng :=
  match i with
  | 0 => (array, rng)
  | S i' =>
      let '(j, rng') := randomBelow (S i' + 1) rng in
      shuffleFrom i' (swap array (S i') j) rng'
  end.

Definition shuffleArray {A} (array : list A) (rng : Rng) : list A * Rng :=
  shuffleFrom (length array - 1) array rng.

(** [grid[row][col] = v] *)
Definition setRaw (grid : SudokuGrid) (row col : nat) (v : option nat) : SudokuGrid :=
  alter (λ r, <[col := v]> r) row grid.

(** The 81 positions in row-major order: the order of the two nested [for]
    loops of [fillGrid] and of [removeCells]. *)
Definition allCells : list (nat * nat) :=
  flat_map (λ row, map (λ col, (row, col)) (seq 0 9)) (seq 0 9).

Definition isNull (x : option nat) : bool :=
  match x with
  | None => true
  | Some _ => false
  end.

(** The first position, in scan order, with [grid[row][col] === null]. *)
Definition findEmpty (grid : SudokuGrid) : option (nat * nat) :=
  find (λ p, isNull (rawAt grid p.1 p.2)) allCells.

(** The result of [fillGrid]: the boolean it returns, the grid as the call
    leaves it (the source mutates it in place) and the rest of the entropy. *)
Definition FillResult : Type := bool * SudokuGrid * Rng.

(** [for (const num of numbers) ...] at the empty cell [(row, col)], with
    [rec] the recursive call of [fillGrid]. *)
Fixpoint tryNumbers (rec : SudokuGrid → Rng → option FillResult)
    (row col : nat) (numbers : list nat) (grid : SudokuGrid) (rng : Rng)
    : option FillResult :=
  match numbers with
  | [] => Some (false, grid, rng)
  | num :: rest =>
      if isValidPlacement grid row col num then
        match rec (setRaw grid row col (Some num)) rng with
        | None => None
        | Some (true, grid', rng') => Some (true, grid', rng')
        | Some (false, grid', rng') =>
            tryNumbers rec row col rest (setRaw grid' row col None) rng'
        end
      else tryNumbers rec row col rest grid rng
  end.

(** [fillGrid].  [depth] bounds the nesting of recursive calls; [None] means
    the bound was too small.  [fillGrid_enough_depth] below shows that a bound
    above the number of empty cells is never exhausted. *)
Fixpoint fillGrid (depth : nat) (grid : SudokuGrid) (rng : Rng) : option FillResult :=
  match depth with
  | 0 => None
  | S depth' =>
      match findEmpty grid with
      | None => Some (true, grid, rng)
      | Some (row, col) =>
          let '(numbers, rng') := shuffleArray [1; 2; 3; 4; 5; 6; 7; 8; 9] rng in
          tryNumbers (fillGrid depth') row col numbers grid rng'
      end
  end.

Definition removeCells (grid : SudokuGrid) (count : nat) (rng : Rng) : SudokuGrid * Rng :=
  let '(cells, rng') := shuffleArray allCells rng in
  (foldl (λ g p, setRaw g p.1 p.2 None) grid (take count cells), rng').

Definition emptyGrid : SudokuGrid := replicate 9 (replicate 9 None).

(** [generateRandomSudoku]; the nesting bound 82 exceeds the 81 cells. *)
Definition generateRandomSudoku (rng : Rng) : option (SudokuGrid * Rng) :=
  match fillGrid 82 emptyGrid rng with
  | None => None
  | Some (_, grid, rng1) =>
      let '(k, rng2) := randomBelow 6 rng1 in
      let cellsToRemove := 45 + k in
      Some (removeCells grid cellsToRemove rng2)
  end.

(** *** Vocabulary for generated grids *)

Definition rowOf (grid : SudokuGrid) (row : nat) : list (option nat) :=
  map (λ col, rawAt grid row col) (seq 0 9).

Definition colOf (grid : SudokuGrid) (col : nat) : list (option nat) :=
  map (λ row, rawAt grid row col) (seq 0 9).

(** The box whose top-left corner is [(3 * boxRow, 3 * boxCol)]. *)
Definition boxOf (grid : SudokuGrid) (boxRow boxCol : nat) : list (option nat) :=
  flat_map (λ row, map (λ col, rawAt grid row col) (seq (3 * boxCol) 3)) (seq (3 * boxRow) 3).

(** The non-empty entries of a unit. *)
Definition digitsOf (unit : list (option nat)) : list nat := omap id unit.

Definition emptyCount (grid : SudokuGrid) : nat :=
  length (filter (λ x, x = None) (concat grid)).

Definition filledCount (grid : SudokuGrid) : nat :=
  length (filter (λ x, x ≠ None) (concat grid)).

(** No two distinct positions sharing a row, column or box hold the same
    digit. *)
Definition consistent (grid : SudokuGrid) : Prop :=
  ∀ r c r' c' d, r < 9 → c < 9 → r' < 9 → c' < 9 →
    (r', c') ≠ (r, c) → peer r c r' c' →
    rawAt grid r c = Some d → rawAt grid r' c' ≠ Some d.

Definition full (grid : SudokuGrid) : Prop :=
  ∀ r c, r < 9 → c < 9 → rawAt grid r c ≠ None.

(** Every filled cell of [g] has the same digit in [sol]. *)
Definition extends (g sol : SudokuGrid) : Prop :=
  ∀ r c d, r < 9 → c < 9 → rawAt g r c = Some d → rawAt sol r c = Some d.

(** A solved grid, used to show that the backtracking search succeeds. *)
Definition solvedGrid : SudokuGrid :=
  map (λ r, map (λ c, Some ((3 * (r mod 3) + r / 3 + c) mod 9 + 1)) (seq 0 9)) (seq 0 9).

(** Boolean form of [consistent], [full] and of the digit range, to check
    [solvedGrid] by computation. *)
Definition peerb (r c r' c' : nat) : bool :=
  (r' =? r) || (c' =? c) || ((r' / 3 =? r / 3) && (c' / 3 =? c / 3)).

Definition consistentb (grid : SudokuGrid) : bool :=
  forallb (λ p, forallb (λ q,
    (q.1 =? p.1) && (q.2 =? p.2) || negb (peerb p.1 p.2 q.1 q.2) ||
    match rawAt grid p.1 p.2 with
    | Some d => negb (holds (rawAt grid q.1 q.2) d)
    | None => true
    end) allCells) allCells.

Definition solvedb (grid : SudokuGrid) : bool :=
  forallb (λ p, match rawAt grid p.1 p.2 with
                | Some d => (1 <=? d) && (d <=? 9)
                | None => false
                end) allCells.

(** ** Game state *)

(** [type MoveHistory = { grid, selectedCell }] *)
Record MoveHistory := mkMove {
  h_grid : list (list SudokuCell);
  h_selectedCell : option (nat * nat)
}.

(** The [useState] cells of the component. *)
Record Session := mkSession {
  grid : list (list SudokuCell);
  selectedCell : option (nat * nat);
  highlightedNumber : option nat;
  highlightedPosition : option (nat * nat);
  isComplete : bool;
  moveHistory : list MoveHistory;
  lives : Z;
  timer : Z;
  isTimerRunning : bool;
  currentPuzzle : SudokuGrid
}.

(** The sounds a handler plays, in order. *)
Inductive Sound := PlaceSound | ErrorSound | SuccessSound | UndoSound | ClickSound.

(** The result classification of a value entry: the error sound signals an
    invalid placement, the place sound a valid one. *)
Inductive Outcome := NoOutcome | Placed | Invalid.

Definition soundb (a b : Sound) : bool :=
  match a, b with
  | PlaceSound, PlaceSound | ErrorSound, ErrorSound | SuccessSound, SuccessSound
  | UndoSound, UndoSound | ClickSound, ClickSound => true
  | _, _ => false
  end.

Definition outcomeOf (sounds : list Sound) : Outcome :=
  if existsb (soundb ErrorSound) sounds then Invalid
  else if existsb (soundb PlaceSound) sounds then Placed
  else NoOutcome.

(** [puzzle.map(row => row.map(cell => ({ value: cell, isFixed: cell !== null,
    isValid: true })))] *)
Definition annotate (puzzle : SudokuGrid) : list (list SudokuCell) :=
  map (map (λ cell, {| value := cell; isFixed := negb (isNull cell); isValid := true |})) puzzle.

(** The state of the first render. *)
Definition initialState : Session :=
  {| grid := []; selectedCell := None; highlightedNumber := None;
     highlightedPosition := None; isComplete := false; moveHistory := [];
     lives := 3; timer := 0; isTimerRunning := false; currentPuzzle := [] |}.

(** The mount effect, once the puzzle is generated. *)
Definition startWith (randomPuzzle : SudokuGrid) (s : Session) : Session :=
  let initialGrid := annotate randomPuzzle in
  {| grid := initialGrid;
     selectedCell := selectedCell s;
     highlightedNumber := highlightedNumber s;
     highlightedPosition := highlightedPosition s;
     isComplete := isComplete s;
     moveHistory := [{| h_grid := initialGrid; h_selectedCell := None |}];
     lives := lives s;
     timer := timer s;
     isTimerRunning := true;
     currentPuzzle := randomPuzzle |}.

(** A session created from the puzzle [seed]. *)
Definition createSession (seed : SudokuGrid) : Session := startWith seed initialState.

Definition mount (rng : Rng) : option (Session * Rng) :=
  match generateRandomSudoku rng with
  | Some (randomPuzzle, rng') => Some (createSession randomPuzzle, rng')
  | None => None
  end.

(** [handleUndo] *)
Definition handleUndo (s : Session) : Session * list Sound :=
  if length (moveHistory s) <=? 1 then (s, [])
  else
    let newHistory := take (length (moveHistory s) - 1) (moveHistory s) in
    match last newHistory with
    | Some previousState =>
        ({| grid := h_grid previousState;
            selectedCell := h_selectedCell previousState;
            highlightedNumber := highlightedNumber s;
            highlightedPosition := highlightedPosition s;
            isComplete := false;
            moveHistory := newHistory;
            lives := lives s;
            timer := timer s;
            isTimerRunning := isTimerRunning s;
            currentPuzzle := currentPuzzle s |}, [UndoSound])
    | None => (s, [UndoSound]) (* not reached: [newHistory] has an entry *)
    end.

(** The [grid.map] of [handleNumberInput] and [handleClear]: a copy of the
    grid with the value of the cell [(row, col)] replaced. *)
Definition setValue (g : list (list SudokuCell)) (row col : nat) (newValue : option nat)
    : list (list SudokuCell) :=
  imap (λ rowIndex r,
    imap (λ colIndex cell,
      if (rowIndex =? row) && (colIndex =? col)
      then {| value := newValue; isFixed := isFixed cell; isValid := isValid cell |}
      else cell) r) g.

Definition isFull (g : list (list SudokuCell)) : bool :=
  forallb (forallb (λ cell, negb (isNull (value cell)))) g.

Definition allValid (g : list (list SudokuCell)) : bool :=
  forallb (forallb isValid) g.

(** [handleNumberInput].  Reading a selected cell outside the grid raises a
    TypeError before any state is set; the selection is always inside. *)
Definition handleNumberInput (num : nat) (s : Session) : Session * list Sound :=
  match selectedCell s with
  | None => (s, [])
  | Some (row, col) =>
      match cellAt (grid s) row col with
      | None => (s, [])
      | Some current =>
          if isFixed current then (s, [])
          else
            let currentValue := value current in
            let newValue := if holds currentValue num then None else Some num in
            let newGrid := setValue (grid s) row col newValue in
            let validatedGrid := updateValidation newGrid in
            let invalid :=
              negb (isNull newValue) &&
              match cellAt validatedGrid row col with
              | Some cell => negb (isValid cell)
              | None => false
              end in
            let complete := isFull validatedGrid && allValid validatedGrid in
            ({| grid := validatedGrid;
                selectedCell := selectedCell s;
                highlightedNumber := highlightedNumber s;
                highlightedPosition := highlightedPosition s;
                isComplete := if complete then true else isComplete s;
                moveHistory := moveHistory s ++
                  [{| h_grid := validatedGrid; h_selectedCell := selectedCell s |}];
                lives := if invalid then Z.max 0 (lives s - 1) else lives s;
                timer := timer s;
                isTimerRunning := if complete then false else isTimerRunning s;
                currentPuzzle := currentPuzzle s |},
             (if invalid then [ErrorSound]
              else if negb (isNull newValue) then [PlaceSound] else [])
             ++ (if complete then [SuccessSound] else []))
      end
  end.

(** [handleCellClick].  A position outside the grid raises a TypeError after
    the highlighting was reset; the rendered buttons only pass positions of
    the grid. *)
Definition handleCellClick (row col : nat) (s : Session) : Session * list Sound :=
  match cellAt (grid s) row col with
  | None =>
      ({| grid := grid s; selectedCell := selectedCell s;
          highlightedNumber := None; highlightedPosition := None;
          isComplete := isComplete s; moveHistory := moveHistory s;
          lives := lives s; timer := timer s;
          isTimerRunning := isTimerRunning s;
          currentPuzzle := currentPuzzle s |}, [ClickSound])
  | Some cell =>
      ({| grid := grid s;
          selectedCell := if isFixed cell then selectedCell s else Some (row, col);
          highlightedNumber := value cell;
          highlightedPosition := Some (row, col);
          isComplete := isComplete s; moveHistory := moveHistory s;
          lives := lives s; timer := timer s;
          isTimerRunning := isTimerRunning s;
          currentPuzzle := currentPuzzle s |}, [ClickSound])
  end.

(** [handleClear] *)
Definition handleClear (s : Session) : Session * list Sound :=
  match selectedCell s with
  | None => (s, [])
  | Some (row, col) =>
      match cellAt (grid s) row col with
      | None => (s, [])
      | Some current =>
          if isFixed current then (s, [])
          else
            let newGrid := setValue (grid s) row col None in
            let validatedGrid := updateValidation newGrid in
            ({| grid := validatedGrid;
                selectedCell := selectedCell s;
                highlightedNumber := highlightedNumber s;
                highlightedPosition := highlightedPosition s;
                isComplete := false;
                moveHistory := moveHistory s ++
                  [{| h_grid := validatedGrid; h_selectedCell := selectedCell s |}];
                lives := lives s; timer := timer s;
                isTimerRunning := isTimerRunning s;
                currentPuzzle := currentPuzzle s |}, [ClickSound])
      end
  end.

(** The state [handleReset] and [handleNewPuzzle] set for a puzzle. *)
Definition restart (puzzle : SudokuGrid) : Session :=
  let initialGrid := annotate puzzle in
  {| grid := initialGrid; selectedCell := None; highlightedNumber := None;
     highlightedPosition := None; isComplete := false;
     moveHistory := [{| h_grid := initialGrid; h_selectedCell := None |}];
     lives := 3; timer := 0; isTimerRunning := true; currentPuzzle := puzzle |}.

Definition handleReset (s : Session) : Session * list Sound :=
  (restart (currentPuzzle s), [ClickSound]).

Definition handleNewPuzzle (rng : Rng) (s : Session) : option (Session * list Sound * Rng) :=
  match generateRandomSudoku rng with
  | Some (randomPuzzle, rng') => Some (restart randomPuzzle, [ClickSound], rng')
  | None => None
  end.

(** The [disabled] attribute of the nine number buttons and of the Clear button. *)
Definition inputDisabled (s : Session) : bool :=
  match selectedCell s with
  | None => true
  | Some (row, col) =>
      match cellAt (grid s) row col with
      | Some cell => isFixed cell || (lives s =? 0)%Z
      | None => true
      end
  end.

(** A click on the number button [num]: a disabled button has no handler. *)
Definition clickNumber (num : nat) (s : Session) : Session * list Sound :=
  if inputDisabled s then (s, []) else handleNumberInput num s.

(** [handleKeyPress], for the number [Number.parseInt(event.key)] ([None] is
    NaN). *)
Definition handleKeyPress (key : option nat) (s : Session) : Session * list Sound :=
  match key with
  | Some num => if (1 <=? num) && (num <=? 9) then handleNumberInput num s else (s, [])
  | None => (s, [])
  end.

(** *** Sequences of operations *)

Inductive Op :=
  | OpSelect (row col : nat)
  | OpInput (num : nat)
  | OpClear
  | OpUndo.

Definition applyOp (s : Session) (op : Op) : Session :=
  match op with
  | OpSelect row col => (handleCellClick row col s).1
  | OpInput num => (handleNumberInput num s).1
  | OpClear => (handleClear s).1
  | OpUndo => (handleUndo s).1
  end.

Definition run (ops : list Op) (s : Session) : Session := foldl applyOp s ops.

(** A non-fixed cell is selected: the guard of [handleNumberInput] and of
    [handleClear] lets the call through. *)
Definition editable (s : Session) (row col : nat) (current : SudokuCell) : Prop :=
  selectedCell s = Some (row, col) ∧ cellAt (grid s) row col = Some current
  ∧ isFixed current = false.

(** Every cell of a grid satisfies [P]. *)
Definition everyCell (P : SudokuCell → Prop) (g : list (list SudokuCell)) : Prop :=
  ∀ r c cell, cellAt g r c = Some cell → P cell.

(** *** Vocabulary for revalidation *)

(** The cells at [p] and [q] are distinct peers holding the same digit. *)
Definition conflict (g : list (list SudokuCell)) (p q : nat * nat) : Prop :=
  p.1 < 9 ∧ p.2 < 9 ∧ q.1 < 9 ∧ q.2 < 9 ∧ q ≠ p ∧ peer p.1 p.2 q.1 q.2
  ∧ ∃ d, valueAt g p.1 p.2 = Some d ∧ valueAt g q.1 q.2 = Some d.

(** The grid has a single conflict: the cells [(row, c1)] and [(row, c2)] of
    one row hold the same digit. *)
Definition onlyRowConflict (g : list (list SudokuCell)) (row c1 c2 : nat) : Prop :=
  row < 9 ∧ c1 < 9 ∧ c2 < 9 ∧ c1 ≠ c2
  ∧ (∃ d, valueAt g row c1 = Some d ∧ valueAt g row c2 = Some d)
  ∧ ∀ p q, conflict g p q →
      (p = (row, c1) ∧ q = (row, c2)) ∨ (p = (row, c2) ∧ q = (row, c1)).

Definition markedValid (g : list (list SudokuCell)) (r c : nat) : Prop :=
  ∃ cell, cellAt g r c = Some cell ∧ isValid cell = true.

Definition markedInvalid (g : list (list SudokuCell)) (r c : nat) : Prop :=
  ∃ cell, cellAt g r c = Some cell ∧ isValid cell = false.

Definition posb (p q : nat * nat) : bool := (p.1 =? q.1) && (p.2 =? q.2).

Definition conflictb (g : list (list SudokuCell)) (p q : nat * nat) : bool :=
  negb (posb q p) && peerb p.1 p.2 q.1 q.2
  && match valueAt g p.1 p.2 with
     | Some d => holds (valueAt g q.1 q.2) d
     | None => false
     end.

Definition onlyRowConflictb (g : list (list SudokuCell)) (row c1 c2 : nat) : bool :=
  (row <? 9) && (c1 <? 9) && (c2 <? 9) && negb (c1 =? c2)
  && conflictb g (row, c1) (row, c2)
  && forallb (λ p, forallb (λ q,
       negb (conflictb g p q)
       || (posb p (row, c1) && posb q (row, c2))
       || (posb p (row, c2) && posb q (row, c1))) allCells) allCells.

(** A grid with a 7 at (0,0) and at (0,1), and a 3 at (4,4). *)
Definition duplicateRow : list (list SudokuCell) :=
  annotate (setRaw (setRaw (setRaw emptyGrid 0 0 (Some 7)) 0 1 (Some 7)) 4 4 (Some 3)).

(** *** Concrete grids and sessions *)

Definition wf9b {A} (g : list (list A)) : bool :=
  (length g =? 9) && forallb (λ r, length r =? 9) g.

(** A puzzle with a fixed 7 at (0,0) and nothing else, and the session in
    which the empty cell (0,1) is selected. *)
Definition scenarioPuzzle : SudokuGrid := setRaw emptyGrid 0 0 (Some 7).

Definition scenario : Session := (handleCellClick 0 1 (createSession scenarioPuzzle)).1.

(** A puzzle with one empty cell, (0,0), whose solution is 1, and the session
    in which that cell was selected and filled in. *)
Definition lastCellPuzzle : SudokuGrid := setRaw solvedGrid 0 0 None.

Definition lastCellSelected : Session :=
  (handleCellClick 0 0 (createSession lastCellPuzzle)).1.

Definition solvedSession : Session := (handleNumberInput 1 lastCellSelected).1.

(** *** Invariants of a session *)

(** The grid [g] has the fixed flags of [g0] and, on its fixed cells, the
    values of [g0]. *)
Definition keepsFixed (g0 g : list (list SudokuCell)) : Prop :=
  ∀ r c cell0, cellAt g0 r c = Some cell0 →
    ∃ cell, cellAt g r c = Some cell ∧ isFixed cell = isFixed cell0
      ∧ (isFixed cell0 = true → value cell = value cell0).

(** The current grid and every snapshot keep the fixed cells of [g0]. *)
Definition fixedInv (g0 : list (list SudokuCell)) (s : Session) : Prop :=
  keepsFixed g0 (grid s) ∧ ∀ h, h ∈ moveHistory s → keepsFixed g0 (h_grid h).

(** The last snapshot holds the current grid. *)
Definition historyInv (s : Session) : Prop :=
  ∃ top, last (moveHistory s) = Some top ∧ h_grid top = grid s.

(** The last snapshot holds the current selection. *)
Definition selectionSaved (s : Session) : Prop :=
  ∃ top, last (moveHistory s) = Some top ∧ h_selectedCell top = selectedCell s.

(** The guard of [handleNumberInput] and [handleClear] stops the call. *)
Definition notEditable (s : Session) : Prop :=
  selectedCell s = None
  ∨ ∃ row col, selectedCell s = Some (row, col)
      ∧ (cellAt (grid s) row col = None
         ∨ ∃ cell, cellAt (grid s) row col = Some cell ∧ isFixed cell = true).

(** The session [scenario] after five entries of 7 at (0,1): three of them
    conflict with the fixed 7, and no life is left. *)
Definition outOfLives : Session :=
  run [OpInput 7; OpInput 7; OpInput 7; OpInput 7; OpInput 7] scenario.

(** *** Vocabulary for the backtracking search *)

(** A complete 9x9 grid of digits 1..9 without conflict. *)
Definition solution (sol : SudokuGrid) : Prop :=
  wf9 sol ∧ consistent sol
  ∧ ∀ r c, r < 9 → c < 9 → ∃ d, rawAt sol r c = Some d ∧ 1 ≤ d ≤ 9.

(** What a call of [fillGrid] on [g] guarantees: on [true] the grid is
    complete and without conflict; on [false] the grid is as it was and no
    solution contains it. *)
Definition fillPost (g : SudokuGrid) (res : FillResult) : Prop :=
  if res.1.1
  then wf9 res.1.2 ∧ full res.1.2 ∧ consistent res.1.2
  else res.1.2 = g ∧ ∀ sol, solution sol → ¬ extends g sol.

Definition nulls (l : list (option nat)) : nat :=
  length (filter (λ x, x = None) l).

Definition nullWeight (x : option nat) : nat := if isNull x then 1 else 0.

(** The positions with a row of [rows] and a column of [cols], row by row;
    [allCells] is [cellsOf (seq 0 9) (seq 0 9)]. *)
Definition cellsOf (rows cols : list nat) : list (nat * nat) :=
  flat_map (λ row, map (λ col, (row, col)) cols) rows.

(** The values of a grid at a list of positions. *)
Definition valuesAt (g : SudokuGrid) (ps : list (nat * nat)) : list (option nat) :=
  map (λ p, rawAt g p.1 p.2) ps.

(** The loop of [removeCells] over the positions it visits. *)
Definition clearCells (g : SudokuGrid) (ps : list (nat * nat)) : SudokuGrid :=
  foldl (λ g p, setRaw g p.1 p.2 None) g ps.

(** A snapshot is acceptable: without a selection the grid is the initial
    one; with a selection the selected cell exists and is not fixed. *)
Definition snapOk (g0 g : list (list SudokuCell)) (sel : option (nat * nat)) : Prop :=
  match sel with
  | None => g = g0
  | Some (r, c) => ∃ cell, cellAt g r c = Some cell ∧ isFixed cell = false
  end.

(** The current state and every snapshot are acceptable. *)
Definition selectionInv (g0 : list (list SudokuCell)) (s : Session) : Prop :=
  snapOk g0 (grid s) (selectedCell s)
  ∧ ∀ h, h ∈ moveHistory s → snapOk g0 (h_grid h) (h_selectedCell h).

(** The grid is completely filled and every cell is marked valid. *)
Definition completed (g : list (list SudokuCell)) : Prop :=
  everyCell (λ cell, value cell ≠ None) g ∧ everyCell (λ cell, isValid cell = true) g.

(** ** Presentation helpers of the component *)

(** [shouldHighlightCell]; a number is truthy when it is not 0. *)
Definition shouldHighlightCell (s : Session) (rowIndex colIndex : nat) (cell : SudokuCell)
    : bool :=
  match highlightedPosition s with
  | None => false
  | Some (hrow, hcol) =>
      match highlightedNumber s with
      | Some n => negb (n =? 0) && holds (value cell) n
      | None => false
      end
      || (rowIndex =? hrow) || (colIndex =? hcol)
      || ((hrow / 3 =? rowIndex / 3) && (hcol / 3 =? colIndex / 3))
  end.

(** One firing of the interval of the timer effect; the interval exists only
    while [isTimerRunning]. *)
Definition tick (s : Session) : Session :=
  if isTimerRunning s then
    {| grid := grid s; selectedCell := selectedCell s;
       highlightedNumber := highlightedNumber s;
       highlightedPosition := highlightedPosition s;
       isComplete := isComplete s; moveHistory := moveHistory s;
       lives := lives s; timer := timer s + 1;
       isTimerRunning := isTimerRunning s;
       currentPuzzle := currentPuzzle s |}
  else s.

Definition handlePauseTimer (s : Session) : Session * list Sound :=
  ({| grid := grid s; selectedCell := selectedCell s;
      highlightedNumber := highlightedNumber s;
      highlightedPosition := highlightedPosition s;
      isComplete := isComplete s; moveHistory := moveHistory s;
      lives := lives s; timer := timer s;
      isTimerRunning := negb (isTimerRunning s);
      currentPuzzle := currentPuzzle s |}, [ClickSound]).

Definition handleResetTimer (s : Session) : Session * list Sound :=
  ({| grid := grid s; selectedCell := selectedCell s;
      highlightedNumber := highlightedNumber s;
      highlightedPosition := highlightedPosition s;
      isComplete := isComplete s; moveHistory := moveHistory s;
      lives := lives s; timer := 0;
      isTimerRunning := true;
      currentPuzzle := currentPuzzle s |}, [ClickSound]).

(** The [disabled] attribute of the Undo button. *)
Definition undoDisabled (s : Session) : bool := length (moveHistory s) <=? 1.

(** Clicks on the Undo and Clear buttons: a disabled button has no handler. *)
Definition clickUndo (s : Session) : Session * list Sound :=
  if undoDisabled s then (s, []) else handleUndo s.

Definition clickClear (s : Session) : Session * list Sound :=
  if inputDisabled s then (s, []) else handleClear s.

(** [str.padStart(targetLength, pad)] for a one-character [pad]. *)
Definition padStart (targetLength : nat) (pad : Ascii.ascii) (str : string) : string :=
  Nat.iter (targetLength - String.length str) (String pad) str.

(** [formatTime]: [Math.floor(seconds / 60)] is the floored quotient, [%] the
    remainder with the sign of the dividend, [toString] the decimal
    numeral. *)
Definition formatTime (seconds : Z) : string :=
  let mins := (seconds / 60)%Z in
  let secs := Z.rem seconds 60 in
  padStart 2 "0"%char (pretty mins) +:+ ":" +:+ padStart 2 "0"%char (pretty secs).

(** The decimal digit [d] as a character. *)
Definition digitChar (d : Z) : Ascii.ascii := Ascii.ascii_of_nat (48 + Z.to_nat d).

(** Two decimal digits, a colon, two decimal digits. *)
Definition clockFace (mins secs : Z) : string :=
  String (digitChar (mins / 10)) (String (digitChar (mins mod 10))
    (String ":"%char (String (digitChar (secs / 10)) (String (digitChar (secs mod 10)) "")))).

(** *** More vocabulary for sessions *)

(** The snapshot pushed when a session is created from [seed]. *)
Definition initialSnapshot (seed : SudokuGrid) : MoveHistory :=
  {| h_grid := annotate seed; h_selectedCell := None |}.

(** Every digit of the grid is between 1 and 9. *)
Definition digitsInRange (g : SudokuGrid) : Prop :=
  ∀ r c d, r < 9 → c < 9 → rawAt g r c = Some d → 1 ≤ d ≤ 9.

(** The values of an annotated grid, as a raw grid. *)
Definition valuesOf (g : list (list SudokuCell)) : SudokuGrid := map (map value) g.

(** [g'] contains [g], and whatever it adds is a digit from 1 to 9. *)
Definition grows (g g' : SudokuGrid) : Prop :=
  extends g g'
  ∧ ∀ r c d, r < 9 → c < 9 → rawAt g' r c = Some d →
      rawAt g r c = Some d ∨ 1 ≤ d ≤ 9.

(** The current grid and the grid of every snapshot satisfy [P]. *)
Definition allGrids (P : list (list SudokuCell) → Prop) (s : Session) : Prop :=
  P (grid s) ∧ ∀ h, h ∈ moveHistory s → P (h_grid h).

(** A 9x9 grid whose [isValid] flags are the ones revalidation computes. *)
Definition validated (g : list (list SudokuCell)) : Prop :=
  wf9 g ∧ updateValidation g = g.

(** The first snapshot is the initial one. *)
Definition headInv (seed : SudokuGrid) (s : Session) : Prop :=
  ∃ rest, moveHistory s = initialSnapshot seed :: rest.

(** * Proofs *)

(** ** Validator lemmas *)

Lemma forallb_seq (f : nat → bool) (a n : nat) :
  forallb f (seq a n) = true ↔ ∀ i, a ≤ i < a + n → f i = true.
Proof.
  rewrite forallb_forall. split.
  - intros H i Hi. apply H, in_seq. lia.
  - intros H i Hi. apply H, in_seq, Hi.
Qed.

Lemma holds_true (x : option nat) (num : nat) : holds x num = true ↔ x = Some num.
Proof.
  destruct x as [v|]; simpl.
  - rewrite Nat.eqb_eq. split; congruence.
  - split; congruence.
Qed.

Lemma holds_false (x : option nat) (num : nat) : holds x num = false ↔ x ≠ Some num.
Proof.
  rewrite <- holds_true. destruct (holds x num); split; congruence.
Qed.

Lemma box_range (row r : nat) : row / 3 * 3 ≤ r < row / 3 * 3 + 3 ↔ r / 3 = row / 3.
Proof.
  split.
  - intros H. symmetry. apply (Nat.div_unique r 3 (row / 3) (r - row / 3 * 3)); lia.
  - intros H. pose proof (Nat.div_mod_eq r 3) as E.
    pose proof (Nat.mod_upper_bound r 3). rewrite H in E. lia.
Qed.

Lemma box_lt9 (row r : nat) : row < 9 → r / 3 = row / 3 → r < 9.
Proof.
  intros Hrow H. pose proof (Nat.div_mod_eq r 3) as E.
  pose proof (Nat.mod_upper_bound r 3).
  assert (row / 3 < 3) by (apply Nat.Div0.div_lt_upper_bound; lia). lia.
Qed.

(** What [isValidMove] decides, for any way of reading values. *)
Lemma isValidMove_spec (grid : list (list SudokuCell)) (row col num : nat) :
  row < 9 → col < 9 →
  isValidMove grid row col num = true ↔ noOtherHolds (valueAt grid) row col num.
Proof.
  intros Hrow Hcol. unfold isValidMove, noOtherHolds. cbv zeta.
  rewrite !andb_true_iff, !forallb_seq. split.
  - intros [[Hr Hc] Hb] r c Hr9 Hc9 Hne [E|[E|[Hbr Hbc]]].
    + subst r. specialize (Hr c ltac:(lia)).
      destruct (Nat.eqb_spec c col) as [E|_]; [congruence|].
      simpl in Hr. apply negb_true_iff, holds_false in Hr. exact Hr.
    + subst c. specialize (Hc r ltac:(lia)).
      destruct (Nat.eqb_spec r row) as [E|_]; [congruence|].
      simpl in Hc. apply negb_true_iff, holds_false in Hc. exact Hc.
    + apply box_range in Hbr, Hbc.
      specialize (Hb r Hbr). rewrite forallb_seq in Hb. specialize (Hb c Hbc).
      destruct (Nat.eqb_spec r row) as [E1|_], (Nat.eqb_spec c col) as [E2|_];
        try congruence; simpl in Hb; apply negb_true_iff, holds_false in Hb; exact Hb.
  - intros H. repeat split.
    + intros c Hc. destruct (Nat.eqb_spec c col) as [E|Hne]; [reflexivity|]. simpl.
      apply negb_true_iff, holds_false, H; [lia|lia|congruence|left; reflexivity].
    + intros r Hr. destruct (Nat.eqb_spec r row) as [E|Hne]; [reflexivity|]. simpl.
      apply negb_true_iff, holds_false, H; [lia|lia|congruence|right; left; reflexivity].
    + intros r Hr. rewrite forallb_seq. intros c Hc.
      apply box_range in Hr, Hc.
      destruct (Nat.eqb_spec r row) as [E1|Hr'], (Nat.eqb_spec c col) as [E2|Hc'];
        simpl; try reflexivity;
        apply negb_true_iff, holds_false, H;
        eauto using box_lt9; try congruence; right; right; split; assumption.
Qed.

(** What [isValidPlacement] decides: the scans include [(row, col)]. *)
Lemma isValidPlacement_spec (grid : SudokuGrid) (row col num : nat) :
  row < 9 → col < 9 →
  isValidPlacement grid row col num = true ↔
  rawAt grid row col ≠ Some num ∧ noOtherHolds (rawAt grid) row col num.
Proof.
  intros Hrow Hcol. unfold isValidPlacement, noOtherHolds. cbv zeta.
  rewrite !andb_true_iff, !forallb_seq. split.
  - intros [[Hr Hc] Hb]. split.
    + apply holds_false, negb_true_iff, Hr. lia.
    + intros r c Hr9 Hc9 _ [E|[E|[Hbr Hbc]]].
      * subst r. apply holds_false, negb_true_iff, Hr. lia.
      * subst c. apply holds_false, negb_true_iff, Hc. lia.
      * apply box_range in Hbr, Hbc. specialize (Hb r Hbr).
        rewrite forallb_seq in Hb. apply holds_false, negb_true_iff, Hb, Hbc.
  - intros [Hself H].
    assert (Hall : ∀ r c, r < 9 → c < 9 → peer row col r c → rawAt grid r c ≠ Some num).
    { intros r c Hr Hc Hp. destruct (decide ((r, c) = (row, col))) as [E|E].
      - injection E as -> ->. exact Hself.
      - apply H; assumption. }
    repeat split.
    + intros c Hc. apply negb_true_iff, holds_false, Hall; [lia|lia|left; reflexivity].
    + intros r Hr. apply negb_true_iff, holds_false, Hall; [lia|lia|right; left; reflexivity].
    + intros r Hr. rewrite forallb_seq. intros c Hc. apply box_range in Hr, Hc.
      apply negb_true_iff, holds_false, Hall; eauto using box_lt9.
      right; right; split; assumption.
Qed.

(** C10. On a 9x9 grid and at an empty position, the generation-time check
    [isValidPlacement] on the raw grid and the play-time check [isValidMove]
    on any annotated grid carrying the same values return the same boolean,
    and both return [true] exactly when no other cell of the row, column or
    3x3 box of the position holds the digit. *)
Theorem legality_checks_agree
    (raw : SudokuGrid) (grid : list (list SudokuCell)) (row col num : nat) :
  wf9 raw → wf9 grid → sameValues raw grid →
  row < 9 → col < 9 → rawAt raw row col = None →
  isValidPlacement raw row col num = isValidMove grid row col num
  ∧ (isValidPlacement raw row col num = true ↔ noOtherHolds (rawAt raw) row col num)
  ∧ (isValidMove grid row col num = true ↔ noOtherHolds (valueAt grid) row col num).
Proof.
  intros _ _ Hsame Hrow Hcol Hempty.
  assert (Hp : isValidPlacement raw row col num = true ↔ noOtherHolds (rawAt raw) row col num).
  { rewrite isValidPlacement_spec by assumption. rewrite Hempty. split.
    - intros [_ H]. exact H.
    - intros H. split; [discriminate|exact H]. }
  assert (Hm := isValidMove_spec grid row col num Hrow Hcol).
  assert (Heq : noOtherHolds (rawAt raw) row col num ↔ noOtherHolds (valueAt grid) row col num).
  { unfold noOtherHolds. split; intros H r c Hr Hc Hne Hpeer.
    - rewrite Hsame by assumption. apply H; assumption.
    - rewrite <- Hsame by assumption. apply H; assumption. }
  split; [|split; assumption].
  destruct (isValidPlacement raw row col num) eqn:E1, (isValidMove grid row col num) eqn:E2;
    try reflexivity.
  - assert (false = true) by (apply Hm, Heq, Hp; reflexivity). discriminate.
  - assert (false = true) by (apply Hp, Heq, Hm; reflexivity). discriminate.
Qed.

(** ** Revalidation *)

Lemma cellAt_updateValidation (g : list (list SudokuCell)) (r c : nat) :
  cellAt (updateValidation g) r c =
  (λ cell, {| value := value cell; isFixed := isFixed cell;
              isValid := match value cell with
                         | None => true
                         | Some v => isValidMove g r c v
                         end |}) <$> cellAt g r c.
Proof.
  unfold cellAt, updateValidation. rewrite list_lookup_imap.
  destruct (g !! r) as [row|]; simpl; [|reflexivity].
  apply list_lookup_imap.
Qed.

Lemma valueAt_updateValidation (g : list (list SudokuCell)) (r c : nat) :
  valueAt (updateValidation g) r c = valueAt g r c.
Proof.
  unfold valueAt. rewrite cellAt_updateValidation.
  destruct (cellAt g r c); reflexivity.
Qed.

Lemma cellAt_setValue (g : list (list SudokuCell)) (row col : nat) (v : option nat) (r c : nat) :
  cellAt (setValue g row col v) r c =
  (λ cell, if (r =? row) && (c =? col)
           then {| value := v; isFixed := isFixed cell; isValid := isValid cell |}
           else cell) <$> cellAt g r c.
Proof.
  unfold cellAt, setValue. rewrite list_lookup_imap.
  destruct (g !! r) as [rw|]; simpl; [|reflexivity].
  apply list_lookup_imap.
Qed.

Lemma cellAt_wf9 {A} (g : list (list A)) (r c : nat) :
  wf9 g → r < 9 → c < 9 → ∃ row x, g !! r = Some row ∧ row !! c = Some x.
Proof.
  intros [Hlen Hrows] Hr Hc.
  destruct (lookup_lt_is_Some_2 g r ltac:(lia)) as [row Hrow].
  destruct (lookup_lt_is_Some_2 row c) as [x Hx].
  { rewrite (Hrows _ _ Hrow). exact Hc. }
  eauto.
Qed.

Lemma cellAt_is_Some (g : list (list SudokuCell)) (r c : nat) :
  wf9 g → r < 9 → c < 9 → ∃ cell, cellAt g r c = Some cell.
Proof.
  intros Hwf Hr Hc. destruct (cellAt_wf9 g r c Hwf Hr Hc) as (row & x & Hrow & Hx).
  exists x. unfold cellAt. rewrite Hrow. exact Hx.
Qed.

Lemma forallb_false_ex {A} (f : A → bool) (l : list A) :
  forallb f l = false → ∃ x, In x l ∧ f x = false.
Proof.
  induction l as [|a l IH]; simpl; [discriminate|].
  destruct (f a) eqn:E; simpl.
  - intros H. destruct (IH H) as (x & Hx & Hf). eauto.
  - intros _. eauto.
Qed.

(** A failed [isValidMove] names the conflicting cell. *)
Lemma isValidMove_false (g : list (list SudokuCell)) (row col num : nat) :
  row < 9 → col < 9 → isValidMove g row col num = false →
  ∃ r c, r < 9 ∧ c < 9 ∧ (r, c) ≠ (row, col) ∧ peer row col r c ∧ valueAt g r c = Some num.
Proof.
  intros Hrow Hcol. unfold isValidMove. cbv zeta.
  rewrite !andb_false_iff. intros [[H|H]|H].
  - apply forallb_false_ex in H as (c & Hc & H). apply in_seq in Hc.
    apply negb_false_iff, andb_true_iff in H as [Hne H].
    apply negb_true_iff, Nat.eqb_neq in Hne. apply holds_true in H.
    exists row, c. repeat split; [lia|lia|congruence|left; reflexivity|exact H].
  - apply forallb_false_ex in H as (r & Hr & H). apply in_seq in Hr.
    apply negb_false_iff, andb_true_iff in H as [Hne H].
    apply negb_true_iff, Nat.eqb_neq in Hne. apply holds_true in H.
    exists r, col. repeat split; [lia|lia|congruence|right; left; reflexivity|exact H].
  - apply forallb_false_ex in H as (r & Hr & H). apply in_seq in Hr.
    apply forallb_false_ex in H as (c & Hc & H). apply in_seq in Hc.
    apply negb_false_iff, andb_true_iff in H as [Hne H]. apply holds_true in H.
    assert (Hbr : r / 3 = row / 3) by (apply box_range; lia).
    assert (Hbc : c / 3 = col / 3) by (apply box_range; lia).
    exists r, c. repeat split; eauto using box_lt9.
    + intros E. injection E as -> ->. rewrite !Nat.eqb_refl in Hne. discriminate.
    + right; right; split; assumption.
Qed.

Lemma In_allCells (p : nat * nat) : In p allCells ↔ p.1 < 9 ∧ p.2 < 9.
Proof.
  unfold allCells. rewrite in_flat_map. split.
  - intros (r & Hr & Hp). apply in_map_iff in Hp as (c & <- & Hc).
    apply in_seq in Hr, Hc. simpl. lia.
  - intros [Hr Hc]. exists p.1. split; [apply in_seq; lia|].
    apply in_map_iff. exists p.2. split; [destruct p; reflexivity|apply in_seq; lia].
Qed.

Lemma peerb_spec (r c r' c' : nat) : peerb r c r' c' = true ↔ peer r c r' c'.
Proof.
  unfold peerb, peer, sameBox.
  rewrite !orb_true_iff, andb_true_iff, !Nat.eqb_eq. tauto.
Qed.

Lemma posb_spec (p q : nat * nat) : posb p q = true ↔ p = q.
Proof.
  unfold posb. rewrite andb_true_iff, !Nat.eqb_eq.
  destruct p, q; simpl. split; [intros [-> ->]; reflexivity|intros [= -> ->]; auto].
Qed.

Lemma conflictb_spec (g : list (list SudokuCell)) (p q : nat * nat) :
  p.1 < 9 → p.2 < 9 → q.1 < 9 → q.2 < 9 →
  conflictb g p q = true ↔ conflict g p q.
Proof.
  intros Hp1 Hp2 Hq1 Hq2. unfold conflictb, conflict.
  rewrite !andb_true_iff, negb_true_iff, peerb_spec. split.
  - intros [[Hne Hpeer] Hv]. repeat split; try assumption.
    + intros E. apply posb_spec in E. congruence.
    + destruct (valueAt g p.1 p.2) as [d|]; [|discriminate].
      exists d. split; [reflexivity|apply holds_true, Hv].
  - intros (_ & _ & _ & _ & Hne & Hpeer & d & Hd & Hd'). repeat split.
    + destruct (posb q p) eqn:E; [|reflexivity]. apply posb_spec in E. contradiction.
    + exact Hpeer.
    + rewrite Hd. apply holds_true, Hd'.
Qed.

Lemma onlyRowConflictb_sound (g : list (list SudokuCell)) (row c1 c2 : nat) :
  onlyRowConflictb g row c1 c2 = true → onlyRowConflict g row c1 c2.
Proof.
  unfold onlyRowConflictb, onlyRowConflict.
  rewrite !andb_true_iff, !Nat.ltb_lt, negb_true_iff, Nat.eqb_neq.
  intros [[[[[Hrow Hc1] Hc2] Hne] Hpair] Hall].
  apply conflictb_spec in Hpair; try assumption.
  repeat split; try assumption.
  - destruct Hpair as (_ & _ & _ & _ & _ & _ & Hd). exact Hd.
  - intros p q Hc. pose proof Hc as (Hp1 & Hp2 & Hq1 & Hq2 & _).
    rewrite forallb_forall in Hall.
    specialize (Hall p (proj2 (In_allCells p) (conj Hp1 Hp2))).
    rewrite forallb_forall in Hall.
    specialize (Hall q (proj2 (In_allCells q) (conj Hq1 Hq2))).
    apply conflictb_spec in Hc; try assumption. rewrite Hc in Hall. simpl in Hall.
    apply orb_true_iff in Hall as [H|H]; apply andb_true_iff in H as [H1 H2];
      apply posb_spec in H1, H2; auto.
Qed.

Lemma conflict_sym (g : list (list SudokuCell)) (p q : nat * nat) :
  conflict g p q → conflict g q p.
Proof.
  intros (Hp1 & Hp2 & Hq1 & Hq2 & Hne & Hpeer & d & Hd & Hd').
  repeat split; try assumption.
  - congruence.
  - destruct Hpeer as [H|[H|[H1 H2]]]; [left|right; left|right; right; split]; congruence.
  - eauto.
Qed.

(** The flag [updateValidation] computes for a cell. *)
Lemma updateValidation_flag (g : list (list SudokuCell)) (r c : nat) (cell : SudokuCell) :
  r < 9 → c < 9 → cellAt g r c = Some cell →
  ∃ cell', cellAt (updateValidation g) r c = Some cell'
    ∧ value cell' = value cell ∧ isFixed cell' = isFixed cell
    ∧ (isValid cell' = true ↔
       value cell = None ∨ ∃ d, value cell = Some d ∧ noOtherHolds (valueAt g) r c d)
    ∧ (isValid cell' = false ↔ ∃ q, conflict g (r, c) q).
Proof.
  intros Hr Hc Hcell. rewrite cellAt_updateValidation, Hcell. simpl.
  eexists. split; [reflexivity|]. simpl. split; [reflexivity|]. split; [reflexivity|].
  assert (Hv : valueAt g r c = value cell) by (unfold valueAt; rewrite Hcell; reflexivity).
  destruct (value cell) as [d|] eqn:Ed.
  - split.
    + rewrite isValidMove_spec by assumption. split.
      * intros H. right. exists d. auto.
      * intros [H|(d' & [= <-] & H)]; [discriminate|exact H].
    + split.
      * intros H. apply isValidMove_false in H as (r' & c' & Hr' & Hc' & Hne & Hp & Hd);
          try assumption.
        exists (r', c'). repeat split; simpl; try assumption. eauto.
      * intros (q & _ & _ & Hq1 & Hq2 & Hne & Hp & d' & Hd & Hd').
        simpl in *. rewrite Hv in Hd. injection Hd as <-.
        destruct (isValidMove g r c d) eqn:E; [|reflexivity].
        apply isValidMove_spec in E; try assumption.
        exfalso. apply (E q.1 q.2); try assumption. destruct q; exact Hne.
  - split.
    + split; auto.
    + split; [discriminate|].
      intros (q & _ & _ & _ & _ & _ & _ & d & Hd & _). simpl in Hd. congruence.
Qed.

Lemma valueAt_setValue (g : list (list SudokuCell)) (row col : nat) (v : option nat) (r c : nat) :
  valueAt (setValue g row col v) r c =
  if (r =? row) && (c =? col)
  then match cellAt g r c with Some _ => v | None => None end
  else valueAt g r c.
Proof.
  unfold valueAt. rewrite cellAt_setValue.
  destruct (cellAt g r c) as [cell|]; simpl.
  - destruct ((r =? row) && (c =? col)); reflexivity.
  - destruct ((r =? row) && (c =? col)); reflexivity.
Qed.

Lemma conflict_after_clear (g : list (list SudokuCell)) (row col : nat) (p q : nat * nat) :
  conflict (setValue g row col None) p q →
  conflict g p q ∧ p ≠ (row, col) ∧ q ≠ (row, col).
Proof.
  intros (Hp1 & Hp2 & Hq1 & Hq2 & Hne & Hpeer & d & Hd & Hd').
  rewrite valueAt_setValue in Hd, Hd'.
  destruct ((p.1 =? row) && (p.2 =? col)) eqn:Ep.
  { destruct (cellAt g p.1 p.2); discriminate. }
  destruct ((q.1 =? row) && (q.2 =? col)) eqn:Eq.
  { destruct (cellAt g q.1 q.2); discriminate. }
  split; [|split].
  - repeat split; try assumption. eauto.
  - intros ->. simpl in Ep. rewrite !Nat.eqb_refl in Ep. discriminate.
  - intros ->. simpl in Eq. rewrite !Nat.eqb_refl in Eq. discriminate.
Qed.

Lemma not_false_markedValid (g : list (list SudokuCell)) (r c : nat) :
  wf9 g → r < 9 → c < 9 → (∀ q, ¬ conflict g (r, c) q) →
  markedValid (updateValidation g) r c.
Proof.
  intros Hwf Hr Hc Hno.
  destruct (cellAt_is_Some g r c Hwf Hr Hc) as [cell Hcell].
  destruct (updateValidation_flag g r c cell Hr Hc Hcell) as (cell' & H' & _ & _ & _ & Hf).
  exists cell'. split; [exact H'|].
  destruct (isValid cell') eqn:E; [reflexivity|].
  destruct Hf as [Hf _]. destruct (Hf eq_refl) as [q Hq]. destruct (Hno q Hq).
Qed.

Lemma wf9_setValue (g : list (list SudokuCell)) (row col : nat) (v : option nat) :
  wf9 g → wf9 (setValue g row col v).
Proof.
  intros [Hlen Hrows]. unfold setValue. split.
  - rewrite length_imap. exact Hlen.
  - intros r rw. rewrite list_lookup_imap. destruct (g !! r) as [rw0|] eqn:E; [|discriminate].
    simpl. intros [= <-]. rewrite length_imap. eauto.
Qed.

Lemma wf9_updateValidation (g : list (list SudokuCell)) :
  wf9 g → wf9 (updateValidation g).
Proof.
  intros [Hlen Hrows]. unfold updateValidation. split.
  - rewrite length_imap. exact Hlen.
  - intros r rw. rewrite list_lookup_imap. destruct (g !! r) as [rw0|] eqn:E; [|discriminate].
    simpl. intros [= <-]. rewrite length_imap. eauto.
Qed.

(** C2. On a 9x9 grid [updateValidation] keeps every cell's value and fixed
    flag and marks a cell valid exactly when it is empty or no other cell of
    its row, column or box holds its value.  When the only conflict of the
    grid is one pair of equal digits in a row, exactly the two cells of the
    pair are marked invalid and every other cell is marked valid; once either
    cell of the pair is emptied, revalidation marks every cell valid. *)
Theorem updateValidation_correct (g : list (list SudokuCell)) :
  wf9 g →
  (∀ r c cell, r < 9 → c < 9 → cellAt g r c = Some cell →
     ∃ cell', cellAt (updateValidation g) r c = Some cell'
       ∧ value cell' = value cell ∧ isFixed cell' = isFixed cell
       ∧ (isValid cell' = true ↔
          value cell = None ∨ ∃ d, value cell = Some d ∧ noOtherHolds (valueAt g) r c d))
  ∧ (∀ row c1 c2, onlyRowConflict g row c1 c2 →
       (∀ r c, r < 9 → c < 9 →
          markedInvalid (updateValidation g) r c ↔ (r, c) = (row, c1) ∨ (r, c) = (row, c2))
       ∧ (∀ r c, r < 9 → c < 9 → (r, c) ≠ (row, c1) → (r, c) ≠ (row, c2) →
          markedValid (updateValidation g) r c)
       ∧ (∀ r c, r < 9 → c < 9 →
          markedValid (updateValidation (setValue g row c1 None)) r c)
       ∧ (∀ r c, r < 9 → c < 9 →
          markedValid (updateValidation (setValue g row c2 None)) r c)).
Proof.
  intros Hwf. split.
  - intros r c cell Hr Hc Hcell.
    destruct (updateValidation_flag g r c cell Hr Hc Hcell) as (cell' & H1 & H2 & H3 & H4 & _).
    eauto.
  - intros row c1 c2 (Hrow & Hc1 & Hc2 & Hne & (d & Hd1 & Hd2) & Honly).
    assert (Hpair : conflict g (row, c1) (row, c2)).
    { repeat split; simpl; try assumption; [congruence|left; reflexivity|eauto]. }
    assert (Hcleared : ∀ col r c, (col = c1 ∨ col = c2) → r < 9 → c < 9 →
              markedValid (updateValidation (setValue g row col None)) r c).
    { intros col r c Hcol Hr Hc. apply not_false_markedValid; try assumption.
      - apply wf9_setValue, Hwf.
      - intros q Hq. apply conflict_after_clear in Hq as (Hq & Hp' & Hq').
        destruct (Honly _ _ Hq) as [[E1 E2]|[E1 E2]], Hcol as [->| ->]; congruence. }
    split; [|split; [|split]].
    + intros r c Hr Hc. split.
      * intros (cell' & Hcell' & Hinv).
        destruct (cellAt_is_Some g r c Hwf Hr Hc) as [cell Hcell].
        destruct (updateValidation_flag g r c cell Hr Hc Hcell)
          as (cell2 & H2 & _ & _ & _ & Hf).
        rewrite Hcell' in H2. injection H2 as <-.
        destruct Hf as [Hf _]. destruct (Hf Hinv) as [q Hq].
        destruct (Honly _ _ Hq) as [[E _]|[E _]]; auto.
      * intros Hpos.
        destruct (cellAt_is_Some g r c Hwf Hr Hc) as [cell Hcell].
        destruct (updateValidation_flag g r c cell Hr Hc Hcell)
          as (cell2 & H2 & _ & _ & _ & Hf).
        exists cell2. split; [exact H2|]. apply Hf.
        destruct Hpos as [E|E]; rewrite E.
        -- exists (row, c2). exact Hpair.
        -- exists (row, c1). apply conflict_sym, Hpair.
    + intros r c Hr Hc Hn1 Hn2. apply not_false_markedValid; try assumption.
      intros q Hq. destruct (Honly _ _ Hq) as [[E _]|[E _]]; congruence.
    + intros r c. apply Hcleared. left; reflexivity.
    + intros r c. apply Hcleared. right; reflexivity.
Qed.

Lemma wf9_duplicateRow : wf9 duplicateRow.
Proof.
  split; [reflexivity|].
  intros row r H. assert (Hlt : row < 9) by (apply lookup_lt_Some in H; exact H).
  do 9 (destruct row as [|row]; [injection H as <-; reflexivity|]). lia.
Qed.

(** The grid [duplicateRow] satisfies the hypotheses of C2: its 7s at (0,0)
    and (0,1) are its only conflict. *)
Lemma updateValidation_correct_witness :
  wf9 duplicateRow ∧ onlyRowConflict duplicateRow 0 0 1
  ∧ (markedInvalid (updateValidation duplicateRow) 0 1
     ∧ markedValid (updateValidation duplicateRow) 4 4
     ∧ markedValid (updateValidation (setValue duplicateRow 0 0 None)) 0 1).
Proof.
  pose proof (updateValidation_correct duplicateRow wf9_duplicateRow) as [_ H].
  assert (Honly : onlyRowConflict duplicateRow 0 0 1)
    by (apply onlyRowConflictb_sound; vm_compute; reflexivity).
  destruct (H 0 0 1 Honly) as (H1 & H2 & H3 & _).
  split; [exact wf9_duplicateRow|]. split; [exact Honly|].
  split; [|split].
  - apply H1; [lia|lia|right; reflexivity].
  - apply H2; [lia|lia|discriminate|discriminate].
  - apply H3; lia.
Defined.

(** ** Value entry *)

Lemma noOtherHolds_setValue (g : list (list SudokuCell)) (row col : nat) (v : option nat) (d : nat) :
  noOtherHolds (valueAt (setValue g row col v)) row col d ↔ noOtherHolds (valueAt g) row col d.
Proof.
  assert (Hsame : ∀ r c, (r, c) ≠ (row, col) →
            valueAt (setValue g row col v) r c = valueAt g r c).
  { intros r c Hne. rewrite valueAt_setValue.
    destruct (Nat.eqb_spec r row) as [E1|_], (Nat.eqb_spec c col) as [E2|_];
      simpl; try reflexivity. congruence. }
  unfold noOtherHolds. split; intros H r c Hr Hc Hne Hp.
  - rewrite <- Hsame by assumption. apply H; assumption.
  - rewrite Hsame by assumption. apply H; assumption.
Qed.

Lemma isValidMove_setValue (g : list (list SudokuCell)) (row col : nat) (v : option nat) (d : nat) :
  row < 9 → col < 9 →
  isValidMove (setValue g row col v) row col d = isValidMove g row col d.
Proof.
  intros Hrow Hcol. apply eq_true_iff_eq.
  rewrite !isValidMove_spec by assumption. apply noOtherHolds_setValue.
Qed.

(** The selected cell after the edit and the revalidation. *)
Lemma cellAt_validated_selected (g : list (list SudokuCell)) (row col : nat)
    (v : option nat) (cell : SudokuCell) :
  cellAt g row col = Some cell →
  cellAt (updateValidation (setValue g row col v)) row col =
  Some {| value := v; isFixed := isFixed cell;
          isValid := match v with
                     | None => true
                     | Some d => isValidMove (setValue g row col v) row col d
                     end |}.
Proof.
  intros H. rewrite cellAt_updateValidation, cellAt_setValue, H. simpl.
  rewrite !Nat.eqb_refl. reflexivity.
Qed.

(** C3. With a non-fixed cell selected on a 9x9 grid, [handleNumberInput]:
    given the digit the cell already holds, empties the cell, keeps the lives
    and signals neither outcome; given another digit that some other cell of
    the row, column or box holds, places it, marks the cell invalid, sets the
    lives to [max 0 (lives - 1)] and signals Invalid; given another digit
    that no such cell holds, places it, marks the cell valid, keeps the lives
    and signals Placed. *)
Theorem input_life_accounting (s : Session) (row col : nat) (current : SudokuCell) (num : nat) :
  wf9 (grid s) → row < 9 → col < 9 → editable s row col current →
  let s' := (handleNumberInput num s).1 in
  let sounds := (handleNumberInput num s).2 in
  (value current = Some num →
     valueAt (grid s') row col = None ∧ lives s' = lives s
     ∧ outcomeOf sounds = NoOutcome)
  ∧ (value current ≠ Some num →
     (∃ r c, r < 9 ∧ c < 9 ∧ (r, c) ≠ (row, col) ∧ peer row col r c
             ∧ valueAt (grid s) r c = Some num) →
     valueAt (grid s') row col = Some num ∧ markedInvalid (grid s') row col
     ∧ lives s' = Z.max 0 (lives s - 1) ∧ outcomeOf sounds = Invalid)
  ∧ (value current ≠ Some num →
     noOtherHolds (valueAt (grid s)) row col num →
     valueAt (grid s') row col = Some num ∧ markedValid (grid s') row col
     ∧ lives s' = lives s ∧ outcomeOf sounds = Placed).
Proof.
  intros Hwf Hrow Hcol (Hsel & Hcell & Hfix). cbv zeta.
  unfold handleNumberInput. rewrite Hsel, Hcell, Hfix. cbv zeta.
  split; [|split].
  - intros Hsame. assert (Eh : holds (value current) num = true) by (apply holds_true, Hsame).
    rewrite Eh. simpl.
    unfold valueAt. rewrite (cellAt_validated_selected _ _ _ _ _ Hcell). simpl.
    split; [reflexivity|]. split; [reflexivity|].
    destruct (isFull _ && allValid _); reflexivity.
  - intros Hdiff (r & c & Hr & Hc & Hne & Hp & Hv).
    assert (Eh : holds (value current) num = false) by (apply holds_false, Hdiff).
    rewrite Eh. simpl.
    rewrite (cellAt_validated_selected _ _ _ _ _ Hcell).
    rewrite isValidMove_setValue by assumption.
    assert (Ev : isValidMove (grid s) row col num = false).
    { destruct (isValidMove (grid s) row col num) eqn:E; [|reflexivity].
      apply isValidMove_spec in E; try assumption.
      destruct (E r c Hr Hc Hne Hp Hv). }
    rewrite Ev. simpl.
    split; [|split; [|split]].
    + unfold valueAt. rewrite (cellAt_validated_selected _ _ _ _ _ Hcell). reflexivity.
    + eexists. rewrite (cellAt_validated_selected _ _ _ _ _ Hcell).
      split; [reflexivity|]. simpl. rewrite isValidMove_setValue by assumption. exact Ev.
    + reflexivity.
    + reflexivity.
  - intros Hdiff Hno.
    assert (Eh : holds (value current) num = false) by (apply holds_false, Hdiff).
    rewrite Eh. simpl.
    rewrite (cellAt_validated_selected _ _ _ _ _ Hcell).
    rewrite isValidMove_setValue by assumption.
    assert (Ev : isValidMove (grid s) row col num = true)
      by (apply isValidMove_spec; assumption).
    rewrite Ev. simpl.
    split; [|split; [|split]].
    + unfold valueAt. rewrite (cellAt_validated_selected _ _ _ _ _ Hcell). reflexivity.
    + eexists. rewrite (cellAt_validated_selected _ _ _ _ _ Hcell).
      split; [reflexivity|]. simpl. rewrite isValidMove_setValue by assumption. exact Ev.
    + reflexivity.
    + destruct (isFull _ && allValid _); reflexivity.
Qed.

Lemma wf9b_sound {A} (g : list (list A)) : wf9b g = true → wf9 g.
Proof.
  unfold wf9b, wf9. rewrite andb_true_iff, Nat.eqb_eq, forallb_forall.
  intros [Hlen Hrows]. split; [exact Hlen|].
  intros row r Hr. apply Nat.eqb_eq, Hrows, list_elem_of_In, list_elem_of_lookup. eauto.
Qed.

(** The scenario of the specification: a 7 entered next to the fixed 7. *)
Lemma input_life_accounting_witness :
  wf9 (grid scenario)
  ∧ editable scenario 0 1 {| value := None; isFixed := false; isValid := true |}
  ∧ markedInvalid (grid (handleNumberInput 7 scenario).1) 0 1
  ∧ lives (handleNumberInput 7 scenario).1 = 2%Z
  ∧ outcomeOf (handleNumberInput 7 scenario).2 = Invalid.
Proof.
  assert (Hwf : wf9 (grid scenario)) by (apply wf9b_sound; vm_compute; reflexivity).
  assert (Hed : editable scenario 0 1 {| value := None; isFixed := false; isValid := true |}).
  { repeat split; reflexivity. }
  split; [exact Hwf|]. split; [exact Hed|].
  destruct (input_life_accounting scenario 0 1 _ 7 Hwf ltac:(lia) ltac:(lia) Hed)
    as (_ & Hbad & _).
  destruct Hbad as (_ & Hinv & Hlives & Hout).
  - discriminate.
  - exists 0, 0. repeat split; [lia|lia|discriminate|left; reflexivity].
  - split; [exact Hinv|]. split; [exact Hlives|exact Hout].
Defined.

(** ** Undoing *)

(** C6. [handleUndo] on a history of exactly one entry returns the session
    unchanged and plays nothing.  On a longer history it drops the last
    snapshot, takes the grid and the selection of the new last snapshot,
    sets [isComplete] to false and leaves the rest of the session alone. *)
Theorem undo_behaviour (s : Session) :
  (length (moveHistory s) = 1 → handleUndo s = (s, []))
  ∧ (1 < length (moveHistory s) →
     let s' := (handleUndo s).1 in
     ∃ popped top,
       moveHistory s = moveHistory s' ++ [popped]
       ∧ last (moveHistory s') = Some top
       ∧ grid s' = h_grid top
       ∧ selectedCell s' = h_selectedCell top
       ∧ isComplete s' = false
       ∧ lives s' = lives s ∧ currentPuzzle s' = currentPuzzle s).
Proof.
  split.
  - intros H. unfold handleUndo. rewrite H. reflexivity.
  - intros H. cbv zeta. unfold handleUndo.
    destruct (Nat.leb_spec (length (moveHistory s)) 1) as [Hle|_]; [lia|].
    destruct (moveHistory s) as [|h hs] eqn:Eh using rev_ind; [simpl in H; lia|].
    clear IHhs. rewrite length_app in *. simpl in *.
    replace (length hs + 1 - 1) with (length hs) by lia.
    rewrite take_app_length.
    destruct (last hs) as [top|] eqn:El.
    + simpl. exists h, top. rewrite El. repeat split; reflexivity.
    + apply last_None in El. subst hs. simpl in H. lia.
Qed.

Lemma undo_behaviour_witness :
  length (moveHistory scenario) = 1
  ∧ handleUndo scenario = (scenario, [])
  ∧ 1 < length (moveHistory (handleNumberInput 7 scenario).1)
  ∧ grid (handleUndo (handleNumberInput 7 scenario).1).1 = grid scenario
  ∧ isComplete (handleUndo (handleNumberInput 7 scenario).1).1 = false.
Proof.
  destruct (undo_behaviour scenario) as [H1 _].
  destruct (undo_behaviour (handleNumberInput 7 scenario).1) as [_ H2].
  assert (Hlen : 1 < length (moveHistory (handleNumberInput 7 scenario).1))
    by (vm_compute; lia).
  destruct (H2 Hlen) as (popped & top & _ & Htop & Hgrid & _ & Hdone & _).
  split; [reflexivity|]. split; [apply H1; reflexivity|]. split; [exact Hlen|].
  split; [|exact Hdone].
  rewrite Hgrid. vm_compute in Htop. injection Htop as <-. reflexivity.
Defined.

(** ** Completion *)

Lemma forallb_everyCell (f : SudokuCell → bool) (g : list (list SudokuCell)) :
  forallb (forallb f) g = true ↔ everyCell (λ cell, f cell = true) g.
Proof.
  unfold everyCell, cellAt. rewrite forallb_forall. split.
  - intros H r c cell Hcell. destruct (g !! r) as [row|] eqn:Er; [|discriminate].
    assert (Hrow : forallb f row = true).
    { apply H, list_elem_of_In, list_elem_of_lookup. eauto. }
    rewrite forallb_forall in Hrow.
    apply Hrow, list_elem_of_In, list_elem_of_lookup. eauto.
  - intros H row Hrow. apply list_elem_of_In, list_elem_of_lookup in Hrow as [r Hr].
    apply forallb_forall. intros cell Hcell.
    apply list_elem_of_In, list_elem_of_lookup in Hcell as [c Hc].
    apply (H r c). rewrite Hr. exact Hc.
Qed.

Lemma isFull_spec (g : list (list SudokuCell)) :
  isFull g = true ↔ everyCell (λ cell, value cell ≠ None) g.
Proof.
  unfold isFull. rewrite forallb_everyCell. unfold everyCell.
  split; intros H r c cell Hcell; specialize (H r c cell Hcell).
  - destruct (value cell); [discriminate|discriminate H].
  - destruct (value cell); [reflexivity|congruence].
Qed.

Lemma allValid_spec (g : list (list SudokuCell)) :
  allValid g = true ↔ everyCell (λ cell, isValid cell = true) g.
Proof. apply forallb_everyCell. Qed.

(** An editing [handleNumberInput] sets [isComplete], and plays the success
    sound, exactly when the resulting grid is completed. *)
Lemma handleNumberInput_completion (s : Session) (num : nat)
    (row col : nat) (current : SudokuCell) :
  editable s row col current →
  let s' := (handleNumberInput num s).1 in
  (In SuccessSound (handleNumberInput num s).2 ↔ completed (grid s'))
  ∧ (completed (grid s') → isComplete s' = true)
  ∧ (¬ completed (grid s') → isComplete s' = isComplete s).
Proof.
  intros (Hsel & Hcell & Hfix). cbv zeta. unfold completed.
  unfold handleNumberInput. rewrite Hsel, Hcell, Hfix. cbv zeta.
  set (newValue := if holds (value current) num then None else Some num).
  set (validated := updateValidation (setValue (grid s) row col newValue)).
  simpl. rewrite <- isFull_spec, <- allValid_spec, <- andb_true_iff.
  destruct (isFull validated && allValid validated) eqn:E.
  - split; [|split].
    + split; [reflexivity|]. intros _. apply in_or_app. right. left. reflexivity.
    + reflexivity.
    + intros H. destruct H. reflexivity.
  - split; [|split].
    + split; [|discriminate]. intros H. apply in_app_or in H as [H|H]; [|destruct H].
      destruct (negb (isNull newValue) && _); [destruct H as [H|[]]; discriminate|].
      destruct (negb (isNull newValue)); [destruct H as [H|[]]; discriminate|destruct H].
    + discriminate.
    + reflexivity.
Qed.

Lemma handleNumberInput_keeps_complete (s : Session) (num : nat) :
  isComplete s = true → isComplete (handleNumberInput num s).1 = true.
Proof.
  intros Hdone. unfold handleNumberInput.
  destruct (selectedCell s) as [[row col]|]; [|exact Hdone].
  destruct (cellAt (grid s) row col) as [current|]; [|exact Hdone].
  destruct (isFixed current); [exact Hdone|]. cbv zeta. simpl.
  rewrite Hdone. destruct (isFull _ && allValid _); reflexivity.
Qed.

Lemma handleCellClick_isComplete (s : Session) (row col : nat) :
  isComplete (handleCellClick row col s).1 = isComplete s.
Proof. unfold handleCellClick. destruct (cellAt (grid s) row col); reflexivity. Qed.

Lemma handleClear_isComplete (s : Session) (row col : nat) (current : SudokuCell) :
  editable s row col current → isComplete (handleClear s).1 = false.
Proof.
  intros (Hsel & Hcell & Hfix). unfold handleClear. rewrite Hsel, Hcell, Hfix. reflexivity.
Qed.

Lemma handleUndo_isComplete (s : Session) :
  1 < length (moveHistory s) → isComplete (handleUndo s).1 = false.
Proof.
  intros Hlen. unfold handleUndo.
  destruct (Nat.leb_spec (length (moveHistory s)) 1) as [Hle|_]; [lia|].
  destruct (last _) as [top|] eqn:El; [reflexivity|].
  apply last_None in El. apply (f_equal length) in El.
  rewrite length_take in El. simpl in El. lia.
Qed.

Lemma handleNewPuzzle_isComplete (rng : Rng) (s s' : Session) (sounds : list Sound) (rng' : Rng) :
  handleNewPuzzle rng s = Some (s', sounds, rng') → isComplete s' = false.
Proof.
  unfold handleNewPuzzle.
  destruct (generateRandomSudoku rng) as [[puzzle rng1]|]; [|discriminate].
  intros [= <- _ _]. reflexivity.
Qed.

(** ** Fixed cells *)

Lemma keepsFixed_refl (g : list (list SudokuCell)) : keepsFixed g g.
Proof. intros r c cell0 H. exists cell0. auto. Qed.

Lemma keepsFixed_edit (g0 g : list (list SudokuCell)) (row col : nat)
    (v : option nat) (current : SudokuCell) :
  keepsFixed g0 g → cellAt g row col = Some current → isFixed current = false →
  keepsFixed g0 (updateValidation (setValue g row col v)).
Proof.
  intros Hk Hcur Hfix r c cell0 H0.
  destruct (Hk r c cell0 H0) as (cell & Hcell & Hf & Hv).
  rewrite cellAt_updateValidation, cellAt_setValue, Hcell. simpl.
  eexists. split; [reflexivity|].
  destruct (Nat.eqb_spec r row) as [E1|_], (Nat.eqb_spec c col) as [E2|_]; simpl; auto.
  subst r c. rewrite Hcur in Hcell. injection Hcell as <-.
  split; [exact Hf|]. intros Ht. congruence.
Qed.

Lemma fixedInv_applyOp (g0 : list (list SudokuCell)) (s : Session) (op : Op) :
  fixedInv g0 s → fixedInv g0 (applyOp s op).
Proof.
  intros [Hg Hh]. destruct op as [row col|num| |]; simpl.
  - unfold handleCellClick. destruct (cellAt (grid s) row col); split; assumption.
  - unfold handleNumberInput.
    destruct (selectedCell s) as [[row col]|]; [|split; assumption].
    destruct (cellAt (grid s) row col) as [current|] eqn:Ec; [|split; assumption].
    destruct (isFixed current) eqn:Ef; [split; assumption|]. cbv zeta. simpl.
    assert (Hnew := keepsFixed_edit g0 (grid s) row col
                      (if holds (value current) num then None else Some num)
                      current Hg Ec Ef).
    split; [exact Hnew|].
    intros h Hin. apply elem_of_app in Hin as [Hin|Hin]; [auto|].
    apply list_elem_of_singleton in Hin. subst h. exact Hnew.
  - unfold handleClear.
    destruct (selectedCell s) as [[row col]|]; [|split; assumption].
    destruct (cellAt (grid s) row col) as [current|] eqn:Ec; [|split; assumption].
    destruct (isFixed current) eqn:Ef; [split; assumption|]. cbv zeta. simpl.
    assert (Hnew := keepsFixed_edit g0 (grid s) row col None current Hg Ec Ef).
    split; [exact Hnew|].
    intros h Hin. apply elem_of_app in Hin as [Hin|Hin]; [auto|].
    apply list_elem_of_singleton in Hin. subst h. exact Hnew.
  - unfold handleUndo. destruct (length (moveHistory s) <=? 1); [split; assumption|].
    cbv zeta. destruct (last _) as [top|] eqn:El; [|split; assumption]. simpl.
    assert (Hsub : ∀ h, h ∈ take (length (moveHistory s) - 1) (moveHistory s) →
                     h ∈ moveHistory s).
    { intros h Hin. apply list_elem_of_lookup in Hin as [i Hi].
      apply lookup_take_Some in Hi as [Hi _]. apply list_elem_of_lookup. eauto. }
    split.
    + apply Hh, Hsub, last_Some_elem_of, El.
    + intros h Hin. apply Hh, Hsub, Hin.
Qed.

Lemma fixedInv_run (g0 : list (list SudokuCell)) (ops : list Op) (s : Session) :
  fixedInv g0 s → fixedInv g0 (run ops s).
Proof.
  revert s. induction ops as [|op ops IH]; intros s H; [exact H|].
  apply (IH (applyOp s op)), fixedInv_applyOp, H.
Qed.

(** C5. In a session created from a 9x9 seed, whatever sequence of select,
    input, clear and undo operations is applied, every cell created fixed is
    still fixed and still holds its original value. *)
Theorem fixed_cells_immutable (seed : SudokuGrid) (ops : list Op)
    (r c : nat) (cell0 : SudokuCell) :
  wf9 seed →
  cellAt (grid (createSession seed)) r c = Some cell0 → isFixed cell0 = true →
  ∃ cell, cellAt (grid (run ops (createSession seed))) r c = Some cell
    ∧ value cell = value cell0 ∧ isFixed cell = true.
Proof.
  intros _ H0 Hfix.
  assert (Hinit : fixedInv (annotate seed) (createSession seed)).
  { split; [apply keepsFixed_refl|]. simpl. intros h Hin.
    apply list_elem_of_singleton in Hin. subst h. apply keepsFixed_refl. }
  destruct (fixedInv_run _ ops _ Hinit) as [Hg _].
  destruct (Hg r c cell0 H0) as (cell & Hcell & Hf & Hv).
  exists cell. split; [exact Hcell|]. split; [auto|congruence].
Qed.

(** The fixed 7 of [scenarioPuzzle] survives an attempt to overwrite it, a
    conflicting entry next to it, a clear and two undos. *)
Lemma fixed_cells_immutable_witness :
  wf9 scenarioPuzzle
  ∧ ∃ cell,
      cellAt (grid (run [OpSelect 0 0; OpInput 3; OpSelect 0 1; OpInput 7; OpClear; OpUndo; OpUndo]
                        (createSession scenarioPuzzle))) 0 0 = Some cell
      ∧ value cell = Some 7 ∧ isFixed cell = true.
Proof.
  assert (Hwf : wf9 scenarioPuzzle) by (apply wf9b_sound; vm_compute; reflexivity).
  split; [exact Hwf|].
  apply (fixed_cells_immutable scenarioPuzzle _ 0 0
           {| value := Some 7; isFixed := true; isValid := true |} Hwf);
    reflexivity.
Defined.

(** ** History *)

Lemma historyInv_applyOp (s : Session) (op : Op) : historyInv s → historyInv (applyOp s op).
Proof.
  intros (top & Htop & Hg). destruct op as [row col|num| |]; simpl.
  - unfold handleCellClick. destruct (cellAt (grid s) row col); exists top; auto.
  - unfold handleNumberInput.
    destruct (selectedCell s) as [[row col]|]; [|exists top; auto].
    destruct (cellAt (grid s) row col) as [current|]; [|exists top; auto].
    destruct (isFixed current); [exists top; auto|]. cbv zeta.
    unfold historyInv. simpl. eexists. rewrite last_snoc. split; reflexivity.
  - unfold handleClear.
    destruct (selectedCell s) as [[row col]|]; [|exists top; auto].
    destruct (cellAt (grid s) row col) as [current|]; [|exists top; auto].
    destruct (isFixed current); [exists top; auto|]. cbv zeta.
    unfold historyInv. simpl. eexists. rewrite last_snoc. split; reflexivity.
  - unfold handleUndo. destruct (length (moveHistory s) <=? 1); [exists top; auto|].
    cbv zeta.
    destruct (last (take (length (moveHistory s) - 1) (moveHistory s)))
      as [prev|] eqn:El; [|exists top; auto].
    exists prev. simpl. split; [exact El|reflexivity].
Qed.

Lemma historyInv_run (ops : list Op) (s : Session) : historyInv s → historyInv (run ops s).
Proof.
  revert s. induction ops as [|op ops IH]; intros s H; [exact H|].
  apply (IH (applyOp s op)), historyInv_applyOp, H.
Qed.

(** An input, clear or undo that changes the history saves the selection. *)
Lemma selectionSaved_after (s : Session) (op : Op) :
  (∀ row col, op ≠ OpSelect row col) →
  moveHistory (applyOp s op) ≠ moveHistory s → selectionSaved (applyOp s op).
Proof.
  intros Hop. destruct op as [row col|num| |]; simpl.
  - destruct (Hop row col eq_refl).
  - unfold handleNumberInput.
    destruct (selectedCell s) as [[row col]|] eqn:Es; [|intros []; reflexivity].
    destruct (cellAt (grid s) row col) as [current|]; [|intros []; reflexivity].
    destruct (isFixed current); [intros []; reflexivity|]. cbv zeta. intros _.
    unfold selectionSaved. simpl. eexists. rewrite last_snoc.
    split; reflexivity.
  - unfold handleClear.
    destruct (selectedCell s) as [[row col]|] eqn:Es; [|intros []; reflexivity].
    destruct (cellAt (grid s) row col) as [current|]; [|intros []; reflexivity].
    destruct (isFixed current); [intros []; reflexivity|]. cbv zeta. intros _.
    unfold selectionSaved. simpl. eexists. rewrite last_snoc.
    split; reflexivity.
  - unfold handleUndo. destruct (length (moveHistory s) <=? 1); [intros []; reflexivity|].
    cbv zeta. destruct (last _) as [prev|] eqn:El; [|intros []; reflexivity].
    intros _. exists prev. simpl. split; [exact El|reflexivity].
Qed.

(** C7, as stated, fails: a click on a non-fixed cell changes the selection
    without pushing a snapshot, so the last snapshot still holds the old
    selection. *)
Lemma history_selection_counterexample :
  let s := run [OpSelect 0 1] (createSession scenarioPuzzle) in
  wf9 scenarioPuzzle
  ∧ ¬ ∃ top, last (moveHistory s) = Some top
        ∧ h_grid top = grid s ∧ h_selectedCell top = selectedCell s.
Proof.
  cbv zeta. split; [apply wf9b_sound; vm_compute; reflexivity|].
  intros (top & Htop & _ & Hsel).
  vm_compute in Htop. injection Htop as <-. vm_compute in Hsel. discriminate.
Qed.

(** C7, amended. In every state reached from a session created from a 9x9
    seed by select, input, clear and undo operations, the history is
    non-empty and the grid of its last snapshot is the current grid.  The
    selection of the last snapshot is the current selection at creation and
    right after every input, clear or undo that changes the history. *)
Theorem history_tracks_grid (seed : SudokuGrid) (ops : list Op) :
  wf9 seed →
  let s := run ops (createSession seed) in
  moveHistory s ≠ []
  ∧ historyInv s
  ∧ selectionSaved (createSession seed)
  ∧ ∀ op, (∀ row col, op ≠ OpSelect row col) →
      moveHistory (applyOp s op) ≠ moveHistory s → selectionSaved (applyOp s op).
Proof.
  intros _. cbv zeta.
  assert (Hinit : historyInv (createSession seed)).
  { eexists. split; reflexivity. }
  pose proof (historyInv_run ops _ Hinit) as Hinv.
  split; [|split; [exact Hinv|split]].
  - destruct Hinv as (top & Htop & _). intros E. rewrite E in Htop. discriminate.
  - eexists. split; reflexivity.
  - intros op. apply selectionSaved_after.
Qed.

Lemma history_tracks_grid_witness :
  wf9 scenarioPuzzle
  ∧ historyInv (run [OpSelect 0 1; OpInput 7] (createSession scenarioPuzzle))
  ∧ selectionSaved (applyOp (run [OpSelect 0 1] (createSession scenarioPuzzle)) (OpInput 7)).
Proof.
  assert (Hwf : wf9 scenarioPuzzle) by (apply wf9b_sound; vm_compute; reflexivity).
  split; [exact Hwf|]. split.
  - apply (history_tracks_grid scenarioPuzzle [OpSelect 0 1; OpInput 7] Hwf).
  - apply (history_tracks_grid scenarioPuzzle [OpSelect 0 1] Hwf).
    + intros row col. discriminate.
    + vm_compute. discriminate.
Defined.

(** ** Entry after completion or failure *)

Lemma editable_or_not (s : Session) :
  notEditable s ∨ ∃ row col current, editable s row col current.
Proof.
  unfold notEditable, editable.
  destruct (selectedCell s) as [[row col]|] eqn:Es; [|left; left; reflexivity].
  destruct (cellAt (grid s) row col) as [current|] eqn:Ec.
  - destruct (isFixed current) eqn:Ef.
    + left. right. exists row, col. split; [reflexivity|]. right. eauto.
    + right. exists row, col, current. auto.
  - left. right. exists row, col. auto.
Qed.

Lemma handleNumberInput_notEditable (num : nat) (s : Session) :
  notEditable s → handleNumberInput num s = (s, []).
Proof.
  unfold handleNumberInput.
  intros [H|(row & col & H & [Hc|(cell & Hc & Hf)])]; rewrite H; try reflexivity.
  - rewrite Hc. reflexivity.
  - rewrite Hc, Hf. reflexivity.
Qed.

Lemma handleNumberInput_values (num : nat) (s : Session) (row col : nat) (current : SudokuCell) :
  editable s row col current →
  let s' := (handleNumberInput num s).1 in
  valueAt (grid s') row col = (if holds (value current) num then None else Some num)
  ∧ valueAt (grid s') row col ≠ valueAt (grid s) row col
  ∧ ∀ r c, (r, c) ≠ (row, col) → valueAt (grid s') r c = valueAt (grid s) r c.
Proof.
  intros (Hsel & Hcell & Hfix). cbv zeta.
  unfold handleNumberInput. rewrite Hsel, Hcell, Hfix. cbv zeta. simpl.
  assert (Hnew : valueAt (updateValidation (setValue (grid s) row col
                    (if holds (value current) num then None else Some num))) row col
                 = if holds (value current) num then None else Some num).
  { unfold valueAt. rewrite (cellAt_validated_selected _ _ _ _ _ Hcell). reflexivity. }
  split; [exact Hnew|]. split.
  - rewrite Hnew. unfold valueAt at 1. rewrite Hcell.
    destruct (holds (value current) num) eqn:Eh.
    + apply holds_true in Eh. rewrite Eh. discriminate.
    + apply holds_false in Eh. congruence.
  - intros r c Hne. rewrite valueAt_updateValidation, valueAt_setValue.
    destruct (Nat.eqb_spec r row) as [E1|_], (Nat.eqb_spec c col) as [E2|_];
      simpl; try reflexivity. congruence.
Qed.

(** C8, as stated, fails: in the completed session [solvedSession] the
    selected cell holds 1, and entering 5 overwrites it. *)
Lemma entry_blocked_counterexample :
  ¬ ((isComplete solvedSession = true ∨ lives solvedSession = 0%Z) →
     ∀ r c, valueAt (grid (handleNumberInput 5 solvedSession).1) r c
            = valueAt (grid solvedSession) r c).
Proof.
  intros H. specialize (H (or_introl eq_refl) 0 0). vm_compute in H. discriminate.
Qed.

(** With no life left, a digit key still reaches [handleNumberInput]: the
    guard of the number buttons is not repeated on the keyboard path. *)
Example keypress_at_zero_lives :
  lives outOfLives = 0%Z
  ∧ valueAt (grid outOfLives) 0 1 = Some 7
  ∧ valueAt (grid (handleKeyPress (Some 7) outOfLives).1) 0 1 = None
  ∧ clickNumber 7 outOfLives = (outOfLives, []).
Proof. vm_compute. auto. Qed.

(** C8, amended. [isComplete] does not block value entry: in a completed
    session with lives left, [handleNumberInput] leaves every value
    unchanged exactly when no cell is selected or the selected cell is fixed;
    otherwise it toggles the value of the selected cell, which changes, and
    keeps every other value.  With no life left the number buttons are
    disabled: a click on one leaves the session unchanged. *)
Theorem entry_after_completion (s : Session) (num : nat) :
  (isComplete s = true → (0 < lives s)%Z →
     let s' := (handleNumberInput num s).1 in
     ((∀ r c, valueAt (grid s') r c = valueAt (grid s) r c) ↔ notEditable s)
     ∧ ∀ row col current, editable s row col current →
         valueAt (grid s') row col = (if holds (value current) num then None else Some num)
         ∧ valueAt (grid s') row col ≠ valueAt (grid s) row col
         ∧ ∀ r c, (r, c) ≠ (row, col) → valueAt (grid s') r c = valueAt (grid s) r c)
  ∧ (lives s = 0%Z → clickNumber num s = (s, [])).
Proof.
  split.
  - intros _ _. cbv zeta. split.
    + split.
      * intros Hsame. destruct (editable_or_not s) as [H|(row & col & current & H)];
          [exact H|].
        destruct (handleNumberInput_values num s row col current H) as (_ & Hne & _).
        destruct (Hne (Hsame row col)).
      * intros H r c. rewrite (handleNumberInput_notEditable num s H). reflexivity.
    + intros row col current H. apply handleNumberInput_values, H.
  - intros H0. unfold clickNumber, inputDisabled.
    destruct (selectedCell s) as [[row col]|]; [|reflexivity].
    destruct (cellAt (grid s) row col) as [cell|]; [|reflexivity].
    rewrite H0. simpl. rewrite orb_true_r. reflexivity.
Qed.

Lemma entry_after_completion_witness :
  isComplete solvedSession = true ∧ (0 < lives solvedSession)%Z
  ∧ editable solvedSession 0 0 {| value := Some 1; isFixed := false; isValid := true |}
  ∧ valueAt (grid (handleNumberInput 1 solvedSession).1) 0 0 = None
  ∧ lives outOfLives = 0%Z
  ∧ clickNumber 7 outOfLives = (outOfLives, []).
Proof.
  assert (Hc : isComplete solvedSession = true) by reflexivity.
  assert (Hl : (0 < lives solvedSession)%Z) by reflexivity.
  assert (Hed : editable solvedSession 0 0
                  {| value := Some 1; isFixed := false; isValid := true |}).
  { repeat split; reflexivity. }
  assert (H0 : lives outOfLives = 0%Z) by reflexivity.
  destruct (entry_after_completion solvedSession 1) as [H _].
  destruct (H Hc Hl) as [_ Hv]. destruct (Hv 0 0 _ Hed) as (Hnew & _).
  destruct (entry_after_completion outOfLives 7) as [_ Hbtn].
  split; [exact Hc|]. split; [exact Hl|]. split; [exact Hed|].
  split; [exact Hnew|]. split; [exact H0|exact (Hbtn H0)].
Defined.

(** ** Shuffling *)

Lemma swap_Permutation {A} (array : list A) (i j : nat) : swap array i j ≡ₚ array.
Proof.
  unfold swap.
  destruct (array !! i) as [x|] eqn:Ei; [|reflexivity].
  destruct (array !! j) as [y|] eqn:Ej; [|reflexivity].
  pose proof (lookup_lt_Some _ _ _ Ei) as Hi.
  pose proof (lookup_lt_Some _ _ _ Ej) as Hj.
  apply Permutation_inj. split; [rewrite !length_insert; reflexivity|].
  exists (λ k, if decide (k = i) then j else if decide (k = j) then i else k).
  split.
  - intros a b. repeat case_decide; intros; subst; congruence.
  - intros k. rewrite !list_lookup_insert, length_insert.
    repeat case_decide; destruct_and?; subst; congruence || lia.
Qed.

Lemma shuffleFrom_Permutation {A} (i : nat) (array : list A) (rng : Rng) :
  (shuffleFrom i array rng).1 ≡ₚ array.
Proof.
  revert array rng. induction i as [|i IH]; intros array rng; simpl; [reflexivity|].
  rewrite IH. apply swap_Permutation.
Qed.

Lemma shuffleArray_Permutation {A} (array : list A) (rng : Rng) :
  (shuffleArray array rng).1 ≡ₚ array.
Proof. apply shuffleFrom_Permutation. Qed.

(** ** Reading and writing raw grids *)

Lemma wf9_setRaw (g : SudokuGrid) (row col : nat) (v : option nat) :
  wf9 g → wf9 (setRaw g row col v).
Proof.
  intros [Hlen Hrows]. unfold setRaw. split.
  - rewrite length_alter. exact Hlen.
  - intros r rw. rewrite list_lookup_alter. case_decide.
    + subst r. destruct (g !! row) as [rw0|] eqn:E; [|discriminate].
      simpl. intros [= <-]. rewrite length_insert. eauto.
    + eauto.
Qed.

Lemma rawAt_setRaw (g : SudokuGrid) (row col : nat) (v : option nat) (r c : nat) :
  wf9 g → row < 9 → col < 9 →
  rawAt (setRaw g row col v) r c =
  if decide (r = row ∧ c = col) then v else rawAt g r c.
Proof.
  intros Hwf Hrow Hcol. unfold rawAt, setRaw. rewrite list_lookup_alter.
  destruct (cellAt_wf9 g row col Hwf Hrow Hcol) as (rw & x & Hrw & Hx).
  pose proof (lookup_lt_Some _ _ _ Hx) as Hlt.
  destruct (decide (row = r)) as [<-|Hne].
  - rewrite Hrw. simpl. rewrite list_lookup_insert.
    repeat case_decide; try reflexivity; lia.
  - case_decide as H; [|reflexivity]. destruct H as [-> _]. congruence.
Qed.

Lemma rawAt_setRaw_same (g : SudokuGrid) (row col : nat) (v : option nat) :
  wf9 g → row < 9 → col < 9 → rawAt (setRaw g row col v) row col = v.
Proof.
  intros Hwf Hrow Hcol. rewrite rawAt_setRaw by assumption.
  case_decide as E; [reflexivity|]. destruct E. split; reflexivity.
Qed.

Lemma rawAt_setRaw_other (g : SudokuGrid) (row col : nat) (v : option nat) (r c : nat) :
  wf9 g → row < 9 → col < 9 → (r, c) ≠ (row, col) →
  rawAt (setRaw g row col v) r c = rawAt g r c.
Proof.
  intros Hwf Hrow Hcol Hne. rewrite rawAt_setRaw by assumption.
  case_decide as E; [|reflexivity]. destruct E as [-> ->]. congruence.
Qed.

(** Placing a digit in an empty cell and taking it back restores the grid. *)
Lemma setRaw_undo (g : SudokuGrid) (row col : nat) (v : option nat) :
  rawAt g row col = None → wf9 g → row < 9 → col < 9 →
  setRaw (setRaw g row col v) row col None = g.
Proof.
  intros Hnone Hwf Hrow Hcol. unfold setRaw.
  destruct (cellAt_wf9 g row col Hwf Hrow Hcol) as (rw & x & Hrw & Hx).
  unfold rawAt in Hnone. rewrite Hrw, Hx in Hnone. subst x.
  apply list_eq. intros i. destruct (decide (row = i)) as [<-|Hne].
  - rewrite !list_lookup_alter_eq, Hrw. simpl.
    rewrite list_insert_insert_eq, (list_insert_id _ _ _ Hx). reflexivity.
  - rewrite !list_lookup_alter_ne by assumption. reflexivity.
Qed.

(** ** Scanning for an empty cell *)

Lemma findEmpty_Some (g : SudokuGrid) (row col : nat) :
  findEmpty g = Some (row, col) → row < 9 ∧ col < 9 ∧ rawAt g row col = None.
Proof.
  unfold findEmpty. intros H. apply find_some in H as [Hin Hnull].
  apply In_allCells in Hin. simpl in *.
  destruct (rawAt g row col); [discriminate|]. tauto.
Qed.

Lemma findEmpty_None (g : SudokuGrid) : findEmpty g = None → full g.
Proof.
  unfold findEmpty. intros H r c Hr Hc E.
  pose proof (find_none _ _ H (r, c) (proj2 (In_allCells (r, c)) (conj Hr Hc))) as Hn.
  simpl in Hn. rewrite E in Hn. discriminate.
Qed.

(** ** Placing and removing digits *)

Lemma peer_sym (r c r' c' : nat) : peer r c r' c' → peer r' c' r c.
Proof.
  intros [H|[H|[H1 H2]]]; [left|right; left|right; right; split]; congruence.
Qed.

Lemma consistent_place (g : SudokuGrid) (row col d : nat) :
  wf9 g → row < 9 → col < 9 → consistent g →
  isValidPlacement g row col d = true →
  consistent (setRaw g row col (Some d)).
Proof.
  intros Hwf Hrow Hcol Hcons Hok.
  apply isValidPlacement_spec in Hok as [_ Hno]; try assumption.
  intros r c r' c' d' Hr Hc Hr' Hc' Hne Hpeer.
  rewrite !rawAt_setRaw by assumption.
  destruct (decide (r = row ∧ c = col)) as [[-> ->]|H1],
           (decide (r' = row ∧ c' = col)) as [[-> ->]|H2].
  - congruence.
  - intros [= <-]. apply Hno; assumption.
  - intros Hd [= <-]. revert Hd. apply Hno; try assumption.
    + congruence.
    + apply peer_sym, Hpeer.
  - apply Hcons; assumption.
Qed.

Lemma consistent_clear (g : SudokuGrid) (row col : nat) :
  wf9 g → row < 9 → col < 9 → consistent g → consistent (setRaw g row col None).
Proof.
  intros Hwf Hrow Hcol Hcons r c r' c' d Hr Hc Hr' Hc' Hne Hpeer.
  rewrite !rawAt_setRaw by assumption.
  destruct (decide (r = row ∧ c = col)), (decide (r' = row ∧ c' = col));
    try discriminate.
  apply Hcons; assumption.
Qed.

Lemma extends_place (g sol : SudokuGrid) (row col d : nat) :
  wf9 g → row < 9 → col < 9 → extends g sol → rawAt sol row col = Some d →
  extends (setRaw g row col (Some d)) sol.
Proof.
  intros Hwf Hrow Hcol Hext Hd r c d' Hr Hc.
  rewrite rawAt_setRaw by assumption.
  destruct (decide (r = row ∧ c = col)) as [[-> ->]|_].
  - intros [= <-]. exact Hd.
  - apply Hext; assumption.
Qed.

(** The digit a solution has at an empty cell passes the placement check. *)
Lemma solution_digit_valid (g sol : SudokuGrid) (row col d : nat) :
  row < 9 → col < 9 → solution sol → extends g sol →
  rawAt g row col = None → rawAt sol row col = Some d →
  isValidPlacement g row col d = true.
Proof.
  intros Hrow Hcol (_ & Hcons & _) Hext Hnone Hd.
  apply isValidPlacement_spec; try assumption.
  split; [rewrite Hnone; discriminate|].
  intros r c Hr Hc Hne Hpeer Hg.
  apply (Hcons row col r c d); auto.
Qed.

(** ** Counting empty cells *)

Lemma nulls_cons (x : option nat) (l : list (option nat)) :
  nulls (x :: l) = nullWeight x + nulls l.
Proof.
  unfold nulls, nullWeight. destruct x as [d|].
  - rewrite filter_cons_False by discriminate. reflexivity.
  - rewrite filter_cons_True by reflexivity. reflexivity.
Qed.

Lemma nulls_app (l k : list (option nat)) : nulls (l ++ k) = nulls l + nulls k.
Proof. unfold nulls. rewrite filter_app, length_app. reflexivity. Qed.

Lemma nulls_insert (l : list (option nat)) (c : nat) (x v : option nat) :
  l !! c = Some x → nulls (<[c := v]> l) + nullWeight x = nulls l + nullWeight v.
Proof.
  revert c. induction l as [|y l IH]; intros [|c] H; try discriminate; simpl in *.
  - injection H as ->. rewrite !nulls_cons. lia.
  - rewrite !nulls_cons. specialize (IH c H). lia.
Qed.

Lemma emptyCount_cons (r : list (option nat)) (g : SudokuGrid) :
  emptyCount (r :: g) = nulls r + emptyCount g.
Proof. unfold emptyCount. simpl. apply nulls_app. Qed.

Lemma emptyCount_setRaw (g : SudokuGrid) (row col : nat) (v : option nat) :
  wf9 g → row < 9 → col < 9 →
  emptyCount (setRaw g row col v) + nullWeight (rawAt g row col)
  = emptyCount g + nullWeight v.
Proof.
  intros Hwf Hrow Hcol.
  destruct (cellAt_wf9 g row col Hwf Hrow Hcol) as (rw & x & Hrw & Hx).
  unfold rawAt. rewrite Hrw, Hx. clear Hwf Hrow Hcol. unfold setRaw.
  revert row Hrw. induction g as [|r g IH]; intros [|row] Hrw; try discriminate;
    simpl in *.
  - injection Hrw as ->. rewrite !emptyCount_cons.
    pose proof (nulls_insert _ _ _ v Hx). lia.
  - rewrite !emptyCount_cons. specialize (IH row Hrw). unfold alter in *. lia.
Qed.

Lemma nulls_zero (l : list (option nat)) :
  (∀ x, x ∈ l → x ≠ None) → nulls l = 0.
Proof.
  induction l as [|x l IH]; intros H; [reflexivity|].
  rewrite nulls_cons, IH.
  - unfold nullWeight. destruct x; [reflexivity|].
    destruct (H None); [left|reflexivity].
  - intros y Hy. apply H. right. exact Hy.
Qed.

Lemma emptyCount_full (g : SudokuGrid) : wf9 g → full g → emptyCount g = 0.
Proof.
  intros [Hlen Hrows] Hfull. apply nulls_zero. intros x Hx.
  apply list_elem_of_In, in_concat in Hx as (rw & Hrw & Hx).
  apply list_elem_of_In, list_elem_of_lookup in Hrw as [r Hr].
  apply list_elem_of_In, list_elem_of_lookup in Hx as [c Hc].
  pose proof (lookup_lt_Some _ _ _ Hr) as Hr9.
  pose proof (lookup_lt_Some _ _ _ Hc) as Hc9.
  rewrite (Hrows _ _ Hr) in Hc9. rewrite Hlen in Hr9.
  specialize (Hfull r c Hr9 Hc9). unfold rawAt in Hfull.
  rewrite Hr, Hc in Hfull. exact Hfull.
Qed.

(** ** The backtracking search *)

Lemma tryNumbers_post (rec : SudokuGrid → Rng → option FillResult)
    (row col : nat) (g : SudokuGrid) :
  wf9 g → row < 9 → col < 9 → rawAt g row col = None →
  (∀ num rng, isValidPlacement g row col num = true →
     ∃ res, rec (setRaw g row col (Some num)) rng = Some res
            ∧ fillPost (setRaw g row col (Some num)) res) →
  ∀ numbers rng,
    ∃ res, tryNumbers rec row col numbers g rng = Some res
      ∧ if res.1.1
        then wf9 res.1.2 ∧ full res.1.2 ∧ consistent res.1.2
        else res.1.2 = g
             ∧ ∀ sol d, solution sol → extends g sol →
                 rawAt sol row col = Some d → d ∉ numbers.
Proof.
  intros Hwf Hrow Hcol Hnone Hrec.
  induction numbers as [|num rest IH]; intros rng; simpl.
  - eexists. split; [reflexivity|]. simpl. split; [reflexivity|].
    intros sol d _ _ _. apply not_elem_of_nil.
  - destruct (isValidPlacement g row col num) eqn:Ev.
    + destruct (Hrec num rng Ev) as ([[b g1] rng1] & Hres & Hpost).
      rewrite Hres. destruct b.
      * eexists. split; [reflexivity|]. exact Hpost.
      * unfold fillPost in Hpost. simpl in Hpost. destruct Hpost as [-> Hnosol].
        rewrite setRaw_undo by assumption.
        destruct (IH rng1) as (res & Hres' & Hpost').
        exists res. split; [exact Hres'|].
        destruct (res.1.1); [exact Hpost'|].
        destruct Hpost' as [Heq Hno]. split; [exact Heq|].
        intros sol d Hsol Hext Hd Hin. apply elem_of_cons in Hin as [->|Hin].
        -- apply (Hnosol sol Hsol). apply extends_place; assumption.
        -- apply (Hno sol d); assumption.
    + destruct (IH rng) as (res & Hres' & Hpost').
      exists res. split; [exact Hres'|].
      destruct (res.1.1); [exact Hpost'|].
      destruct Hpost' as [Heq Hno]. split; [exact Heq|].
      intros sol d Hsol Hext Hd Hin. apply elem_of_cons in Hin as [->|Hin].
      * rewrite (solution_digit_valid g sol row col num) in Ev by assumption.
        discriminate.
      * apply (Hno sol d); assumption.
Qed.

Lemma fillGrid_S (depth : nat) (g : SudokuGrid) (rng : Rng) :
  fillGrid (S depth) g rng =
  match findEmpty g with
  | None => Some (true, g, rng)
  | Some (row, col) =>
      tryNumbers (fillGrid depth) row col
        (shuffleArray [1; 2; 3; 4; 5; 6; 7; 8; 9] rng).1 g
        (shuffleArray [1; 2; 3; 4; 5; 6; 7; 8; 9] rng).2
  end.
Proof.
  simpl. destruct (findEmpty g) as [[row col]|]; reflexivity.
Qed.

(** A nesting bound above the number of empty cells is never exhausted, and
    the result satisfies [fillPost]. *)
Lemma fillGrid_enough_depth (depth : nat) (g : SudokuGrid) (rng : Rng) :
  wf9 g → consistent g → emptyCount g < depth →
  ∃ res, fillGrid depth g rng = Some res ∧ fillPost g res.
Proof.
  revert g rng. induction depth as [|depth IH]; intros g rng Hwf Hcons Hlt; [lia|].
  rewrite fillGrid_S. destruct (findEmpty g) as [[row col]|] eqn:Ef.
  - apply findEmpty_Some in Ef as (Hrow & Hcol & Hnone).
    pose proof (shuffleArray_Permutation [1; 2; 3; 4; 5; 6; 7; 8; 9] rng) as Hperm.
    set (numbers := (shuffleArray [1; 2; 3; 4; 5; 6; 7; 8; 9] rng).1) in *.
    set (rng' := (shuffleArray [1; 2; 3; 4; 5; 6; 7; 8; 9] rng).2).
    destruct (tryNumbers_post (fillGrid depth) row col g Hwf Hrow Hcol Hnone)
      with (numbers := numbers) (rng := rng') as (res & Hres & Hpost).
    { intros num rng1 Ev. apply IH.
      - apply wf9_setRaw, Hwf.
      - apply consistent_place; assumption.
      - pose proof (emptyCount_setRaw g row col (Some num) Hwf Hrow Hcol) as Hc.
        rewrite Hnone in Hc. unfold nullWeight, isNull in Hc. lia. }
    exists res. split; [exact Hres|]. unfold fillPost.
    destruct (res.1.1); [exact Hpost|].
    destruct Hpost as [Heq Hno]. split; [exact Heq|].
    intros sol Hsol Hext. pose proof Hsol as (_ & _ & Hdigits).
    destruct (Hdigits row col Hrow Hcol) as (d & Hd & Hrange).
    apply (Hno sol d Hsol Hext Hd). rewrite Hperm.
    apply list_elem_of_In. simpl. lia.
  - eexists. split; [reflexivity|]. unfold fillPost. simpl.
    split; [exact Hwf|]. split; [apply findEmpty_None, Ef|exact Hcons].
Qed.

(** ** A solution exists *)

Lemma consistentb_sound (g : SudokuGrid) : consistentb g = true → consistent g.
Proof.
  unfold consistentb. rewrite forallb_forall.
  intros H r c r' c' d Hr Hc Hr' Hc' Hne Hpeer Hd.
  specialize (H (r, c) (proj2 (In_allCells (r, c)) (conj Hr Hc))).
  rewrite forallb_forall in H.
  specialize (H (r', c') (proj2 (In_allCells (r', c')) (conj Hr' Hc'))).
  simpl in H. rewrite Hd in H.
  apply peerb_spec in Hpeer. rewrite Hpeer in H. simpl in H.
  rewrite orb_false_r in H. apply orb_true_iff in H as [H|H].
  - apply andb_true_iff in H as [H1 H2]. apply Nat.eqb_eq in H1, H2. congruence.
  - apply negb_true_iff, holds_false in H. exact H.
Qed.

Lemma solvedb_sound (g : SudokuGrid) :
  solvedb g = true → ∀ r c, r < 9 → c < 9 → ∃ d, rawAt g r c = Some d ∧ 1 ≤ d ≤ 9.
Proof.
  unfold solvedb. rewrite forallb_forall. intros H r c Hr Hc.
  specialize (H (r, c) (proj2 (In_allCells (r, c)) (conj Hr Hc))).
  cbn [fst snd] in H. destruct (rawAt g r c) as [d|]; [|discriminate].
  apply andb_true_iff in H as [H1 H2]. apply Nat.leb_le in H1, H2. eauto.
Qed.

Lemma solvedGrid_solution : solution solvedGrid.
Proof.
  split; [|split].
  - apply wf9b_sound. vm_compute. reflexivity.
  - apply consistentb_sound. vm_compute. reflexivity.
  - apply solvedb_sound. vm_compute. reflexivity.
Qed.

Lemma rawAt_emptyGrid (r c : nat) : rawAt emptyGrid r c = None.
Proof.
  unfold rawAt, emptyGrid.
  destruct (replicate 9 (replicate 9 None) !! r) as [rw|] eqn:E; [|reflexivity].
  apply lookup_replicate in E as [-> _].
  destruct (replicate 9 None !! c) as [x|] eqn:E'; [|reflexivity].
  apply lookup_replicate in E' as [-> _]. reflexivity.
Qed.

Lemma wf9_emptyGrid : wf9 emptyGrid.
Proof. apply wf9b_sound. vm_compute. reflexivity. Qed.

(** [fillGrid] on the empty grid returns [true] and leaves a solved grid,
    whatever the random draws. *)
Lemma fillGrid_emptyGrid (rng : Rng) :
  ∃ g rng', fillGrid 82 emptyGrid rng = Some (true, g, rng')
    ∧ wf9 g ∧ full g ∧ consistent g.
Proof.
  destruct (fillGrid_enough_depth 82 emptyGrid rng) as ([[b g] rng'] & Hres & Hpost).
  - exact wf9_emptyGrid.
  - intros r c r' c' d _ _ _ _ _ _ Hd. rewrite rawAt_emptyGrid in Hd. discriminate.
  - assert (E : emptyCount emptyGrid = 81) by (vm_compute; reflexivity). lia.
  - unfold fillPost in Hpost. simpl in Hpost. destruct b.
    + exists g, rng'. split; [exact Hres|exact Hpost].
    + destruct Hpost as [_ Hno]. destruct (Hno solvedGrid solvedGrid_solution).
      intros r c d _ _ Hd. rewrite rawAt_emptyGrid in Hd. discriminate.
Qed.

(** ** Units of a grid *)

Lemma elem_of_cellsOf (rows cols : list nat) (p : nat * nat) :
  p ∈ cellsOf rows cols ↔ p.1 ∈ rows ∧ p.2 ∈ cols.
Proof.
  unfold cellsOf. rewrite list_elem_of_In, in_flat_map. split.
  - intros (r & Hr & Hp). apply in_map_iff in Hp as (c & <- & Hc).
    simpl. rewrite !list_elem_of_In. auto.
  - intros [Hr Hc]. exists p.1. rewrite <- list_elem_of_In. split; [exact Hr|].
    apply in_map_iff. exists p.2. rewrite <- list_elem_of_In.
    split; [destruct p; reflexivity|exact Hc].
Qed.

Lemma NoDup_cellsOf (rows cols : list nat) :
  NoDup rows → NoDup cols → NoDup (cellsOf rows cols).
Proof.
  intros Hrows Hcols. induction Hrows as [|r rows Hr Hrows IH]; [constructor|].
  change (cellsOf (r :: rows) cols)
    with (map (λ col, (r, col)) cols ++ cellsOf rows cols).
  apply NoDup_app. split; [|split; [|exact IH]].
  - apply (NoDup_fmap_2 (λ col, (r, col))), Hcols.
  - intros p Hp Hp'. apply list_elem_of_fmap in Hp as (c & -> & _).
    apply elem_of_cellsOf in Hp' as [Hp' _]. apply Hr, Hp'.
Qed.

(** The digits of a list of distinct, pairwise peer positions of a grid
    without conflict are distinct. *)
Lemma unit_NoDup (g : SudokuGrid) (ps : list (nat * nat)) :
  consistent g → NoDup ps →
  (∀ p, p ∈ ps → p.1 < 9 ∧ p.2 < 9) →
  (∀ p q, p ∈ ps → q ∈ ps → peer p.1 p.2 q.1 q.2) →
  NoDup (digitsOf (valuesAt g ps)).
Proof.
  intros Hcons Hnd. induction Hnd as [|p ps Hp Hnd IH]; intros Hrange Hpeer.
  - constructor.
  - assert (Htail : NoDup (digitsOf (valuesAt g ps))).
    { apply IH.
      - intros q Hq. apply Hrange. right. exact Hq.
      - intros q q' Hq Hq'. apply Hpeer; right; assumption. }
    unfold digitsOf, valuesAt in *. simpl.
    destruct (rawAt g p.1 p.2) as [d|] eqn:Ed; simpl; [|exact Htail].
    constructor; [|exact Htail].
    intros Hin. apply list_elem_of_omap in Hin as (x & Hx & Hd). simpl in Hd. subst x.
    apply list_elem_of_fmap in Hx as (q & Hq & Hin).
    destruct (Hrange p ltac:(left)) as [Hp1 Hp2].
    destruct (Hrange q ltac:(right; exact Hin)) as [Hq1 Hq2].
    apply (Hcons p.1 p.2 q.1 q.2 d); auto.
    + intros E. apply Hp. destruct p, q. simpl in E. injection E as <- <-. exact Hin.
    + apply Hpeer; [left|right; exact Hin].
Qed.

Lemma consistent_units (g : SudokuGrid) :
  consistent g →
  (∀ row, row < 9 → NoDup (digitsOf (rowOf g row)))
  ∧ (∀ col, col < 9 → NoDup (digitsOf (colOf g col)))
  ∧ (∀ boxRow boxCol, boxRow < 3 → boxCol < 3 →
       NoDup (digitsOf (boxOf g boxRow boxCol))).
Proof.
  intros Hcons. split; [|split].
  - intros row Hrow.
    change (rowOf g row) with (valuesAt g (cellsOf [row] (seq 0 9))).
    apply unit_NoDup; [exact Hcons| | |].
    + apply NoDup_cellsOf; [apply NoDup_singleton|apply NoDup_seq].
    + intros p Hp. apply elem_of_cellsOf in Hp as [H1 H2].
      apply list_elem_of_singleton in H1. apply elem_of_seq in H2. lia.
    + intros p q Hp Hq. apply elem_of_cellsOf in Hp as [H1 _], Hq as [H2 _].
      apply list_elem_of_singleton in H1, H2. left. congruence.
  - intros col Hcol.
    change (colOf g col) with (valuesAt g (cellsOf (seq 0 9) [col])).
    apply unit_NoDup; [exact Hcons| | |].
    + apply NoDup_cellsOf; [apply NoDup_seq|apply NoDup_singleton].
    + intros p Hp. apply elem_of_cellsOf in Hp as [H1 H2].
      apply list_elem_of_singleton in H2. apply elem_of_seq in H1. lia.
    + intros p q Hp Hq. apply elem_of_cellsOf in Hp as [_ H1], Hq as [_ H2].
      apply list_elem_of_singleton in H1, H2. right. left. congruence.
  - intros boxRow boxCol Hbr Hbc.
    change (boxOf g boxRow boxCol)
      with (valuesAt g (cellsOf (seq (3 * boxRow) 3) (seq (3 * boxCol) 3))).
    assert (Hdiv : ∀ b x, 3 * b ≤ x < 3 * b + 3 → x / 3 = b).
    { intros b x Hx. symmetry. apply (Nat.div_unique x 3 b (x - 3 * b)); lia. }
    apply unit_NoDup; [exact Hcons| | |].
    + apply NoDup_cellsOf; apply NoDup_seq.
    + intros p Hp. apply elem_of_cellsOf in Hp as [H1 H2].
      apply elem_of_seq in H1, H2. lia.
    + intros p q Hp Hq. apply elem_of_cellsOf in Hp as [H1 H2], Hq as [H3 H4].
      apply elem_of_seq in H1, H2, H3, H4.
      right. right. split.
      * rewrite (Hdiv _ _ H1), (Hdiv _ _ H3). reflexivity.
      * rewrite (Hdiv _ _ H2), (Hdiv _ _ H4). reflexivity.
Qed.

(** ** Carving the puzzle *)

Lemma clearCells_post (ps : list (nat * nat)) (g : SudokuGrid) :
  wf9 g → consistent g → NoDup ps →
  (∀ p, p ∈ ps → p.1 < 9 ∧ p.2 < 9) →
  (∀ p, p ∈ ps → rawAt g p.1 p.2 ≠ None) →
  wf9 (clearCells g ps) ∧ consistent (clearCells g ps)
  ∧ emptyCount (clearCells g ps) = emptyCount g + length ps.
Proof.
  intros Hwf Hcons Hnd. revert g Hwf Hcons.
  induction Hnd as [|p ps Hp Hnd IH]; intros g Hwf Hcons Hrange Hfilled.
  - simpl. auto.
  - destruct (Hrange p ltac:(left)) as [Hp1 Hp2].
    change (clearCells g (p :: ps)) with (clearCells (setRaw g p.1 p.2 None) ps).
    destruct (IH (setRaw g p.1 p.2 None)) as (Hwf' & Hcons' & Hcount).
    + apply wf9_setRaw, Hwf.
    + apply consistent_clear; assumption.
    + intros q Hq. apply Hrange. right. exact Hq.
    + intros q Hq. rewrite rawAt_setRaw_other; try assumption.
      * apply Hfilled. right. exact Hq.
      * intros E. apply Hp. destruct p, q. simpl in E. injection E as <- <-. exact Hq.
    + split; [exact Hwf'|]. split; [exact Hcons'|].
      rewrite Hcount.
      pose proof (emptyCount_setRaw g p.1 p.2 None Hwf Hp1 Hp2) as Hc.
      specialize (Hfilled p ltac:(left)).
      unfold nullWeight in Hc. destruct (rawAt g p.1 p.2); [|congruence].
      cbn [isNull length] in *. lia.
Qed.

Lemma removeCells_eq (g : SudokuGrid) (count : nat) (rng : Rng) :
  removeCells g count rng =
  (clearCells g (take count (shuffleArray allCells rng).1),
   (shuffleArray allCells rng).2).
Proof.
  unfold removeCells. destruct (shuffleArray allCells rng). reflexivity.
Qed.

Lemma removeCells_post (g : SudokuGrid) (count : nat) (rng : Rng) :
  wf9 g → consistent g → full g → count ≤ 81 →
  wf9 (removeCells g count rng).1 ∧ consistent (removeCells g count rng).1
  ∧ emptyCount (removeCells g count rng).1 = count.
Proof.
  intros Hwf Hcons Hfull Hcount. rewrite removeCells_eq. cbn [fst snd].
  pose proof (shuffleArray_Permutation allCells rng) as Hperm.
  set (cells := (shuffleArray allCells rng).1) in *.
  assert (Hin : ∀ p, p ∈ take count cells → p.1 < 9 ∧ p.2 < 9).
  { intros p Hp. apply subseteq_take in Hp. rewrite Hperm in Hp.
    apply list_elem_of_In, In_allCells in Hp. exact Hp. }
  destruct (clearCells_post (take count cells) g Hwf Hcons) as (H1 & H2 & H3).
  - apply (sublist_NoDup _ cells); [|apply sublist_take].
    rewrite Hperm. apply (NoDup_cellsOf (seq 0 9) (seq 0 9)); apply NoDup_seq.
  - exact Hin.
  - intros p Hp. destruct (Hin p Hp). apply Hfull; assumption.
  - split; [exact H1|]. split; [exact H2|].
    rewrite H3, (emptyCount_full g Hwf Hfull), length_take.
    rewrite Hperm. change (length allCells) with 81. lia.
Qed.

(** [generateRandomSudoku] returns, for every source of randomness, a 9x9
    grid without conflict whose number of empty cells is 45 plus a draw
    below 6. *)
Lemma generateRandomSudoku_post (rng : Rng) :
  ∃ g rng' k, generateRandomSudoku rng = Some (g, rng')
    ∧ wf9 g ∧ consistent g ∧ k < 6 ∧ emptyCount g = 45 + k.
Proof.
  destruct (fillGrid_emptyGrid rng) as (g0 & rng1 & Hfill & Hwf & Hfull & Hcons).
  unfold generateRandomSudoku. rewrite Hfill.
  unfold randomBelow. cbv zeta.
  set (k := rng1 0 mod 6). set (rng2 := λ i, rng1 (S i)).
  assert (Hk : k < 6) by (apply Nat.mod_upper_bound; lia).
  destruct (removeCells_post g0 (45 + k) rng2 Hwf Hcons Hfull ltac:(lia))
    as (H1 & H2 & H3).
  destruct (removeCells g0 (45 + k) rng2) as [g rng']. cbn [fst snd] in *.
  exists g, rng', k. auto.
Qed.

Lemma count_split (l : list (option nat)) :
  length (filter (λ x, x = None) l) + length (filter (λ x, x ≠ None) l) = length l.
Proof.
  induction l as [|x l IH]; [reflexivity|].
  destruct x as [d|].
  - rewrite (filter_cons_False (λ x, x = None)) by discriminate.
    rewrite (filter_cons_True (λ x, x ≠ None)) by discriminate. simpl. lia.
  - rewrite (filter_cons_True (λ x, x = None)) by reflexivity.
    rewrite (filter_cons_False (λ x, x ≠ None)) by (intros H; apply H; reflexivity).
    simpl. lia.
Qed.

Lemma length_concat_wf9 {A} (g : list (list A)) : wf9 g → length (concat g) = 81.
Proof.
  intros [Hlen Hrows].
  assert (H : ∀ k : list (list A), (∀ r, r ∈ k → length r = 9) →
            length (concat k) = 9 * length k).
  { induction k as [|r k IH]; intros Hk; [reflexivity|].
    simpl. rewrite length_app, IH.
    - rewrite (Hk r) by left. lia.
    - intros r' Hr'. apply Hk. right. exact Hr'. }
  rewrite H, Hlen; [reflexivity|].
  intros r Hr. apply list_elem_of_lookup in Hr as [i Hi]. eauto.
Qed.

(** ** Generated grids *)

(** C1. For every source of randomness [generateRandomSudoku] returns a
    9x9 grid in which no row, no column and no 3x3 box has a digit twice
    among its non-empty entries. *)
Theorem generated_grid_valid (rng : Rng) :
  ∃ g rng', generateRandomSudoku rng = Some (g, rng') ∧ wf9 g
    ∧ (∀ row, row < 9 → NoDup (digitsOf (rowOf g row)))
    ∧ (∀ col, col < 9 → NoDup (digitsOf (colOf g col)))
    ∧ (∀ boxRow boxCol, boxRow < 3 → boxCol < 3 →
         NoDup (digitsOf (boxOf g boxRow boxCol))).
Proof.
  destruct (generateRandomSudoku_post rng) as (g & rng' & k & Hgen & Hwf & Hcons & _).
  exists g, rng'. split; [exact Hgen|]. split; [exact Hwf|].
  apply consistent_units, Hcons.
Qed.

(** C9. For every source of randomness the grid [generateRandomSudoku]
    returns has at least 45 and at most 50 empty cells, that is, at least 31
    and at most 36 filled cells out of 81. *)
Theorem generated_grid_count (rng : Rng) :
  ∃ g rng', generateRandomSudoku rng = Some (g, rng')
    ∧ 45 ≤ emptyCount g ≤ 50
    ∧ 31 ≤ filledCount g ≤ 36
    ∧ emptyCount g + filledCount g = 81.
Proof.
  destruct (generateRandomSudoku_post rng) as (g & rng' & k & Hgen & Hwf & _ & Hk & He).
  exists g, rng'. split; [exact Hgen|].
  assert (Hsum : emptyCount g + filledCount g = 81).
  { unfold emptyCount, filledCount. rewrite count_split. apply length_concat_wf9, Hwf. }
  lia.
Qed.

(** On the seed (λ k, 7 k + 3) of draws the generator returns this puzzle. *)
Example generateRandomSudoku_run :
  fst <$> generateRandomSudoku (λ k, k * 7 + 3) =
  Some [[None; Some 2; None; None; None; None; None; Some 4; None];
        [Some 7; Some 1; Some 9; None; None; Some 3; None; None; Some 8];
        [None; None; None; None; Some 6; None; None; Some 1; None];
        [None; None; None; None; Some 8; None; Some 4; None; None];
        [None; Some 9; Some 1; Some 4; None; Some 7; None; Some 8; None];
        [None; Some 3; None; None; None; None; Some 1; Some 7; None];
        [None; None; None; None; None; Some 2; None; Some 6; Some 4];
        [Some 9; Some 8; Some 4; None; None; None; Some 7; None; Some 1];
        [None; Some 6; Some 2; Some 1; Some 7; Some 4; None; None; Some 5]].
Proof. vm_compute. reflexivity. Qed.

(** ** The two legality checks on one grid *)

Lemma valueAt_annotate (raw : SudokuGrid) (r c : nat) :
  valueAt (annotate raw) r c = rawAt raw r c.
Proof.
  unfold valueAt, cellAt, rawAt, annotate.
  change (map ?f raw) with (f <$> raw). rewrite list_lookup_fmap.
  destruct (raw !! r) as [rw|]; simpl; [|reflexivity].
  change (map ?f rw) with (f <$> rw). rewrite list_lookup_fmap.
  destruct (rw !! c); reflexivity.
Qed.

Lemma wf9_annotate (raw : SudokuGrid) : wf9 raw → wf9 (annotate raw).
Proof.
  intros [Hlen Hrows]. unfold annotate. split.
  - rewrite length_map. exact Hlen.
  - intros r rw. change (map ?f raw) with (f <$> raw). rewrite list_lookup_fmap.
    destruct (raw !! r) as [rw0|] eqn:E; [|discriminate].
    simpl. intros [= <-]. rewrite length_map. eauto.
Qed.

(** Next to the fixed 7 of [scenarioPuzzle] both checks refuse a 7 and both
    accept a 5. *)
Lemma legality_checks_agree_witness :
  wf9 scenarioPuzzle ∧ rawAt scenarioPuzzle 0 1 = None
  ∧ isValidPlacement scenarioPuzzle 0 1 7 = false
  ∧ isValidMove (annotate scenarioPuzzle) 0 1 7 = false
  ∧ isValidPlacement scenarioPuzzle 0 1 5 = isValidMove (annotate scenarioPuzzle) 0 1 5.
Proof.
  assert (Hwf : wf9 scenarioPuzzle) by (apply wf9b_sound; vm_compute; reflexivity).
  assert (Hsame : sameValues scenarioPuzzle (annotate scenarioPuzzle)).
  { intros r c _ _. apply valueAt_annotate. }
  assert (Hnone : rawAt scenarioPuzzle 0 1 = None) by reflexivity.
  destruct (legality_checks_agree scenarioPuzzle (annotate scenarioPuzzle) 0 1 7
              Hwf (wf9_annotate _ Hwf) Hsame ltac:(lia) ltac:(lia) Hnone)
    as (Heq7 & _ & _).
  destruct (legality_checks_agree scenarioPuzzle (annotate scenarioPuzzle) 0 1 5
              Hwf (wf9_annotate _ Hwf) Hsame ltac:(lia) ltac:(lia) Hnone)
    as (Heq5 & _ & _).
  split; [exact Hwf|]. split; [exact Hnone|].
  split; [reflexivity|]. split; [rewrite <- Heq7; reflexivity|exact Heq5].
Defined.

(** ** Completion in reachable sessions *)

(** The handler returned the session as it was. *)
Local Ltac unchanged :=
  split;
  [ simpl; try match goal with E : selectedCell _ = _ |- _ => rewrite E end; assumption
  | assumption ].

Lemma selectionInv_applyOp (g0 : list (list SudokuCell)) (s : Session) (op : Op) :
  selectionInv g0 s → selectionInv g0 (applyOp s op).
Proof.
  intros [Hcur Hhist]. destruct op as [row col|num| |]; simpl.
  - unfold handleCellClick.
    destruct (cellAt (grid s) row col) as [cell|] eqn:Ec; [|split; assumption].
    split; [|exact Hhist]. simpl.
    destruct (isFixed cell) eqn:Ef; [exact Hcur|]. exists cell. auto.
  - unfold handleNumberInput.
    destruct (selectedCell s) as [[row col]|] eqn:Es; [|unchanged].
    destruct (cellAt (grid s) row col) as [current|] eqn:Ec;
      [|unchanged].
    destruct (isFixed current) eqn:Ef; [unchanged|].
    cbv zeta.
    assert (Hnew : snapOk g0
              (updateValidation (setValue (grid s) row col
                 (if holds (value current) num then None else Some num)))
              (Some (row, col))).
    { eexists. rewrite (cellAt_validated_selected _ _ _ _ _ Ec).
      split; [reflexivity|exact Ef]. }
    split; [exact Hnew|]. simpl.
    intros h Hin. apply elem_of_app in Hin as [Hin|Hin]; [auto|].
    apply list_elem_of_singleton in Hin. subst h. exact Hnew.
  - unfold handleClear.
    destruct (selectedCell s) as [[row col]|] eqn:Es; [|unchanged].
    destruct (cellAt (grid s) row col) as [current|] eqn:Ec;
      [|unchanged].
    destruct (isFixed current) eqn:Ef; [unchanged|].
    cbv zeta.
    assert (Hnew : snapOk g0 (updateValidation (setValue (grid s) row col None))
                     (Some (row, col))).
    { eexists. rewrite (cellAt_validated_selected _ _ _ _ _ Ec).
      split; [reflexivity|exact Ef]. }
    split; [exact Hnew|]. simpl.
    intros h Hin. apply elem_of_app in Hin as [Hin|Hin]; [auto|].
    apply list_elem_of_singleton in Hin. subst h. exact Hnew.
  - unfold handleUndo. destruct (length (moveHistory s) <=? 1); [split; assumption|].
    cbv zeta. destruct (last _) as [top|] eqn:El; [|split; assumption]. simpl.
    assert (Hsub : ∀ h, h ∈ take (length (moveHistory s) - 1) (moveHistory s) →
                     h ∈ moveHistory s) by (intros h; apply subseteq_take).
    split.
    + apply Hhist, Hsub, last_Some_elem_of, El.
    + intros h Hin. apply Hhist, Hsub, Hin.
Qed.

Lemma selectionInv_run (g0 : list (list SudokuCell)) (ops : list Op) (s : Session) :
  selectionInv g0 s → selectionInv g0 (run ops s).
Proof.
  revert s. induction ops as [|op ops IH]; intros s H; [exact H|].
  apply (IH (applyOp s op)), selectionInv_applyOp, H.
Qed.

(** In a session reached from a puzzle with an empty cell, a call of
    [handleNumberInput] stopped by its guard sees a grid that is not
    completed: no cell is selected and the grid is the initial one. *)
Lemma notEditable_not_completed (seed : SudokuGrid) (ops : list Op) :
  wf9 seed → (∃ r c, r < 9 ∧ c < 9 ∧ rawAt seed r c = None) →
  notEditable (run ops (createSession seed)) →
  ¬ completed (grid (run ops (createSession seed))).
Proof.
  intros Hwf (r & c & Hr & Hc & Hnone) Hnot [Hfull _].
  assert (Hinit : selectionInv (annotate seed) (createSession seed)).
  { split; [reflexivity|]. simpl. intros h Hin.
    apply list_elem_of_singleton in Hin. subst h. reflexivity. }
  destruct (selectionInv_run _ ops _ Hinit) as [Hcur _].
  destruct Hnot as [Hsel|(row & col & Hsel & Hbad)]; rewrite Hsel in Hcur; simpl in Hcur.
  - rewrite Hcur in Hfull.
    destruct (cellAt_is_Some (annotate seed) r c (wf9_annotate _ Hwf) Hr Hc)
      as [cell Hcell].
    apply (Hfull r c cell Hcell).
    pose proof (valueAt_annotate seed r c) as Hv. unfold valueAt in Hv.
    rewrite Hcell, Hnone in Hv. exact Hv.
  - destruct Hcur as (cell & Hcell & Hfix).
    destruct Hbad as [Hb|(cell' & Hb & Hf)]; congruence.
Qed.

(** Every generated puzzle is 9x9 and has an empty cell. *)
Lemma generated_seed_has_empty (rng : Rng) (seed : SudokuGrid) (rng' : Rng) :
  generateRandomSudoku rng = Some (seed, rng') →
  wf9 seed ∧ ∃ r c, r < 9 ∧ c < 9 ∧ rawAt seed r c = None.
Proof.
  intros Hgen.
  destruct (generateRandomSudoku_post rng) as (g & rng1 & k & Hg & Hwf & _ & _ & Hcount).
  rewrite Hgen in Hg. injection Hg as <- <-. split; [exact Hwf|].
  destruct (findEmpty seed) as [[r c]|] eqn:Ef.
  - apply findEmpty_Some in Ef. exists r, c. exact Ef.
  - apply findEmpty_None in Ef. rewrite (emptyCount_full seed Hwf Ef) in Hcount. lia.
Qed.

(** C4. In every session reached by select, input, clear and undo from a
    9x9 puzzle with an empty cell (every generated puzzle is one),
    [handleNumberInput] sets [isComplete], and plays the success sound,
    exactly when every cell of the resulting grid is non-empty and every cell
    is marked valid; otherwise it leaves [isComplete] as it was.  It never
    turns [isComplete] from true to false, nor does [handleCellClick];
    [handleClear] and [handleUndo] (when they take effect), [handleReset] and
    [handleNewPuzzle] set it to false. *)
Theorem completion_detection (seed : SudokuGrid) (ops : list Op) (num : nat) :
  wf9 seed → (∃ r c, r < 9 ∧ c < 9 ∧ rawAt seed r c = None) →
  let s := run ops (createSession seed) in
  let s' := (handleNumberInput num s).1 in
  (In SuccessSound (handleNumberInput num s).2 ↔ completed (grid s'))
  ∧ (completed (grid s') → isComplete s' = true)
  ∧ (¬ completed (grid s') → isComplete s' = isComplete s)
  ∧ (isComplete s = true → isComplete s' = true)
  ∧ (∀ row col, isComplete (handleCellClick row col s).1 = isComplete s)
  ∧ (∀ row col current, editable s row col current →
       isComplete (handleClear s).1 = false)
  ∧ (1 < length (moveHistory s) → isComplete (handleUndo s).1 = false)
  ∧ isComplete (handleReset s).1 = false
  ∧ (∀ rng s2 sounds rng', handleNewPuzzle rng s = Some (s2, sounds, rng') →
       isComplete s2 = false).
Proof.
  intros Hwf Hempty. cbv zeta.
  set (s := run ops (createSession seed)).
  assert (Hinput :
    (In SuccessSound (handleNumberInput num s).2
       ↔ completed (grid (handleNumberInput num s).1))
    ∧ (completed (grid (handleNumberInput num s).1)
       → isComplete (handleNumberInput num s).1 = true)
    ∧ (¬ completed (grid (handleNumberInput num s).1)
       → isComplete (handleNumberInput num s).1 = isComplete s)).
  { destruct (editable_or_not s) as [Hnot|(row & col & current & Hed)].
    - pose proof (notEditable_not_completed seed ops Hwf Hempty Hnot) as Hnc.
      fold s in Hnc. rewrite (handleNumberInput_notEditable num s Hnot). simpl.
      split; [|split].
      + split; [intros []|intros H; destruct (Hnc H)].
      + intros H. destruct (Hnc H).
      + reflexivity.
    - apply (handleNumberInput_completion s num row col current Hed). }
  destruct Hinput as (H1 & H2 & H3).
  split; [exact H1|]. split; [exact H2|]. split; [exact H3|].
  split; [apply handleNumberInput_keeps_complete|].
  split; [intros row col; apply handleCellClick_isComplete|].
  split; [intros row col current; apply handleClear_isComplete|].
  split; [apply handleUndo_isComplete|].
  split; [reflexivity|].
  intros rng s2 sounds rng'. apply handleNewPuzzle_isComplete.
Qed.

(** Filling the last cell of [lastCellPuzzle] with its solution completes
    the session; a conflicting digit does not. *)
Lemma completion_detection_witness :
  wf9 lastCellPuzzle
  ∧ (∃ r c, r < 9 ∧ c < 9 ∧ rawAt lastCellPuzzle r c = None)
  ∧ isComplete (handleNumberInput 1 lastCellSelected).1 = true
  ∧ isComplete (handleNumberInput 2 lastCellSelected).1 = false.
Proof.
  assert (Hwf : wf9 lastCellPuzzle) by (apply wf9b_sound; vm_compute; reflexivity).
  assert (Hempty : ∃ r c, r < 9 ∧ c < 9 ∧ rawAt lastCellPuzzle r c = None).
  { exists 0, 0. split; [lia|]. split; [lia|reflexivity]. }
  split; [exact Hwf|]. split; [exact Hempty|]. split.
  - destruct (completion_detection lastCellPuzzle [OpSelect 0 0] 1 Hwf Hempty)
      as (_ & Hset & _).
    apply Hset. unfold completed.
    rewrite <- isFull_spec, <- allValid_spec. split; vm_compute; reflexivity.
  - destruct (completion_detection lastCellPuzzle [OpSelect 0 0] 2 Hwf Hempty)
      as (_ & _ & Hkeep & _).
    change (run [OpSelect 0 0] (createSession lastCellPuzzle)) with lastCellSelected
      in Hkeep.
    rewrite Hkeep; [reflexivity|]. unfold completed.
    rewrite <- isFull_spec, <- allValid_spec. intros [_ Hv]. vm_compute in Hv. discriminate.
Defined.

(** ** The scenario of the specification *)

(** With a fixed 7 at (0,0) and (0,1) selected: a 7 is refused, costs one
    life and marks both cells invalid; a second 7 empties the cell, marks
    both cells valid again and costs nothing. *)
Example concrete_scenario :
  let once := handleNumberInput 7 scenario in
  let twice := handleNumberInput 7 once.1 in
  outcomeOf once.2 = Invalid
  ∧ lives once.1 = 2%Z
  ∧ (isValid <$> cellAt (grid once.1) 0 0) = Some false
  ∧ (isValid <$> cellAt (grid once.1) 0 1) = Some false
  ∧ outcomeOf twice.2 = NoOutcome
  ∧ lives twice.1 = 2%Z
  ∧ valueAt (grid twice.1) 0 1 = None
  ∧ (isValid <$> cellAt (grid twice.1) 0 0) = Some true
  ∧ (isValid <$> cellAt (grid twice.1) 0 1) = Some true.
Proof. vm_compute. repeat split; reflexivity. Qed.

(** * Further properties of the code *)

(** ** More on the validator *)

Lemma forallb_pointwise {A} (f g : A → bool) (l : list A) :
  (∀ x, f x = g x) → forallb f l = forallb g l.
Proof.
  intros H. induction l as [|x l IH]; [reflexivity|]. simpl. rewrite H, IH. reflexivity.
Qed.

(** [isValidMove] reads nothing but the values of the grid. *)
Lemma isValidMove_ext (g g' : list (list SudokuCell)) (row col num : nat) :
  (∀ r c, valueAt g r c = valueAt g' r c) →
  isValidMove g row col num = isValidMove g' row col num.
Proof.
  intros H. unfold isValidMove. cbv zeta.
  f_equal; [f_equal|].
  - apply forallb_pointwise. intros c. rewrite H. reflexivity.
  - apply forallb_pointwise. intros r. rewrite H. reflexivity.
  - apply forallb_pointwise. intros r. apply forallb_pointwise. intros c.
    rewrite H. reflexivity.
Qed.

Lemma noOtherHolds_sameValues (raw : SudokuGrid) (g : list (list SudokuCell))
    (row col num : nat) :
  sameValues raw g →
  noOtherHolds (rawAt raw) row col num ↔ noOtherHolds (valueAt g) row col num.
Proof.
  intros Hsame. unfold noOtherHolds. split; intros H r c Hr Hc Hne Hpeer.
  - rewrite Hsame by assumption. apply H; assumption.
  - rewrite <- Hsame by assumption. apply H; assumption.
Qed.

(** X1. On any position of a 9x9 grid, empty or not, [isValidPlacement]
    is [isValidMove] together with the test that the cell itself does not
    already hold the digit: the generation-time check refuses a digit that
    already sits in the cell, the play-time check ignores the cell. *)
Theorem placement_is_move_and_self
    (raw : SudokuGrid) (g : list (list SudokuCell)) (row col num : nat) :
  sameValues raw g → row < 9 → col < 9 →
  isValidPlacement raw row col num
  = negb (holds (rawAt raw row col) num) && isValidMove g row col num.
Proof.
  intros Hsame Hrow Hcol. apply eq_true_iff_eq.
  rewrite andb_true_iff, negb_true_iff, holds_false.
  rewrite isValidPlacement_spec, isValidMove_spec by assumption.
  rewrite (noOtherHolds_sameValues raw g row col num Hsame). reflexivity.
Qed.

Lemma placement_is_move_and_self_witness :
  sameValues scenarioPuzzle (annotate scenarioPuzzle)
  ∧ isValidPlacement scenarioPuzzle 0 0 7 = false
  ∧ isValidMove (annotate scenarioPuzzle) 0 0 7 = true.
Proof.
  assert (Hsame : sameValues scenarioPuzzle (annotate scenarioPuzzle)).
  { intros r c _ _. apply valueAt_annotate. }
  pose proof (placement_is_move_and_self scenarioPuzzle (annotate scenarioPuzzle)
                0 0 7 Hsame ltac:(lia) ltac:(lia)) as H.
  split; [exact Hsame|]. split; [rewrite H; reflexivity|reflexivity].
Defined.

Lemma updateValidation_lookup (g : list (list SudokuCell)) (r : nat) :
  updateValidation g !! r =
  (λ row, imap (λ c cell,
     {| value := value cell; isFixed := isFixed cell;
        isValid := match value cell with
                   | None => true
                   | Some v => isValidMove g r c v
                   end |}) row) <$> g !! r.
Proof. unfold updateValidation. rewrite list_lookup_imap. reflexivity. Qed.

Lemma updateValidation_twice (g : list (list SudokuCell)) :
  updateValidation (updateValidation g) = updateValidation g.
Proof.
  apply list_eq. intros r. rewrite !updateValidation_lookup.
  destruct (g !! r) as [row|]; [|reflexivity]. simpl. f_equal.
  apply list_eq. intros c. rewrite !list_lookup_imap.
  destruct (row !! c) as [cell|]; [|reflexivity]. simpl. f_equal.
  destruct (value cell) as [v|]; [|reflexivity]. f_equal.
  apply isValidMove_ext. intros r' c'. apply valueAt_updateValidation.
Qed.

(** X2. [updateValidation] is idempotent, and the flags it computes depend
    on the values only: two grids with the same values and fixed flags get
    the same validated grid, whatever their [isValid] flags were. *)
Theorem updateValidation_idempotent (g g' : list (list SudokuCell)) :
  updateValidation (updateValidation g) = updateValidation g
  ∧ (map (map (λ cell, (value cell, isFixed cell))) g
     = map (map (λ cell, (value cell, isFixed cell))) g' →
     updateValidation g = updateValidation g').
Proof.
  split; [apply updateValidation_twice|].
  intros Heq.
  assert (Hcell : ∀ r c, (λ cell, (value cell, isFixed cell)) <$> cellAt g r c
                         = (λ cell, (value cell, isFixed cell)) <$> cellAt g' r c).
  { intros r c. apply (f_equal (λ l, l !! r)) in Heq.
    change (map ?f g) with (f <$> g) in Heq. change (map ?f g') with (f <$> g') in Heq.
    rewrite !list_lookup_fmap in Heq. unfold cellAt.
    destruct (g !! r) as [row|], (g' !! r) as [row'|]; try discriminate; [|reflexivity].
    simpl in Heq. injection Heq as Heq. apply (f_equal (λ l, l !! c)) in Heq.
    change (map ?f row) with (f <$> row) in Heq.
    change (map ?f row') with (f <$> row') in Heq.
    rewrite !list_lookup_fmap in Heq. exact Heq. }
  assert (Hval : ∀ r c, valueAt g r c = valueAt g' r c).
  { intros r c. specialize (Hcell r c). unfold valueAt.
    destruct (cellAt g r c), (cellAt g' r c); try discriminate; [|reflexivity].
    simpl in Hcell. congruence. }
  apply list_eq. intros r. rewrite !updateValidation_lookup.
  pose proof (f_equal (λ l, l !! r) Heq) as Hr. simpl in Hr.
  change (map ?f g) with (f <$> g) in Hr. change (map ?f g') with (f <$> g') in Hr.
  rewrite !list_lookup_fmap in Hr.
  destruct (g !! r) as [row|] eqn:Er, (g' !! r) as [row'|] eqn:Er';
    try discriminate; [|reflexivity].
  simpl in *. f_equal. injection Hr as Hr.
  apply list_eq. intros c. rewrite !list_lookup_imap.
  pose proof (f_equal (λ l, l !! c) Hr) as Hc. simpl in Hc.
  change (map ?f row) with (f <$> row) in Hc. change (map ?f row') with (f <$> row') in Hc.
  rewrite !list_lookup_fmap in Hc.
  destruct (row !! c) as [cell|], (row' !! c) as [cell'|]; try discriminate; [|reflexivity].
  simpl in *. injection Hc as Hv Hf. f_equal. rewrite Hv, Hf.
  destruct (value cell') as [v|]; [|reflexivity].
  rewrite (isValidMove_ext g g' r c v Hval). reflexivity.
Qed.

Lemma updateValidation_idempotent_witness :
  updateValidation duplicateRow
  = updateValidation (map (map (λ cell,
      {| value := value cell; isFixed := isFixed cell; isValid := false |})) duplicateRow).
Proof.
  apply (updateValidation_idempotent duplicateRow). reflexivity.
Defined.

Lemma cellAt_in_range {A} (g : list (list A)) (r c : nat) (row : list A) (x : A) :
  wf9 g → g !! r = Some row → row !! c = Some x → r < 9 ∧ c < 9.
Proof.
  intros [Hlen Hrows] Hr Hc.
  pose proof (lookup_lt_Some _ _ _ Hr) as H1.
  pose proof (lookup_lt_Some _ _ _ Hc) as H2.
  rewrite (Hrows _ _ Hr) in H2. lia.
Qed.

Lemma cellAt_Some_range (g : list (list SudokuCell)) (r c : nat) (cell : SudokuCell) :
  wf9 g → cellAt g r c = Some cell → r < 9 ∧ c < 9.
Proof.
  intros Hwf H. unfold cellAt in H. destruct (g !! r) as [row|] eqn:Er; [|discriminate].
  exact (cellAt_in_range g r c row cell Hwf Er H).
Qed.

(** X3. After revalidation invalid cells never come alone: a cell marked
    invalid has a distinct cell in its row, column or box that holds the same
    value and is marked invalid too. *)
Theorem invalid_cells_come_in_pairs (g : list (list SudokuCell)) (r c : nat) :
  wf9 g → r < 9 → c < 9 → markedInvalid (updateValidation g) r c →
  ∃ r' c', r' < 9 ∧ c' < 9 ∧ (r', c') ≠ (r, c) ∧ peer r c r' c'
    ∧ valueAt g r' c' = valueAt g r c
    ∧ markedInvalid (updateValidation g) r' c'.
Proof.
  intros Hwf Hr Hc (cell' & Hcell' & Hinv).
  destruct (cellAt_is_Some g r c Hwf Hr Hc) as [cell Hcell].
  destruct (updateValidation_flag g r c cell Hr Hc Hcell) as (cell2 & H2 & _ & _ & _ & Hf).
  rewrite Hcell' in H2. injection H2 as <-.
  destruct Hf as [Hf _]. destruct (Hf Hinv) as [[r' c'] Hq].
  pose proof Hq as (_ & _ & Hr' & Hc' & Hne & Hpeer & d & Hd & Hd').
  simpl in *. exists r', c'.
  split; [exact Hr'|]. split; [exact Hc'|]. split; [exact Hne|]. split; [exact Hpeer|].
  split; [congruence|].
  destruct (cellAt_is_Some g r' c' Hwf Hr' Hc') as [other Hother].
  destruct (updateValidation_flag g r' c' other Hr' Hc' Hother)
    as (other' & Ho & _ & _ & _ & Hf').
  exists other'. split; [exact Ho|]. apply Hf'. exists (r, c).
  apply conflict_sym, Hq.
Qed.

Lemma invalid_cells_come_in_pairs_witness :
  wf9 duplicateRow ∧ markedInvalid (updateValidation duplicateRow) 0 0
  ∧ ∃ r' c', (r', c') ≠ (0, 0) ∧ markedInvalid (updateValidation duplicateRow) r' c'.
Proof.
  assert (Hinv : markedInvalid (updateValidation duplicateRow) 0 0).
  { eexists. split; [vm_compute; reflexivity|reflexivity]. }
  destruct (invalid_cells_come_in_pairs duplicateRow 0 0 wf9_duplicateRow
              ltac:(lia) ltac:(lia) Hinv) as (r' & c' & _ & _ & Hne & _ & _ & H).
  split; [exact wf9_duplicateRow|]. split; [exact Hinv|]. exists r', c'. auto.
Defined.

(** X4. The completion test of [handleNumberInput] on a validated 9x9 grid
    succeeds exactly when every cell holds a value and no two distinct cells
    of a row, column or box hold the same value. *)
Theorem completion_test_means_solved (g : list (list SudokuCell)) :
  wf9 g →
  isFull (updateValidation g) && allValid (updateValidation g) = true
  ↔ (∀ r c, r < 9 → c < 9 → valueAt g r c ≠ None) ∧ (∀ p q, ¬ conflict g p q).
Proof.
  intros Hwf. rewrite andb_true_iff, isFull_spec, allValid_spec. split.
  - intros [Hfull Hvalid]. split.
    + intros r c Hr Hc. rewrite <- valueAt_updateValidation. unfold valueAt.
      destruct (cellAt_is_Some _ r c (wf9_updateValidation g Hwf) Hr Hc) as [cell Hcell].
      rewrite Hcell. apply (Hfull r c cell Hcell).
    + intros [r c] q Hq. pose proof Hq as (Hr & Hc & _). simpl in Hr, Hc.
      destruct (cellAt_is_Some g r c Hwf Hr Hc) as [cell Hcell].
      destruct (updateValidation_flag g r c cell Hr Hc Hcell)
        as (cell' & Hcell' & _ & _ & _ & Hf).
      assert (Hfalse : isValid cell' = false) by (apply Hf; eauto).
      rewrite (Hvalid r c cell' Hcell') in Hfalse. discriminate.
  - intros [Hfull Hno]. split.
    + intros r c cell Hcell.
      destruct (cellAt_Some_range _ r c cell (wf9_updateValidation g Hwf) Hcell) as [Hr Hc].
      specialize (Hfull r c Hr Hc). rewrite <- valueAt_updateValidation in Hfull.
      unfold valueAt in Hfull. rewrite Hcell in Hfull. exact Hfull.
    + intros r c cell' Hcell'.
      destruct (cellAt_Some_range _ r c cell' (wf9_updateValidation g Hwf) Hcell')
        as [Hr Hc].
      destruct (cellAt_is_Some g r c Hwf Hr Hc) as [cell Hcell].
      destruct (updateValidation_flag g r c cell Hr Hc Hcell)
        as (cell2 & H2 & _ & _ & _ & Hf).
      rewrite Hcell' in H2. injection H2 as <-.
      destruct (isValid cell') eqn:E; [reflexivity|].
      destruct Hf as [Hf _]. destruct (Hf eq_refl) as [q Hq]. destruct (Hno _ _ Hq).
Qed.

Lemma completion_test_means_solved_witness :
  wf9 (grid solvedSession)
  ∧ (∀ r c, r < 9 → c < 9 → valueAt (grid solvedSession) r c ≠ None)
  ∧ (∀ p q, ¬ conflict (grid solvedSession) p q).
Proof.
  assert (Hwf : wf9 (grid solvedSession)) by (apply wf9b_sound; vm_compute; reflexivity).
  split; [exact Hwf|].
  apply (completion_test_means_solved (grid solvedSession) Hwf).
  vm_compute. reflexivity.
Defined.

(** ** More on the generator *)

Lemma shuffleFrom_draws {A} (i : nat) (array : list A) (rng : Rng) (k : nat) :
  (shuffleFrom i array rng).2 k = rng (i + k).
Proof.
  revert array rng. induction i as [|i IH]; intros array rng; [reflexivity|].
  simpl. rewrite IH. f_equal.
Qed.

(** X5. [shuffleArray] returns a permutation of its argument (so nothing
    is lost or duplicated and the length is kept), draws exactly
    [length - 1] random numbers, and leaves an array of at most one element
    as it is. *)
Theorem shuffleArray_permutes {A} (array : list A) (rng : Rng) :
  (shuffleArray array rng).1 ≡ₚ array
  ∧ length (shuffleArray array rng).1 = length array
  ∧ (∀ k, (shuffleArray array rng).2 k = rng (length array - 1 + k))
  ∧ (length array ≤ 1 → (shuffleArray array rng).1 = array).
Proof.
  split; [apply shuffleArray_Permutation|].
  split; [apply Permutation_length, shuffleArray_Permutation|].
  split; [intros k; apply shuffleFrom_draws|].
  intros Hlen. unfold shuffleArray.
  replace (length array - 1) with 0 by lia. reflexivity.
Qed.

Lemma grows_refl (g : SudokuGrid) : grows g g.
Proof. split; [intros r c d _ _ H; exact H|]. intros r c d _ _ H. left. exact H. Qed.

Lemma grows_place (g g' : SudokuGrid) (row col num : nat) :
  wf9 g → row < 9 → col < 9 → rawAt g row col = None → 1 ≤ num ≤ 9 →
  grows (setRaw g row col (Some num)) g' → grows g g'.
Proof.
  intros Hwf Hrow Hcol Hnone Hnum [Hext Hdig]. split.
  - intros r c d Hr Hc Hd. apply Hext; try assumption.
    rewrite rawAt_setRaw_other; try assumption. congruence.
  - intros r c d Hr Hc Hd. destruct (Hdig r c d Hr Hc Hd) as [H|H]; [|right; exact H].
    rewrite rawAt_setRaw in H by assumption.
    destruct (decide (r = row ∧ c = col)); [|left; exact H].
    injection H as <-. right. exact Hnum.
Qed.

Lemma tryNumbers_grows (rec : SudokuGrid → Rng → option FillResult)
    (row col : nat) (g : SudokuGrid) :
  wf9 g → row < 9 → col < 9 → rawAt g row col = None →
  (∀ num rng res, isValidPlacement g row col num = true →
     rec (setRaw g row col (Some num)) rng = Some res →
     fillPost (setRaw g row col (Some num)) res
     ∧ (res.1.1 = true → grows (setRaw g row col (Some num)) res.1.2)) →
  ∀ numbers rng g' rng', (∀ n, n ∈ numbers → 1 ≤ n ≤ 9) →
    tryNumbers rec row col numbers g rng = Some (true, g', rng') → grows g g'.
Proof.
  intros Hwf Hrow Hcol Hnone Hrec.
  induction numbers as [|num rest IH]; intros rng g' rng' Hrange; simpl; [discriminate|].
  assert (Hrest : ∀ n, n ∈ rest → 1 ≤ n ≤ 9) by (intros n Hn; apply Hrange; right; exact Hn).
  destruct (isValidPlacement g row col num) eqn:Ev; [|apply IH, Hrest].
  destruct (rec (setRaw g row col (Some num)) rng) as [[[b g1] rng1]|] eqn:Er;
    [|discriminate].
  destruct (Hrec num rng _ Ev Er) as [Hpost Hgrow]. destruct b.
  - intros [= <- <-]. apply (grows_place g g1 row col num); try assumption.
    + apply Hrange. left.
    + apply Hgrow. reflexivity.
  - unfold fillPost in Hpost. simpl in Hpost. destruct Hpost as [-> _].
    rewrite setRaw_undo by assumption. apply IH, Hrest.
Qed.

Lemma fillGrid_grows (depth : nat) (g : SudokuGrid) (rng : Rng) (g' : SudokuGrid) (rng' : Rng) :
  wf9 g → consistent g → emptyCount g < depth →
  fillGrid depth g rng = Some (true, g', rng') → grows g g'.
Proof.
  revert g rng g' rng'.
  induction depth as [|depth IH]; intros g rng g' rng' Hwf Hcons Hlt; [lia|].
  rewrite fillGrid_S. destruct (findEmpty g) as [[row col]|] eqn:Ef.
  - apply findEmpty_Some in Ef as (Hrow & Hcol & Hnone).
    pose proof (shuffleArray_Permutation [1; 2; 3; 4; 5; 6; 7; 8; 9] rng) as Hperm.
    apply (tryNumbers_grows (fillGrid depth) row col g Hwf Hrow Hcol Hnone).
    + intros num rng1 res Ev Hres.
      assert (Hwf1 : wf9 (setRaw g row col (Some num))) by (apply wf9_setRaw, Hwf).
      assert (Hcons1 : consistent (setRaw g row col (Some num)))
        by (apply consistent_place; assumption).
      assert (Hlt1 : emptyCount (setRaw g row col (Some num)) < depth).
      { pose proof (emptyCount_setRaw g row col (Some num) Hwf Hrow Hcol) as Hc.
        rewrite Hnone in Hc. unfold nullWeight, isNull in Hc. lia. }
      destruct (fillGrid_enough_depth depth _ rng1 Hwf1 Hcons1 Hlt1) as (res' & Hres' & Hpost).
      rewrite Hres in Hres'. injection Hres' as <-. split; [exact Hpost|].
      destruct res as [[b g1] rng2]. simpl. intros ->.
      apply (IH _ rng1 g1 rng2 Hwf1 Hcons1 Hlt1 Hres).
    + intros n Hn. rewrite Hperm in Hn. apply list_elem_of_In in Hn. simpl in Hn. lia.
  - intros [= <- _]. apply grows_refl.
Qed.

Lemma full_grows_solution (g g' : SudokuGrid) :
  digitsInRange g → grows g g' → wf9 g' → full g' → consistent g' → solution g'.
Proof.
  intros Hdig [_ Hnew] Hwf Hfull Hcons. split; [exact Hwf|]. split; [exact Hcons|].
  intros r c Hr Hc. destruct (rawAt g' r c) as [d|] eqn:Ed.
  - exists d. split; [reflexivity|].
    destruct (Hnew r c d Hr Hc Ed) as [H|H]; [apply (Hdig r c d Hr Hc H)|exact H].
  - destruct (Hfull r c Hr Hc Ed).
Qed.

(** X6. [fillGrid] is a sound and complete solver.  On a 9x9 grid without
    conflict whose digits are 1..9, with a nesting bound above the number of
    empty cells, it returns: [true] with a solved grid that keeps every given
    digit, or [false] with the grid exactly as it was; and it returns [true]
    exactly when some solved grid contains the given digits, whatever the
    random draws. *)
Theorem fillGrid_solves (depth : nat) (g : SudokuGrid) (rng : Rng) :
  wf9 g → consistent g → digitsInRange g → emptyCount g < depth →
  ∃ b g' rng', fillGrid depth g rng = Some (b, g', rng')
    ∧ (b = true → solution g' ∧ extends g g')
    ∧ (b = false → g' = g)
    ∧ (b = true ↔ ∃ sol, solution sol ∧ extends g sol).
Proof.
  intros Hwf Hcons Hdig Hlt.
  destruct (fillGrid_enough_depth depth g rng Hwf Hcons Hlt) as ([[b g'] rng'] & Hres & Hpost).
  exists b, g', rng'. split; [exact Hres|].
  unfold fillPost in Hpost. simpl in Hpost. destruct b.
  - destruct Hpost as (Hwf' & Hfull & Hcons').
    pose proof (fillGrid_grows depth g rng g' rng' Hwf Hcons Hlt Hres) as Hgrow.
    assert (Hsol : solution g') by (apply (full_grows_solution g); assumption).
    split; [intros _; split; [exact Hsol|apply Hgrow]|].
    split; [discriminate|].
    split; [intros _; exists g'; split; [exact Hsol|apply Hgrow]|reflexivity].
  - destruct Hpost as [Heq Hno].
    split; [discriminate|]. split; [intros _; exact Heq|].
    split; [discriminate|]. intros (sol & Hsol & Hext). destruct (Hno sol Hsol Hext).
Qed.

Lemma extends_lastCellPuzzle : extends lastCellPuzzle solvedGrid.
Proof.
  intros r c d Hr Hc. unfold lastCellPuzzle.
  destruct solvedGrid_solution as (Hwf & _).
  rewrite rawAt_setRaw by (assumption || lia).
  destruct (decide (r = 0 ∧ c = 0)); [discriminate|]. auto.
Qed.

(** The one missing digit of [lastCellPuzzle] is found. *)
Lemma fillGrid_solves_witness :
  wf9 lastCellPuzzle ∧ consistent lastCellPuzzle ∧ digitsInRange lastCellPuzzle
  ∧ emptyCount lastCellPuzzle < 2
  ∧ ∃ g' rng', fillGrid 2 lastCellPuzzle (λ _, 0) = Some (true, g', rng')
      ∧ solution g' ∧ extends lastCellPuzzle g'.
Proof.
  assert (Hwf : wf9 lastCellPuzzle) by (apply wf9b_sound; vm_compute; reflexivity).
  assert (Hcons : consistent lastCellPuzzle)
    by (apply consistentb_sound; vm_compute; reflexivity).
  assert (Hdig : digitsInRange lastCellPuzzle).
  { intros r c d Hr Hc Hd. apply extends_lastCellPuzzle in Hd; try assumption.
    destruct solvedGrid_solution as (_ & _ & Hs).
    destruct (Hs r c Hr Hc) as (d' & Hd' & Hrange). congruence. }
  assert (Hlt : emptyCount lastCellPuzzle < 2) by (vm_compute; lia).
  destruct (fillGrid_solves 2 lastCellPuzzle (λ _, 0) Hwf Hcons Hdig Hlt)
    as (b & g' & rng' & Hres & Htrue & _ & Hiff).
  assert (Hb : b = true).
  { apply Hiff. exists solvedGrid. split; [exact solvedGrid_solution|].
    exact extends_lastCellPuzzle. }
  subst b. destruct (Htrue eq_refl) as [Hsol Hext].
  split; [exact Hwf|]. split; [exact Hcons|]. split; [exact Hdig|]. split; [exact Hlt|].
  exists g', rng'. auto.
Defined.

Lemma wf9_clearCells (ps : list (nat * nat)) (g : SudokuGrid) :
  wf9 g → wf9 (clearCells g ps).
Proof.
  revert g. induction ps as [|p ps IH]; intros g Hwf; [exact Hwf|].
  apply (IH (setRaw g p.1 p.2 None)), wf9_setRaw, Hwf.
Qed.

(** The grid after the loop of [removeCells]: empty at the visited
    positions, untouched elsewhere. *)
Lemma rawAt_clearCells (ps : list (nat * nat)) (g : SudokuGrid) (r c : nat) :
  wf9 g → (∀ p, p ∈ ps → p.1 < 9 ∧ p.2 < 9) →
  rawAt (clearCells g ps) r c = if decide ((r, c) ∈ ps) then None else rawAt g r c.
Proof.
  revert g. induction ps as [|p ps IH]; intros g Hwf Hrange.
  - rewrite decide_False by apply not_elem_of_nil. reflexivity.
  - change (clearCells g (p :: ps)) with (clearCells (setRaw g p.1 p.2 None) ps).
    destruct (Hrange p ltac:(left)) as [Hp1 Hp2].
    rewrite IH; [|apply wf9_setRaw, Hwf|intros q Hq; apply Hrange; right; exact Hq].
    rewrite rawAt_setRaw by assumption.
    destruct (decide ((r, c) ∈ ps)) as [Hin|Hnin].
    + rewrite decide_True by (right; exact Hin). reflexivity.
    + destruct (decide (r = p.1 ∧ c = p.2)) as [[-> ->]|Hne].
      * rewrite decide_True; [reflexivity|]. destruct p. left.
      * rewrite decide_False; [reflexivity|].
        intros Hin. apply elem_of_cons in Hin as [E|Hin]; [|contradiction].
        apply Hne. rewrite <- E. auto.
Qed.

Lemma emptyCount_clearCells (ps : list (nat * nat)) (g : SudokuGrid) :
  wf9 g → NoDup ps →
  (∀ p, p ∈ ps → p.1 < 9 ∧ p.2 < 9) →
  (∀ p, p ∈ ps → rawAt g p.1 p.2 ≠ None) →
  emptyCount (clearCells g ps) = emptyCount g + length ps.
Proof.
  intros Hwf Hnd. revert g Hwf.
  induction Hnd as [|p ps Hp Hnd IH]; intros g Hwf Hrange Hfilled.
  - simpl. lia.
  - destruct (Hrange p ltac:(left)) as [Hp1 Hp2].
    change (clearCells g (p :: ps)) with (clearCells (setRaw g p.1 p.2 None) ps).
    rewrite IH.
    + pose proof (emptyCount_setRaw g p.1 p.2 None Hwf Hp1 Hp2) as Hc.
      specialize (Hfilled p ltac:(left)).
      unfold nullWeight in Hc. destruct (rawAt g p.1 p.2); [|congruence].
      cbn [isNull length] in *. lia.
    + apply wf9_setRaw, Hwf.
    + intros q Hq. apply Hrange. right. exact Hq.
    + intros q Hq. rewrite rawAt_setRaw_other; try assumption.
      * apply Hfilled. right. exact Hq.
      * intros E. apply Hp. destruct p, q. simpl in E. injection E as <- <-. exact Hq.
Qed.

Lemma removed_cells_in_range (count : nat) (rng : Rng) (p : nat * nat) :
  p ∈ take count (shuffleArray allCells rng).1 → p.1 < 9 ∧ p.2 < 9.
Proof.
  intros Hp. apply subseteq_take in Hp.
  rewrite (shuffleArray_Permutation allCells rng) in Hp.
  apply list_elem_of_In, In_allCells in Hp. exact Hp.
Qed.

Lemma removeCells_only_empties_aux (g : SudokuGrid) (count : nat) (rng : Rng) :
  wf9 g → wf9 (removeCells g count rng).1 ∧ extends (removeCells g count rng).1 g.
Proof.
  intros Hwf. rewrite removeCells_eq. cbn [fst snd].
  split; [apply wf9_clearCells, Hwf|].
  intros r c d Hr Hc.
  rewrite rawAt_clearCells; [|exact Hwf|apply removed_cells_in_range].
  case_decide; [discriminate|auto].
Qed.

(** X7. [removeCells] only empties cells: on a 9x9 grid the result is 9x9
    and every digit it still has is the digit of the argument at that place.
    With [count = 0] the grid is unchanged, with [count] of 81 or more every
    cell is empty, and on a completely filled grid exactly [min count 81]
    cells are empty afterwards. *)
Theorem removeCells_only_empties (g : SudokuGrid) (count : nat) (rng : Rng) :
  wf9 g →
  let g' := (removeCells g count rng).1 in
  wf9 g'
  ∧ extends g' g
  ∧ (count = 0 → g' = g)
  ∧ (81 ≤ count → ∀ r c, r < 9 → c < 9 → rawAt g' r c = None)
  ∧ (full g → emptyCount g' = count `min` 81).
Proof.
  intros Hwf. cbv zeta. rewrite removeCells_eq. cbn [fst snd].
  pose proof (shuffleArray_Permutation allCells rng) as Hperm.
  pose proof (removed_cells_in_range count rng) as Hin.
  set (cells := (shuffleArray allCells rng).1) in *.
  assert (Hlen : length cells = 81) by (rewrite Hperm; reflexivity).
  split; [apply wf9_clearCells, Hwf|].
  split; [|split; [|split]].
  - intros r c d Hr Hc. rewrite rawAt_clearCells by assumption.
    case_decide; [discriminate|auto].
  - intros ->. rewrite take_0. reflexivity.
  - intros Hcount r c Hr Hc. rewrite rawAt_clearCells by assumption.
    rewrite decide_True; [reflexivity|].
    rewrite take_ge by lia. rewrite Hperm.
    apply list_elem_of_In, In_allCells. simpl. auto.
  - intros Hfull. rewrite emptyCount_clearCells.
    + rewrite (emptyCount_full g Hwf Hfull), length_take, Hlen. reflexivity.
    + exact Hwf.
    + apply (sublist_NoDup _ cells); [|apply sublist_take].
      rewrite Hperm. apply (NoDup_cellsOf (seq 0 9) (seq 0 9)); apply NoDup_seq.
    + exact Hin.
    + intros p Hp. destruct (Hin p Hp). apply Hfull; assumption.
Qed.

Lemma removeCells_only_empties_witness :
  wf9 solvedGrid ∧ full solvedGrid
  ∧ emptyCount (removeCells solvedGrid 100 (λ k, k)).1 = 81
  ∧ (removeCells solvedGrid 0 (λ k, k)).1 = solvedGrid.
Proof.
  destruct solvedGrid_solution as (Hwf & _ & Hdig).
  assert (Hfull : full solvedGrid).
  { intros r c Hr Hc. destruct (Hdig r c Hr Hc) as (d & -> & _). discriminate. }
  destruct (removeCells_only_empties solvedGrid 100 (λ k, k) Hwf) as (_ & _ & _ & _ & H100).
  destruct (removeCells_only_empties solvedGrid 0 (λ k, k) Hwf) as (_ & _ & H0 & _).
  split; [exact Hwf|]. split; [exact Hfull|].
  split; [exact (H100 Hfull)|exact (H0 eq_refl)].
Defined.

(** X8. Every generated puzzle is solvable and made of digits 1..9: it is
    contained in a solved grid (the one [fillGrid] built before cells were
    removed). Nothing is said about the solution being unique. *)
Theorem generated_puzzle_solvable (rng : Rng) :
  ∃ g rng' sol, generateRandomSudoku rng = Some (g, rng')
    ∧ solution sol ∧ extends g sol ∧ digitsInRange g.
Proof.
  destruct (fillGrid_emptyGrid rng) as (g0 & rng1 & Hfill & Hwf & Hfull & Hcons).
  assert (Hgrow : grows emptyGrid g0).
  { apply (fillGrid_grows 82 emptyGrid rng g0 rng1); try assumption.
    - exact wf9_emptyGrid.
    - intros r c r' c' d _ _ _ _ _ _ Hd. rewrite rawAt_emptyGrid in Hd. discriminate.
    - assert (E : emptyCount emptyGrid = 81) by (vm_compute; reflexivity). lia. }
  assert (Hsol : solution g0).
  { apply (full_grows_solution emptyGrid); try assumption.
    intros r c d _ _ Hd. rewrite rawAt_emptyGrid in Hd. discriminate. }
  unfold generateRandomSudoku. rewrite Hfill. unfold randomBelow. cbv zeta.
  set (count := 45 + rng1 0 mod 6). set (rng2 := λ k, rng1 (S k)).
  destruct (removeCells_only_empties_aux g0 count rng2 Hwf) as [_ Hext].
  destruct (removeCells g0 count rng2) as [g rng'] eqn:E. cbn [fst snd] in *.
  exists g, rng', g0. split; [reflexivity|]. split; [exact Hsol|]. split; [exact Hext|].
  intros r c d Hr Hc Hd. destruct Hsol as (_ & _ & Hdig).
  destruct (Hdig r c Hr Hc) as (d' & Hd' & Hrange).
  rewrite (Hext r c d Hr Hc Hd) in Hd'. injection Hd' as <-. exact Hrange.
Qed.

(** ** More on sessions *)

(** A property of grids kept by every edit is kept, for the current grid
    and all snapshots, by every operation. *)
Lemma allGrids_applyOp (P : list (list SudokuCell) → Prop) (s : Session) (op : Op) :
  (∀ g row col v, P g → P (updateValidation (setValue g row col v))) →
  allGrids P s → allGrids P (applyOp s op).
Proof.
  intros Hedit [Hg Hh]. destruct op as [row col|num| |]; simpl.
  - unfold handleCellClick. destruct (cellAt (grid s) row col); split; assumption.
  - unfold handleNumberInput.
    destruct (selectedCell s) as [[row col]|]; [|split; assumption].
    destruct (cellAt (grid s) row col) as [current|]; [|split; assumption].
    destruct (isFixed current); [split; assumption|]. cbv zeta.
    split; [apply Hedit, Hg|]. simpl.
    intros h Hin. apply elem_of_app in Hin as [Hin|Hin]; [auto|].
    apply list_elem_of_singleton in Hin. subst h. apply Hedit, Hg.
  - unfold handleClear.
    destruct (selectedCell s) as [[row col]|]; [|split; assumption].
    destruct (cellAt (grid s) row col) as [current|]; [|split; assumption].
    destruct (isFixed current); [split; assumption|]. cbv zeta.
    split; [apply Hedit, Hg|]. simpl.
    intros h Hin. apply elem_of_app in Hin as [Hin|Hin]; [auto|].
    apply list_elem_of_singleton in Hin. subst h. apply Hedit, Hg.
  - unfold handleUndo. destruct (length (moveHistory s) <=? 1); [split; assumption|].
    cbv zeta. destruct (last _) as [top|] eqn:El; [|split; assumption]. simpl.
    split.
    + apply Hh, (subseteq_take (length (moveHistory s) - 1)), last_Some_elem_of, El.
    + intros h Hin. apply Hh, (subseteq_take (length (moveHistory s) - 1)), Hin.
Qed.

Lemma allGrids_run (P : list (list SudokuCell) → Prop) (ops : list Op) (s : Session) :
  (∀ g row col v, P g → P (updateValidation (setValue g row col v))) →
  allGrids P s → allGrids P (run ops s).
Proof.
  intros Hedit. revert s. induction ops as [|op ops IH]; intros s H; [exact H|].
  apply (IH (applyOp s op)), allGrids_applyOp; assumption.
Qed.

Lemma allGrids_createSession (P : list (list SudokuCell) → Prop) (seed : SudokuGrid) :
  P (annotate seed) → allGrids P (createSession seed).
Proof.
  intros H. split; [exact H|]. simpl. intros h Hin.
  apply list_elem_of_singleton in Hin. subst h. exact H.
Qed.

Lemma lives_applyOp (s : Session) (op : Op) :
  lives (applyOp s op) = lives s ∨ lives (applyOp s op) = Z.max 0 (lives s - 1).
Proof.
  destruct op as [row col|num| |]; simpl.
  - unfold handleCellClick. destruct (cellAt (grid s) row col); left; reflexivity.
  - unfold handleNumberInput.
    destruct (selectedCell s) as [[row col]|]; [|left; reflexivity].
    destruct (cellAt (grid s) row col) as [current|]; [|left; reflexivity].
    destruct (isFixed current); [left; reflexivity|]. cbv zeta. simpl.
    destruct (negb _ && _); [right|left]; reflexivity.
  - unfold handleClear.
    destruct (selectedCell s) as [[row col]|]; [|left; reflexivity].
    destruct (cellAt (grid s) row col) as [current|]; [|left; reflexivity].
    destruct (isFixed current); left; reflexivity.
  - unfold handleUndo. destruct (length (moveHistory s) <=? 1); [left; reflexivity|].
    cbv zeta. destruct (last _); left; reflexivity.
Qed.

Lemma lives_run (ops : list Op) (s : Session) :
  (0 ≤ lives s)%Z → (0 ≤ lives (run ops s) ≤ lives s)%Z.
Proof.
  revert s. induction ops as [|op ops IH]; intros s H0; [simpl; lia|].
  change (run (op :: ops) s) with (run ops (applyOp s op)).
  destruct (lives_applyOp s op) as [E|E];
    (destruct (IH (applyOp s op)) as [H1 H2]; [rewrite E; lia|]); rewrite E in H2; lia.
Qed.

(** X9. In a session created from a 9x9 seed the lives start at 3 and no
    sequence of select, input, clear and undo operations ever raises them:
    they stay between 0 and 3, an undo does not give a life back, and once
    they are 0 they stay 0. *)
Theorem lives_never_increase (seed : SudokuGrid) (ops more : list Op) :
  wf9 seed →
  let s := run ops (createSession seed) in
  (0 ≤ lives (run more s) ≤ lives s)%Z ∧ (lives s ≤ 3)%Z
  ∧ (lives s = 0%Z → lives (run more s) = 0%Z).
Proof.
  intros _. cbv zeta.
  assert (H0 : (0 ≤ lives (run ops (createSession seed)) ≤ 3)%Z).
  { apply (lives_run ops (createSession seed)). simpl. lia. }
  pose proof (lives_run more (run ops (createSession seed)) ltac:(lia)) as H1.
  split; [exact H1|]. split; [lia|]. intros E. lia.
Qed.

Lemma lives_never_increase_witness :
  wf9 scenarioPuzzle
  ∧ lives (run [OpSelect 0 1; OpInput 7] (createSession scenarioPuzzle)) = 2%Z
  ∧ (0 ≤ lives (run [OpUndo] (run [OpSelect 0 1; OpInput 7] (createSession scenarioPuzzle)))
       ≤ 2)%Z.
Proof.
  assert (Hwf : wf9 scenarioPuzzle) by (apply wf9b_sound; vm_compute; reflexivity).
  destruct (lives_never_increase scenarioPuzzle [OpSelect 0 1; OpInput 7] [OpUndo] Hwf)
    as (H & _ & _).
  split; [exact Hwf|]. split; [reflexivity|exact H].
Defined.

Lemma currentPuzzle_applyOp (s : Session) (op : Op) :
  currentPuzzle (applyOp s op) = currentPuzzle s.
Proof.
  destruct op as [row col|num| |]; simpl.
  - unfold handleCellClick. destruct (cellAt (grid s) row col); reflexivity.
  - unfold handleNumberInput.
    destruct (selectedCell s) as [[row col]|]; [|reflexivity].
    destruct (cellAt (grid s) row col) as [current|]; [|reflexivity].
    destruct (isFixed current); reflexivity.
  - unfold handleClear.
    destruct (selectedCell s) as [[row col]|]; [|reflexivity].
    destruct (cellAt (grid s) row col) as [current|]; [|reflexivity].
    destruct (isFixed current); reflexivity.
  - unfold handleUndo. destruct (length (moveHistory s) <=? 1); [reflexivity|].
    cbv zeta. destruct (last _); reflexivity.
Qed.

Lemma currentPuzzle_run (ops : list Op) (s : Session) :
  currentPuzzle (run ops s) = currentPuzzle s.
Proof.
  revert s. induction ops as [|op ops IH]; intros s; [reflexivity|].
  change (run (op :: ops) s) with (run ops (applyOp s op)).
  rewrite IH. apply currentPuzzle_applyOp.
Qed.

(** X10. Reset is a round trip: whatever select, input, clear and undo
    operations were applied to a session created from a 9x9 seed, and
    whatever the timer did meanwhile, [handleReset] gives back exactly the
    session as it was created from that seed (lives 3, timer 0 and running,
    no selection, one snapshot). *)
Theorem reset_restores_creation (seed : SudokuGrid) (ops : list Op) :
  wf9 seed →
  let s := run ops (createSession seed) in
  (handleReset s).1 = createSession seed
  ∧ (handleReset (tick s)).1 = createSession seed
  ∧ (handleReset (handlePauseTimer s).1).1 = createSession seed.
Proof.
  intros _. cbv zeta. unfold handleReset. simpl.
  assert (E : currentPuzzle (run ops (createSession seed)) = seed)
    by (rewrite currentPuzzle_run; reflexivity).
  split; [rewrite E; reflexivity|]. split; [|rewrite E; reflexivity].
  unfold tick. destruct (isTimerRunning _); simpl; rewrite E; reflexivity.
Qed.

Lemma reset_restores_creation_witness :
  wf9 scenarioPuzzle
  ∧ (handleReset (run [OpSelect 0 1; OpInput 7; OpInput 7; OpInput 5]
                    (createSession scenarioPuzzle))).1
    = createSession scenarioPuzzle.
Proof.
  assert (Hwf : wf9 scenarioPuzzle) by (apply wf9b_sound; vm_compute; reflexivity).
  split; [exact Hwf|].
  apply (reset_restores_creation scenarioPuzzle _ Hwf).
Defined.

(** The session after an editing [handleNumberInput]. *)
Lemma handleNumberInput_history (num : nat) (s : Session) (row col : nat)
    (current : SudokuCell) :
  editable s row col current →
  let s1 := (handleNumberInput num s).1 in
  moveHistory s1 = moveHistory s ++ [{| h_grid := grid s1; h_selectedCell := selectedCell s |}]
  ∧ selectedCell s1 = selectedCell s.
Proof.
  intros (Hsel & Hcell & Hfix). cbv zeta.
  unfold handleNumberInput. rewrite Hsel, Hcell, Hfix. cbv zeta. simpl. auto.
Qed.

Lemma handleUndo_after_push (s1 : Session) (hist : list MoveHistory) (snap top : MoveHistory) :
  moveHistory s1 = hist ++ [snap] → last hist = Some top →
  let s2 := (handleUndo s1).1 in
  moveHistory s2 = hist ∧ grid s2 = h_grid top ∧ selectedCell s2 = h_selectedCell top
  ∧ isComplete s2 = false ∧ lives s2 = lives s1 ∧ isTimerRunning s2 = isTimerRunning s1.
Proof.
  intros Hhist Htop. cbv zeta. unfold handleUndo. rewrite Hhist, length_app. simpl.
  assert (Hlen : 1 ≤ length hist).
  { destruct hist; [discriminate|simpl; lia]. }
  destruct (Nat.leb_spec (length hist + 1) 1) as [Hle|_]; [lia|].
  replace (length hist + 1 - 1) with (length hist) by lia.
  rewrite take_app_length, Htop. simpl. repeat split; reflexivity.
Qed.

(** X11. Undo takes back an entry: in a session reached from a 9x9 seed,
    after an editing [handleNumberInput] an undo restores the grid (with its
    validity flags) and the history exactly as they were and clears
    [isComplete], but the lives stay as the entry left them. *)
Theorem undo_takes_back_input (seed : SudokuGrid) (ops : list Op) (num : nat)
    (row col : nat) (current : SudokuCell) :
  wf9 seed →
  let s := run ops (createSession seed) in
  editable s row col current →
  let s1 := (handleNumberInput num s).1 in
  let s2 := (handleUndo s1).1 in
  grid s2 = grid s ∧ moveHistory s2 = moveHistory s
  ∧ isComplete s2 = false ∧ lives s2 = lives s1.
Proof.
  intros _. cbv zeta. intros Hed.
  assert (Hinit : historyInv (createSession seed)) by (eexists; split; reflexivity).
  destruct (historyInv_run ops _ Hinit) as (top & Htop & Hgrid).
  destruct (handleNumberInput_history num _ row col current Hed) as [Hpush _].
  destruct (handleUndo_after_push _ _ _ top Hpush Htop) as (H1 & H2 & _ & H4 & H5 & _).
  rewrite H2, Hgrid. auto.
Qed.

Lemma undo_takes_back_input_witness :
  wf9 scenarioPuzzle
  ∧ editable scenario 0 1 {| value := None; isFixed := false; isValid := true |}
  ∧ grid (handleUndo (handleNumberInput 7 scenario).1).1 = grid scenario
  ∧ lives (handleUndo (handleNumberInput 7 scenario).1).1 = 2%Z.
Proof.
  assert (Hwf : wf9 scenarioPuzzle) by (apply wf9b_sound; vm_compute; reflexivity).
  assert (Hed : editable scenario 0 1 {| value := None; isFixed := false; isValid := true |}).
  { repeat split; reflexivity. }
  destruct (undo_takes_back_input scenarioPuzzle [OpSelect 0 1] 7 0 1 _ Hwf Hed)
    as (Hg & _ & _ & Hl).
  split; [exact Hwf|]. split; [exact Hed|]. split; [exact Hg|].
  exact (eq_trans Hl eq_refl).
Defined.

Lemma headInv_applyOp (seed : SudokuGrid) (s : Session) (op : Op) :
  headInv seed s → headInv seed (applyOp s op).
Proof.
  intros [rest Hrest]. destruct op as [row col|num| |]; simpl.
  - unfold handleCellClick. destruct (cellAt (grid s) row col); exists rest; exact Hrest.
  - unfold handleNumberInput.
    destruct (selectedCell s) as [[row col]|]; [|exists rest; exact Hrest].
    destruct (cellAt (grid s) row col) as [current|]; [|exists rest; exact Hrest].
    destruct (isFixed current); [exists rest; exact Hrest|]. cbv zeta.
    unfold headInv. simpl. rewrite Hrest. eexists. reflexivity.
  - unfold handleClear.
    destruct (selectedCell s) as [[row col]|]; [|exists rest; exact Hrest].
    destruct (cellAt (grid s) row col) as [current|]; [|exists rest; exact Hrest].
    destruct (isFixed current); [exists rest; exact Hrest|]. cbv zeta.
    unfold headInv. simpl. rewrite Hrest. eexists. reflexivity.
  - unfold handleUndo.
    destruct (Nat.leb_spec (length (moveHistory s)) 1) as [Hle|Hgt];
      [exists rest; exact Hrest|].
    cbv zeta. destruct (last _) as [top|]; [|exists rest; exact Hrest].
    unfold headInv. simpl. rewrite Hrest in *. simpl in Hgt.
    destruct rest as [|h rest]; [simpl in Hgt; lia|].
    simpl. eexists. reflexivity.
Qed.

Lemma headInv_run (seed : SudokuGrid) (ops : list Op) (s : Session) :
  headInv seed s → headInv seed (run ops s).
Proof.
  revert s. induction ops as [|op ops IH]; intros s H; [exact H|].
  apply (IH (applyOp s op)), headInv_applyOp, H.
Qed.

Lemma undo_behaviour_aux (s : Session) :
  1 < length (moveHistory s) →
  ∃ popped top,
    moveHistory s = moveHistory (handleUndo s).1 ++ [popped]
    ∧ last (moveHistory (handleUndo s).1) = Some top
    ∧ grid (handleUndo s).1 = h_grid top
    ∧ selectedCell (handleUndo s).1 = h_selectedCell top.
Proof.
  intros H. unfold handleUndo.
  destruct (Nat.leb_spec (length (moveHistory s)) 1) as [Hle|_]; [lia|].
  destruct (moveHistory s) as [|h hs] eqn:Eh using rev_ind; [simpl in H; lia|].
  clear IHhs. rewrite length_app in *. simpl in *.
  replace (length hs + 1 - 1) with (length hs) by lia.
  rewrite take_app_length.
  destruct (last hs) as [top|] eqn:El.
  - simpl. exists h, top. rewrite El. repeat split; reflexivity.
  - apply last_None in El. subst hs. simpl in H. lia.
Qed.

Lemma undo_at_floor (s : Session) (n : nat) :
  length (moveHistory s) ≤ 1 → run (replicate n OpUndo) s = s.
Proof.
  intros Hlen. induction n as [|n IH]; [reflexivity|].
  change (run (replicate (S n) OpUndo) s) with (run (replicate n OpUndo) (applyOp s OpUndo)).
  assert (E : applyOp s OpUndo = s).
  { simpl. unfold handleUndo.
    destruct (Nat.leb_spec (length (moveHistory s)) 1) as [_|Hgt]; [reflexivity|lia]. }
  rewrite E. exact IH.
Qed.

Lemma undo_to_floor (seed : SudokuGrid) (n : nat) (s : Session) :
  headInv seed s → historyInv s → length (moveHistory s) - 1 ≤ n →
  let s' := run (replicate n OpUndo) s in
  moveHistory s' = [initialSnapshot seed] ∧ grid s' = annotate seed
  ∧ (1 < length (moveHistory s) → selectedCell s' = None).
Proof.
  revert s. induction n as [|n IH]; intros s Hhead Hinv Hn; cbv zeta.
  - destruct Hhead as [rest Hrest]. destruct Hinv as (top & Htop & Hgrid).
    rewrite Hrest in *. destruct rest as [|h rest]; [|simpl in Hn; lia].
    simpl in *. injection Htop as <-. split; [exact Hrest|].
    split; [symmetry; exact Hgrid|simpl; lia].
  - change (run (replicate (S n) OpUndo) s)
      with (run (replicate n OpUndo) (applyOp s OpUndo)).
    pose proof (headInv_applyOp seed s OpUndo Hhead) as Hhead'.
    pose proof (historyInv_applyOp s OpUndo Hinv) as Hinv'.
    destruct (Nat.le_gt_cases (length (moveHistory s)) 1) as [Hle|Hgt].
    + assert (E : applyOp s OpUndo = s).
      { simpl. unfold handleUndo.
        destruct (Nat.leb_spec (length (moveHistory s)) 1) as [_|Hgt]; [reflexivity|lia]. }
      rewrite E in *. destruct (IH s Hhead Hinv ltac:(lia)) as (H1 & H2 & _).
      split; [exact H1|]. split; [exact H2|lia].
    + destruct (undo_behaviour_aux s Hgt) as (popped & top & Hpop & Htop & _ & Hsel).
      assert (Hlen : length (moveHistory (applyOp s OpUndo)) = length (moveHistory s) - 1).
      { apply (f_equal length) in Hpop. rewrite length_app in Hpop. simpl in *. lia. }
      destruct (IH (applyOp s OpUndo) Hhead' Hinv' ltac:(lia)) as (H1 & H2 & H3).
      split; [exact H1|]. split; [exact H2|]. intros _.
      destruct (Nat.le_gt_cases (length (moveHistory (applyOp s OpUndo))) 1) as [Hle'|Hgt'].
      * rewrite (undo_at_floor _ n Hle'). simpl in Hsel |- *. rewrite Hsel.
        destruct Hhead' as [rest Hrest]. simpl in Hrest, Htop, Hle'.
        rewrite Hrest in Htop, Hle'. destruct rest; [|simpl in Hle'; lia].
        simpl in Htop. injection Htop as <-. reflexivity.
      * apply H3, Hgt'.
Qed.

(** X12. Undo has a floor and reaches it: from any session reached from a
    9x9 seed, undoing at least as many times as there are snapshots beyond
    the first leaves exactly the initial snapshot, the grid of the puzzle as
    created and, if anything was undone, no selection; further undos change
    nothing. *)
Theorem undo_down_to_start (seed : SudokuGrid) (ops : list Op) (n : nat) :
  wf9 seed →
  let s := run ops (createSession seed) in
  length (moveHistory s) - 1 ≤ n →
  let s' := run (replicate n OpUndo) s in
  moveHistory s' = [initialSnapshot seed] ∧ grid s' = annotate seed
  ∧ (1 < length (moveHistory s) → selectedCell s' = None)
  ∧ applyOp s' OpUndo = s'.
Proof.
  intros _. cbv zeta. intros Hn.
  assert (Hhead : headInv seed (run ops (createSession seed))).
  { apply headInv_run. exists []. reflexivity. }
  assert (Hinv : historyInv (run ops (createSession seed))).
  { apply historyInv_run. eexists. split; reflexivity. }
  destruct (undo_to_floor seed n _ Hhead Hinv Hn) as (H1 & H2 & H3).
  split; [exact H1|]. split; [exact H2|]. split; [exact H3|].
  simpl. unfold handleUndo. rewrite H1. reflexivity.
Qed.

Lemma undo_down_to_start_witness :
  wf9 scenarioPuzzle
  ∧ grid (run (replicate 5 OpUndo)
            (run [OpSelect 0 1; OpInput 7; OpInput 5; OpClear] (createSession scenarioPuzzle)))
    = annotate scenarioPuzzle.
Proof.
  assert (Hwf : wf9 scenarioPuzzle) by (apply wf9b_sound; vm_compute; reflexivity).
  split; [exact Hwf|].
  destruct (undo_down_to_start scenarioPuzzle
              [OpSelect 0 1; OpInput 7; OpInput 5; OpClear] 5 Hwf) as (_ & H & _).
  - vm_compute. lia.
  - exact H.
Defined.

Lemma cellAt_annotate (seed : SudokuGrid) (r c : nat) :
  wf9 seed → r < 9 → c < 9 →
  cellAt (annotate seed) r c =
  Some {| value := rawAt seed r c; isFixed := negb (isNull (rawAt seed r c));
          isValid := true |}.
Proof.
  intros Hwf Hr Hc. destruct (cellAt_wf9 seed r c Hwf Hr Hc) as (row & x & Hrow & Hx).
  unfold cellAt, rawAt, annotate.
  change (map ?f seed) with (f <$> seed). rewrite list_lookup_fmap, Hrow. simpl.
  change (map ?f row) with (f <$> row). rewrite list_lookup_fmap, Hx. reflexivity.
Qed.

(** The flags [isValid: true] set at creation are the ones revalidation
    computes when the seed has no conflict. *)
Lemma annotate_validated (seed : SudokuGrid) :
  wf9 seed → consistent seed → validated (annotate seed).
Proof.
  intros Hwf Hcons. split; [apply wf9_annotate, Hwf|].
  apply list_eq. intros r. rewrite updateValidation_lookup.
  destruct (annotate seed !! r) as [row|] eqn:Er; [|reflexivity]. simpl. f_equal.
  apply list_eq. intros c. rewrite list_lookup_imap.
  destruct (row !! c) as [cell|] eqn:Ec; [|reflexivity]. simpl. f_equal.
  destruct (cellAt_in_range _ r c row cell (wf9_annotate _ Hwf) Er Ec) as [Hr Hc].
  pose proof (cellAt_annotate seed r c Hwf Hr Hc) as Hcell.
  unfold cellAt in Hcell. rewrite Er, Ec in Hcell. injection Hcell as ->. simpl.
  destruct (rawAt seed r c) as [d|] eqn:Ed; [|reflexivity].
  f_equal. apply isValidMove_spec; try assumption.
  intros r' c' Hr' Hc' Hne Hpeer. rewrite valueAt_annotate.
  apply (Hcons r c r' c' d); assumption.
Qed.

Lemma validated_edit (g : list (list SudokuCell)) (row col : nat) (v : option nat) :
  validated g → validated (updateValidation (setValue g row col v)).
Proof.
  intros [Hwf _]. split.
  - apply wf9_updateValidation, wf9_setValue, Hwf.
  - apply updateValidation_twice.
Qed.

(** X13. The validity flags of a session are always truthful: in every
    state reached by select, input, clear and undo from a 9x9 seed without
    conflict, the grid is 9x9 and a cell is marked valid exactly when it is
    empty or no other cell of its row, column or box holds its value. *)
Theorem flags_always_truthful (seed : SudokuGrid) (ops : list Op)
    (r c : nat) (cell : SudokuCell) :
  wf9 seed → consistent seed →
  let s := run ops (createSession seed) in
  cellAt (grid s) r c = Some cell →
  r < 9 ∧ c < 9
  ∧ (isValid cell = true ↔
     value cell = None ∨ ∃ d, value cell = Some d ∧ noOtherHolds (valueAt (grid s)) r c d).
Proof.
  intros Hwf Hcons. cbv zeta. intros Hcell.
  destruct (allGrids_run validated ops (createSession seed) validated_edit
              (allGrids_createSession validated seed (annotate_validated seed Hwf Hcons)))
    as [[Hwf' Hval] _].
  destruct (cellAt_Some_range _ r c cell Hwf' Hcell) as [Hr Hc].
  split; [exact Hr|]. split; [exact Hc|].
  destruct (updateValidation_flag _ r c cell Hr Hc Hcell) as (cell' & Hcell' & _ & _ & Hiff & _).
  rewrite Hval, Hcell in Hcell'. injection Hcell' as <-. exact Hiff.
Qed.

Lemma consistent_scenarioPuzzle : consistent scenarioPuzzle.
Proof. apply consistentb_sound. vm_compute. reflexivity. Qed.

Lemma wf9_scenarioPuzzle : wf9 scenarioPuzzle.
Proof. apply wf9b_sound. vm_compute. reflexivity. Qed.

Lemma flags_always_truthful_witness :
  wf9 scenarioPuzzle ∧ consistent scenarioPuzzle
  ∧ cellAt (grid (run [OpSelect 0 1; OpInput 7] (createSession scenarioPuzzle))) 0 0
    = Some {| value := Some 7; isFixed := true; isValid := false |}
  ∧ ¬ noOtherHolds
        (valueAt (grid (run [OpSelect 0 1; OpInput 7] (createSession scenarioPuzzle)))) 0 0 7.
Proof.
  split; [exact wf9_scenarioPuzzle|]. split; [exact consistent_scenarioPuzzle|].
  assert (Hcell : cellAt (grid (run [OpSelect 0 1; OpInput 7] (createSession scenarioPuzzle)))
                    0 0 = Some {| value := Some 7; isFixed := true; isValid := false |})
    by reflexivity.
  split; [exact Hcell|].
  destruct (flags_always_truthful scenarioPuzzle [OpSelect 0 1; OpInput 7] 0 0 _
              wf9_scenarioPuzzle consistent_scenarioPuzzle Hcell) as (_ & _ & Hiff).
  intros Hno. assert (Hf : false = true); [|discriminate].
  apply Hiff. right. exists 7. split; [reflexivity|exact Hno].
Defined.

Lemma keepsFixed_run (seed : SudokuGrid) (ops : list Op) :
  keepsFixed (annotate seed) (grid (run ops (createSession seed))).
Proof.
  assert (Hinit : fixedInv (annotate seed) (createSession seed)).
  { split; [apply keepsFixed_refl|]. simpl. intros h Hin.
    apply list_elem_of_singleton in Hin. subst h. apply keepsFixed_refl. }
  apply (fixedInv_run _ ops _ Hinit).
Qed.

Lemma wf9_edit (g : list (list SudokuCell)) (row col : nat) (v : option nat) :
  wf9 g → wf9 (updateValidation (setValue g row col v)).
Proof. intros H. apply wf9_updateValidation, wf9_setValue, H. Qed.

(** X14. The shape and the fixed cells of a session follow the seed: in
    every state reached by select, input, clear and undo from a 9x9 seed the
    grid is still 9x9, a cell is fixed exactly when the seed has a digit
    there, and a fixed cell holds that digit. *)
Theorem fixed_iff_seeded (seed : SudokuGrid) (ops : list Op) (r c : nat) :
  wf9 seed → r < 9 → c < 9 →
  let s := run ops (createSession seed) in
  wf9 (grid s)
  ∧ ∃ cell, cellAt (grid s) r c = Some cell
      ∧ (isFixed cell = true ↔ rawAt seed r c ≠ None)
      ∧ (isFixed cell = true → value cell = rawAt seed r c).
Proof.
  intros Hwf Hr Hc. cbv zeta. split.
  - apply (allGrids_run wf9 ops (createSession seed) wf9_edit
             (allGrids_createSession wf9 seed (wf9_annotate seed Hwf))).
  - destruct (keepsFixed_run seed ops r c _ (cellAt_annotate seed r c Hwf Hr Hc))
      as (cell & Hcell & Hfix & Hval).
    exists cell. split; [exact Hcell|]. simpl in Hfix, Hval. rewrite Hfix. split.
    + destruct (rawAt seed r c); simpl; split; congruence.
    + exact Hval.
Qed.

Lemma fixed_iff_seeded_witness :
  wf9 scenarioPuzzle
  ∧ wf9 (grid (run [OpSelect 0 1; OpInput 7; OpUndo] (createSession scenarioPuzzle)))
  ∧ rawAt scenarioPuzzle 0 0 = Some 7.
Proof.
  split; [exact wf9_scenarioPuzzle|]. split; [|reflexivity].
  apply (fixed_iff_seeded scenarioPuzzle [OpSelect 0 1; OpInput 7; OpUndo] 0 0
           wf9_scenarioPuzzle); lia.
Defined.

(** The selected cell stays editable after an editing input. *)
Lemma editable_after_input (num : nat) (s : Session) (row col : nat) (current : SudokuCell) :
  editable s row col current →
  ∃ next, editable (handleNumberInput num s).1 row col next
    ∧ value next = (if holds (value current) num then None else Some num).
Proof.
  intros Hed. pose proof Hed as (Hsel & Hcell & Hfix).
  destruct (handleNumberInput_history num s row col current Hed) as [_ Hsel'].
  unfold editable. rewrite Hsel', Hsel.
  unfold handleNumberInput. rewrite Hsel, Hcell, Hfix. cbv zeta. cbn [fst grid].
  rewrite (cellAt_validated_selected _ _ _ _ _ Hcell).
  eexists. split; [split; [reflexivity|split; [reflexivity|exact Hfix]]|reflexivity].
Qed.

Lemma lives_after_input (num : nat) (s : Session) (row col : nat) (current : SudokuCell) :
  editable s row col current → holds (value current) num = true →
  lives (handleNumberInput num s).1 = lives s.
Proof.
  intros (Hsel & Hcell & Hfix) Hh.
  unfold handleNumberInput. rewrite Hsel, Hcell, Hfix. cbv zeta. rewrite Hh. reflexivity.
Qed.

(** X15. Entering the same digit twice is not always a round trip.  With a
    non-fixed cell selected, after two entries of [num] the cell holds [num]
    if it held [num] before and is empty otherwise (a different digit that
    was in the cell is gone), every other value is unchanged, and at most
    one of the two entries costs a life. *)
Theorem double_entry (s : Session) (num : nat) (row col : nat) (current : SudokuCell) :
  editable s row col current →
  let s1 := (handleNumberInput num s).1 in
  let s2 := (handleNumberInput num s1).1 in
  valueAt (grid s2) row col = (if holds (value current) num then Some num else None)
  ∧ (∀ r c, (r, c) ≠ (row, col) → valueAt (grid s2) r c = valueAt (grid s) r c)
  ∧ (lives s1 = lives s ∨ lives s2 = lives s1)
  ∧ length (moveHistory s2) = length (moveHistory s) + 2.
Proof.
  intros Hed. cbv zeta.
  destruct (editable_after_input num s row col current Hed) as (next & Hed1 & Hnext).
  destruct (handleNumberInput_values num s row col current Hed) as (_ & _ & Hother).
  destruct (handleNumberInput_values num _ row col next Hed1) as (Hv2 & _ & Hother2).
  destruct (handleNumberInput_history num s row col current Hed) as [Hh1 _].
  destruct (handleNumberInput_history num _ row col next Hed1) as [Hh2 _].
  split; [|split; [|split]].
  - rewrite Hv2, Hnext. destruct (holds (value current) num); simpl.
    + reflexivity.
    + rewrite Nat.eqb_refl. reflexivity.
  - intros r c Hne. rewrite Hother2, Hother by assumption. reflexivity.
  - destruct (holds (value current) num) eqn:Eh.
    + left. apply (lives_after_input num s row col current Hed Eh).
    + right. apply (lives_after_input num _ row col next Hed1).
      rewrite Hnext. simpl. apply Nat.eqb_refl.
  - rewrite Hh2, length_app, Hh1, length_app. simpl. lia.
Qed.

Lemma double_entry_witness :
  editable (handleNumberInput 5 scenario).1 0 1
    {| value := Some 5; isFixed := false; isValid := true |}
  ∧ valueAt (grid (handleNumberInput 3 (handleNumberInput 3
                     (handleNumberInput 5 scenario).1).1).1) 0 1 = None.
Proof.
  assert (Hed : editable (handleNumberInput 5 scenario).1 0 1
                  {| value := Some 5; isFixed := false; isValid := true |}).
  { repeat split; reflexivity. }
  split; [exact Hed|].
  destruct (double_entry (handleNumberInput 5 scenario).1 3 0 1 _ Hed) as (H & _).
  exact H.
Defined.

(** X16. Completing the puzzle stops the timer, and taking the winning
    entry back does not start it again: after an entry that completes the
    grid the timer is stopped and ticks no more; an undo then clears
    [isComplete] but leaves the timer stopped. *)
Theorem completion_stops_timer (s : Session) (num : nat) (row col : nat)
    (current : SudokuCell) :
  editable s row col current → moveHistory s ≠ [] →
  let s1 := (handleNumberInput num s).1 in
  completed (grid s1) →
  isComplete s1 = true ∧ isTimerRunning s1 = false ∧ tick s1 = s1
  ∧ isComplete (handleUndo s1).1 = false
  ∧ isTimerRunning (handleUndo s1).1 = false.
Proof.
  intros Hed Hne. cbv zeta. intros Hdone.
  destruct (handleNumberInput_completion s num row col current Hed) as (_ & Hset & _).
  destruct (handleNumberInput_history num s row col current Hed) as [Hpush _].
  assert (Hstop : isTimerRunning (handleNumberInput num s).1 = false).
  { destruct Hdone as [Hfull Hvalid]. apply isFull_spec in Hfull.
    apply allValid_spec in Hvalid. revert Hfull Hvalid.
    destruct Hed as (Hsel & Hcell & Hfix).
    unfold handleNumberInput. rewrite Hsel, Hcell, Hfix. cbv zeta. cbn [fst grid isTimerRunning].
    intros -> ->. reflexivity. }
  destruct (last (moveHistory s)) as [top|] eqn:Htop; [|apply last_None in Htop; contradiction].
  destruct (handleUndo_after_push _ _ _ top Hpush Htop) as (_ & _ & _ & H4 & _ & H6).
  split; [apply Hset, Hdone|]. split; [exact Hstop|].
  split; [unfold tick; rewrite Hstop; reflexivity|].
  split; [exact H4|]. rewrite H6. exact Hstop.
Qed.

Lemma completion_stops_timer_witness :
  editable lastCellSelected 0 0 {| value := None; isFixed := false; isValid := true |}
  ∧ moveHistory lastCellSelected ≠ []
  ∧ completed (grid (handleNumberInput 1 lastCellSelected).1)
  ∧ isTimerRunning (handleUndo (handleNumberInput 1 lastCellSelected).1).1 = false.
Proof.
  assert (Hed : editable lastCellSelected 0 0
                  {| value := None; isFixed := false; isValid := true |}).
  { repeat split; reflexivity. }
  assert (Hne : moveHistory lastCellSelected ≠ []) by discriminate.
  assert (Hdone : completed (grid (handleNumberInput 1 lastCellSelected).1)).
  { unfold completed. rewrite <- isFull_spec, <- allValid_spec.
    split; vm_compute; reflexivity. }
  destruct (completion_stops_timer lastCellSelected 1 0 0 _ Hed Hne Hdone)
    as (_ & _ & _ & _ & H).
  split; [exact Hed|]. split; [exact Hne|]. split; [exact Hdone|exact H].
Defined.

(** X17. [handleClear] with a non-fixed cell selected empties that cell and
    no other, costs no life, clears [isComplete] and pushes a snapshot even
    when the cell was already empty; when the cell holds a digit, the grid is
    the one entering that digit again would give. *)
Theorem clear_behaviour (s : Session) (row col : nat) (current : SudokuCell) :
  editable s row col current →
  let s' := (handleClear s).1 in
  valueAt (grid s') row col = None
  ∧ (∀ r c, (r, c) ≠ (row, col) → valueAt (grid s') r c = valueAt (grid s) r c)
  ∧ moveHistory s' = moveHistory s ++ [{| h_grid := grid s'; h_selectedCell := selectedCell s |}]
  ∧ lives s' = lives s ∧ isComplete s' = false
  ∧ (∀ d, value current = Some d → grid s' = grid (handleNumberInput d s).1).
Proof.
  intros (Hsel & Hcell & Hfix). cbv zeta.
  unfold handleClear, handleNumberInput. rewrite Hsel, Hcell, Hfix. cbv zeta. simpl.
  split; [|split; [|split; [|split; [|split]]]]; try reflexivity.
  - unfold valueAt. rewrite (cellAt_validated_selected _ _ _ _ _ Hcell). reflexivity.
  - intros r c Hne. rewrite valueAt_updateValidation, valueAt_setValue.
    destruct (Nat.eqb_spec r row) as [E1|_], (Nat.eqb_spec c col) as [E2|_];
      simpl; try reflexivity. congruence.
  - intros d Hd. rewrite Hd. simpl. rewrite Nat.eqb_refl. reflexivity.
Qed.

Lemma clear_behaviour_witness :
  editable scenario 0 1 {| value := None; isFixed := false; isValid := true |}
  ∧ length (moveHistory (handleClear scenario).1) = 2.
Proof.
  assert (Hed : editable scenario 0 1 {| value := None; isFixed := false; isValid := true |}).
  { repeat split; reflexivity. }
  destruct (clear_behaviour scenario 0 1 _ Hed) as (_ & _ & Hh & _).
  split; [exact Hed|]. rewrite Hh. reflexivity.
Defined.

(** X18. A click on a cell of the grid highlights exactly its row, its
    column, its 3x3 box and, when the clicked cell holds a non-zero number,
    every cell holding that number.  It never touches the grid, the history
    or the lives, and selects the cell only if it is not fixed. *)
Theorem click_highlights_peers (s : Session) (row col : nat) (clicked : SudokuCell) :
  cellAt (grid s) row col = Some clicked →
  let s' := (handleCellClick row col s).1 in
  (∀ r c cell, shouldHighlightCell s' r c cell = true ↔
     peer row col r c
     ∨ ∃ n, value clicked = Some n ∧ n ≠ 0 ∧ value cell = Some n)
  ∧ grid s' = grid s ∧ moveHistory s' = moveHistory s ∧ lives s' = lives s
  ∧ selectedCell s' = (if isFixed clicked then selectedCell s else Some (row, col)).
Proof.
  intros Hcell. cbv zeta. unfold handleCellClick. rewrite Hcell. simpl.
  split; [|repeat split; reflexivity].
  intros r c cell. unfold shouldHighlightCell, peer, sameBox. simpl.
  rewrite !orb_true_iff, andb_true_iff, !Nat.eqb_eq.
  split.
  - intros [[[H|H]|H]|H].
    + right. destruct (value clicked) as [n|]; [|discriminate].
      apply andb_true_iff in H as [Hn Hv]. apply negb_true_iff, Nat.eqb_neq in Hn.
      apply holds_true in Hv. eauto.
    + left. left. exact H.
    + left. right. left. exact H.
    + left. right. right. destruct H. split; congruence.
  - intros [[H|[H|[H1 H2]]]|(n & Hn & Hn0 & Hv)].
    + left. left. right. exact H.
    + left. right. exact H.
    + right. split; congruence.
    + left. left. left. rewrite Hn. apply andb_true_iff. split.
      * apply negb_true_iff, Nat.eqb_neq, Hn0.
      * apply holds_true, Hv.
Qed.

Lemma click_highlights_peers_witness :
  cellAt (grid (createSession scenarioPuzzle)) 0 0
    = Some {| value := Some 7; isFixed := true; isValid := true |}
  ∧ shouldHighlightCell (handleCellClick 0 0 (createSession scenarioPuzzle)).1 2 2
      {| value := None; isFixed := false; isValid := true |} = true
  ∧ selectedCell (handleCellClick 0 0 (createSession scenarioPuzzle)).1 = None.
Proof.
  assert (Hcell : cellAt (grid (createSession scenarioPuzzle)) 0 0
                  = Some {| value := Some 7; isFixed := true; isValid := true |})
    by reflexivity.
  destruct (click_highlights_peers (createSession scenarioPuzzle) 0 0 _ Hcell)
    as (Hhl & _ & _ & _ & Hsel).
  split; [exact Hcell|]. split; [|exact Hsel].
  apply Hhl. left. right. right. split; reflexivity.
Defined.

(** X19. What the [disabled] attributes add to the guards of the handlers:
    the Undo button behaves exactly as [handleUndo]; the number buttons and
    the Clear button behave exactly as [handleNumberInput] and [handleClear]
    while a life is left, and do nothing once the lives are 0. *)
Theorem buttons_and_handlers (s : Session) (num : nat) :
  clickUndo s = handleUndo s
  ∧ (lives s ≠ 0%Z →
     clickNumber num s = handleNumberInput num s ∧ clickClear s = handleClear s)
  ∧ (lives s = 0%Z → clickNumber num s = (s, []) ∧ clickClear s = (s, [])).
Proof.
  split; [|split].
  - unfold clickUndo, undoDisabled, handleUndo.
    destruct (length (moveHistory s) <=? 1); reflexivity.
  - intros Hl. apply Z.eqb_neq in Hl.
    unfold clickNumber, clickClear, inputDisabled, handleNumberInput, handleClear.
    destruct (selectedCell s) as [[row col]|]; [|split; reflexivity].
    destruct (cellAt (grid s) row col) as [cell|]; [|split; reflexivity].
    rewrite Hl, orb_false_r. destruct (isFixed cell); split; reflexivity.
  - intros Hl. unfold clickNumber, clickClear, inputDisabled.
    destruct (selectedCell s) as [[row col]|]; [|split; reflexivity].
    destruct (cellAt (grid s) row col) as [cell|]; [|split; reflexivity].
    rewrite Hl. simpl. rewrite orb_true_r. split; reflexivity.
Qed.

Lemma buttons_and_handlers_witness :
  lives scenario ≠ 0%Z ∧ clickNumber 7 scenario = handleNumberInput 7 scenario
  ∧ lives outOfLives = 0%Z ∧ clickClear outOfLives = (outOfLives, []).
Proof.
  assert (H1 : lives scenario ≠ 0%Z) by discriminate.
  assert (H0 : lives outOfLives = 0%Z) by reflexivity.
  destruct (buttons_and_handlers scenario 7) as (_ & Hon & _).
  destruct (buttons_and_handlers outOfLives 7) as (_ & _ & Hoff).
  split; [exact H1|]. split; [apply Hon, H1|]. split; [exact H0|apply Hoff, H0].
Defined.

(** X20. Starting a puzzle never fails and forgets the old session: for
    every source of randomness [handleNewPuzzle] and the mount effect
    succeed, and both give the session created from the generated puzzle,
    whatever the session was before. *)
Theorem new_puzzle_is_fresh (rng : Rng) (s : Session) :
  ∃ puzzle rng', generateRandomSudoku rng = Some (puzzle, rng')
    ∧ handleNewPuzzle rng s = Some (createSession puzzle, [ClickSound], rng')
    ∧ mount rng = Some (createSession puzzle, rng')
    ∧ lives (createSession puzzle) = 3%Z
    ∧ selectedCell (createSession puzzle) = None
    ∧ moveHistory (createSession puzzle) = [initialSnapshot puzzle].
Proof.
  destruct (generateRandomSudoku_post rng) as (g & rng' & k & Hgen & _).
  exists g, rng'. unfold handleNewPuzzle, mount. rewrite Hgen.
  repeat split; reflexivity.
Qed.

(** ** The clock *)

Lemma padStart_two_digits (m : Z) :
  (0 ≤ m < 100)%Z →
  padStart 2 "0"%char (pretty m)
  = String (digitChar (m / 10)) (String (digitChar (m mod 10)) "").
Proof.
  intros Hm.
  assert (Hall : forallb (λ n,
            String.eqb (padStart 2 "0"%char (pretty (Z.of_nat n)))
              (String (digitChar (Z.of_nat n / 10))
                 (String (digitChar (Z.of_nat n mod 10)) ""))) (seq 0 100) = true)
    by (vm_compute; reflexivity).
  rewrite forallb_forall in Hall.
  specialize (Hall (Z.to_nat m)). rewrite Z2Nat.id in Hall by lia.
  apply String.eqb_eq, Hall, in_seq. lia.
Qed.

Lemma digitChar_inj (a b : Z) :
  (0 ≤ a ≤ 9)%Z → (0 ≤ b ≤ 9)%Z → digitChar a = digitChar b → a = b.
Proof.
  intros Ha Hb H. unfold digitChar in H.
  apply (f_equal nat_of_ascii) in H.
  rewrite !nat_ascii_embedding in H by lia. lia.
Qed.

Lemma formatTime_clockFace (seconds : Z) :
  (0 ≤ seconds < 6000)%Z →
  formatTime seconds = clockFace (seconds / 60) (seconds mod 60).
Proof.
  intros Hs. unfold formatTime. cbv zeta.
  rewrite Z.rem_mod_nonneg by lia.
  assert (Hm : (0 ≤ seconds / 60 < 100)%Z).
  { split; [apply Z.div_pos; lia|apply Z.div_lt_upper_bound; lia]. }
  assert (Hr : (0 ≤ seconds mod 60 < 100)%Z).
  { pose proof (Z.mod_pos_bound seconds 60 ltac:(lia)). lia. }
  rewrite !padStart_two_digits by assumption. reflexivity.
Qed.

(** X21. For a time below 100 minutes [formatTime] shows exactly five
    characters: the two decimal digits of the minutes, a colon, the two
    decimal digits of the seconds of the minute; so two different times of
    that range are shown differently. *)
Theorem formatTime_clock (seconds : Z) :
  (0 ≤ seconds < 6000)%Z →
  formatTime seconds = clockFace (seconds / 60) (seconds mod 60)
  ∧ String.length (formatTime seconds) = 5
  ∧ ∀ other, (0 ≤ other < 6000)%Z → formatTime other = formatTime seconds →
      other = seconds.
Proof.
  intros Hs. rewrite (formatTime_clockFace seconds Hs).
  split; [reflexivity|]. split; [reflexivity|].
  intros other Ho. rewrite (formatTime_clockFace other Ho). unfold clockFace.
  intros [= H1 H2 H3 H4].
  assert (Hdiv : ∀ x, (0 ≤ x < 6000)%Z →
            (0 ≤ x / 60 / 10 ≤ 9 ∧ 0 ≤ (x / 60) mod 10 ≤ 9
             ∧ 0 ≤ x mod 60 / 10 ≤ 9 ∧ 0 ≤ (x mod 60) mod 10 ≤ 9)%Z).
  { intros x Hx.
    pose proof (Z.mod_pos_bound x 60 ltac:(lia)).
    pose proof (Z.mod_pos_bound (x / 60) 10 ltac:(lia)).
    pose proof (Z.mod_pos_bound (x mod 60) 10 ltac:(lia)).
    assert (0 ≤ x / 60 < 100)%Z
      by (split; [apply Z.div_pos; lia|apply Z.div_lt_upper_bound; lia]).
    assert (0 ≤ x / 60 / 10 < 10)%Z
      by (split; [apply Z.div_pos; lia|apply Z.div_lt_upper_bound; lia]).
    assert (0 ≤ x mod 60 / 10 < 10)%Z
      by (split; [apply Z.div_pos; lia|apply Z.div_lt_upper_bound; lia]).
    lia. }
  destruct (Hdiv seconds Hs) as (A1 & A2 & A3 & A4).
  destruct (Hdiv other Ho) as (B1 & B2 & B3 & B4).
  apply digitChar_inj in H1, H2, H3, H4; try assumption.
  rewrite (Z.div_mod other 60), (Z.div_mod seconds 60) by lia.
  rewrite (Z.div_mod (other / 60) 10), (Z.div_mod (seconds / 60) 10) by lia.
  rewrite (Z.div_mod (other mod 60) 10), (Z.div_mod (seconds mod 60) 10) by lia.
  rewrite H1, H2, H3, H4. reflexivity.
Qed.

Lemma formatTime_clock_witness :
  (0 ≤ 754 < 6000)%Z ∧ formatTime 754 = "12:34"%string.
Proof.
  assert (H : (0 ≤ 754 < 6000)%Z) by lia.
  destruct (formatTime_clock 754 H) as (Hface & _).
  split; [exact H|]. rewrite Hface. reflexivity.
Defined.

(** ** Every ordering can be drawn *)

Lemma shuffleFrom_S {A} (i : nat) (array : list A) (rng : Rng) :
  shuffleFrom (S i) array rng
  = shuffleFrom i (swap array (S i) (rng 0 mod (S i + 1))) (λ k, rng (S k)).
Proof. reflexivity. Qed.

Lemma take_swap {A} (n i j : nat) (array : list A) :
  i < n → j < n → take n (swap array i j) = swap (take n array) i j.
Proof.
  intros Hi Hj. unfold swap. rewrite !lookup_take_lt by assumption.
  destruct (array !! i), (array !! j); try reflexivity.
  rewrite !take_insert_lt by assumption. reflexivity.
Qed.

Lemma lookup_swap {A} (array : list A) (i j k : nat) (x y : A) :
  array !! i = Some y → array !! j = Some x →
  swap array i j !! k
  = if decide (k = i) then Some x else if decide (k = j) then Some y else array !! k.
Proof.
  intros Hi Hj. unfold swap. rewrite Hi, Hj.
  pose proof (lookup_lt_Some _ _ _ Hi). pose proof (lookup_lt_Some _ _ _ Hj).
  rewrite !list_lookup_insert, length_insert.
  repeat case_decide; destruct_and?; subst; congruence || lia.
Qed.

Lemma shuffleFrom_reaches {A} (i : nat) (array target : list A) :
  length array = length target → i < length array →
  (∀ k, i < k → array !! k = target !! k) →
  take (S i) array ≡ₚ take (S i) target →
  ∃ rng, (shuffleFrom i array rng).1 = target.
Proof.
  revert array. induction i as [|i IH]; intros array Hlen Hi Hafter Hperm.
  - exists (λ _, 0). simpl. apply list_eq. intros [|k]; [|apply Hafter; lia].
    destruct array as [|x array], target as [|y target]; simpl in *; try lia.
    rewrite !take_0 in Hperm. apply Permutation_singleton_inj in Hperm. congruence.
  - destruct (lookup_lt_is_Some_2 target (S i) ltac:(lia)) as [x Hx].
    destruct (lookup_lt_is_Some_2 array (S i) Hi) as [y Hy].
    assert (Hin : x ∈ take (S (S i)) array).
    { rewrite Hperm. apply elem_of_take. exists (S i). split; [exact Hx|lia]. }
    apply elem_of_take in Hin as (j & Hj & Hjlt).
    pose proof (lookup_swap array (S i) j) as Hswap.
    specialize (Hswap (S i) x y Hy Hj) as Hat. rewrite decide_True in Hat by reflexivity.
    destruct (IH (swap array (S i) j)) as [rng Hrng].
    + rewrite <- Hlen. apply Permutation_length, swap_Permutation.
    + rewrite (Permutation_length (swap_Permutation array (S i) j)). lia.
    + intros k Hk. destruct (decide (k = S i)) as [->|Hne]; [congruence|].
      rewrite (lookup_swap array (S i) j k x y Hy Hj).
      rewrite decide_False by assumption. rewrite decide_False by lia.
      apply Hafter. lia.
    + apply (Permutation.Permutation_cons_inv (a := x)).
      rewrite (Permutation_cons_append (take (S i) (swap array (S i) j)) x).
      rewrite (Permutation_cons_append (take (S i) target) x).
      rewrite <- (take_S_r _ _ _ Hat), <- (take_S_r _ _ _ Hx).
      rewrite take_swap by lia. rewrite swap_Permutation. exact Hperm.
    + exists (λ k, match k with 0 => j | S k => rng k end).
      rewrite shuffleFrom_S. cbn beta iota. rewrite Nat.mod_small by lia. exact Hrng.
Qed.

(** X22. [shuffleArray] can return every ordering: for each permutation of
    the argument there are random draws for which it is the result. *)
Theorem shuffleArray_reaches_all {A} (array target : list A) :
  target ≡ₚ array → ∃ rng, (shuffleArray array rng).1 = target.
Proof.
  intros Hperm. unfold shuffleArray.
  destruct array as [|x array].
  - apply Permutation_nil_r in Hperm. subst target. exists (λ _, 0). reflexivity.
  - pose proof (Permutation_length Hperm) as Hlen. simpl in Hlen.
    apply shuffleFrom_reaches.
    + simpl. lia.
    + simpl. lia.
    + intros k Hk. simpl in Hk.
      rewrite !lookup_ge_None_2; [reflexivity|lia|simpl; lia].
    + rewrite !take_ge by (simpl; lia). symmetry. exact Hperm.
Qed.

Lemma shuffleArray_reaches_all_witness :
  [3; 1; 2] ≡ₚ [1; 2; 3] ∧ ∃ rng, (shuffleArray [1; 2; 3] rng).1 = [3; 1; 2].
Proof.
  assert (H : [3; 1; 2] ≡ₚ [1; 2; 3]) by apply (Permutation_cons_append [1; 2] 3).
  split; [exact H|]. apply (shuffleArray_reaches_all [1; 2; 3] [3; 1; 2] H).
Defined.

(** ** Selection and stale completion *)

(** X23. The selection is always an editable cell: in every state reached
    by select, input, clear and undo from a 9x9 seed, a selected position
    lies in the grid, its cell is not fixed and the seed is empty there; so
    [handleNumberInput] and [handleClear] never read outside the grid and
    their fixed-cell guard never fires. *)
Theorem selection_always_editable (seed : SudokuGrid) (ops : list Op) (row col : nat) :
  wf9 seed →
  let s := run ops (createSession seed) in
  selectedCell s = Some (row, col) →
  row < 9 ∧ col < 9 ∧ rawAt seed row col = None
  ∧ ∃ cell, editable s row col cell.
Proof.
  intros Hwf. cbv zeta. intros Hsel.
  assert (Hinit : selectionInv (annotate seed) (createSession seed)).
  { split; [reflexivity|]. simpl. intros h Hin.
    apply list_elem_of_singleton in Hin. subst h. reflexivity. }
  destruct (selectionInv_run _ ops _ Hinit) as [Hcur _].
  rewrite Hsel in Hcur. destruct Hcur as (cell & Hcell & Hfix).
  pose proof (allGrids_run wf9 ops (createSession seed) wf9_edit
                (allGrids_createSession wf9 seed (wf9_annotate seed Hwf))) as [Hwf' _].
  destruct (cellAt_Some_range _ row col cell Hwf' Hcell) as [Hrow Hcol].
  split; [exact Hrow|]. split; [exact Hcol|]. split.
  - destruct (keepsFixed_run seed ops row col _ (cellAt_annotate seed row col Hwf Hrow Hcol))
      as (cell' & Hcell' & Hfix' & _).
    rewrite Hcell in Hcell'. injection Hcell' as <-. simpl in Hfix'.
    rewrite Hfix in Hfix'. destruct (rawAt seed row col); [discriminate|reflexivity].
  - exists cell. split; [exact Hsel|]. split; [exact Hcell|exact Hfix].
Qed.

Lemma selection_always_editable_witness :
  wf9 scenarioPuzzle
  ∧ selectedCell (run [OpSelect 0 0; OpSelect 0 1; OpInput 7; OpSelect 0 0]
                    (createSession scenarioPuzzle)) = Some (0, 1)
  ∧ rawAt scenarioPuzzle 0 1 = None.
Proof.
  assert (Hsel : selectedCell (run [OpSelect 0 0; OpSelect 0 1; OpInput 7; OpSelect 0 0]
                                 (createSession scenarioPuzzle)) = Some (0, 1))
    by reflexivity.
  destruct (selection_always_editable scenarioPuzzle _ 0 1 wf9_scenarioPuzzle Hsel)
    as (_ & _ & Hnone & _).
  split; [exact wf9_scenarioPuzzle|]. split; [exact Hsel|exact Hnone].
Defined.

(** X24. Completion can go stale: when [isComplete] is set and the digit of
    the selected non-fixed cell is entered again, the cell is emptied, so the
    grid is no longer complete, yet [isComplete] stays true and the timer is
    left as it was. *)
Theorem completion_goes_stale (s : Session) (num : nat) (row col : nat)
    (current : SudokuCell) :
  editable s row col current → value current = Some num → isComplete s = true →
  let s1 := (handleNumberInput num s).1 in
  valueAt (grid s1) row col = None
  ∧ ¬ completed (grid s1)
  ∧ isComplete s1 = true
  ∧ isTimerRunning s1 = isTimerRunning s.
Proof.
  intros Hed Hval Hdone. cbv zeta.
  assert (Hh : holds (value current) num = true) by (apply holds_true, Hval).
  destruct (editable_after_input num s row col current Hed) as (next & Hed1 & Hnext).
  rewrite Hh in Hnext. destruct Hed1 as (_ & Hcell1 & _).
  assert (Hnot : ¬ completed (grid (handleNumberInput num s).1)).
  { intros [Hfull _]. apply (Hfull row col next Hcell1), Hnext. }
  split; [unfold valueAt; rewrite Hcell1; exact Hnext|].
  split; [exact Hnot|].
  split; [apply handleNumberInput_keeps_complete, Hdone|].
  revert Hnot. unfold completed. rewrite <- isFull_spec, <- allValid_spec, <- andb_true_iff.
  destruct Hed as (Hsel & Hcell & Hfix).
  unfold handleNumberInput. rewrite Hsel, Hcell, Hfix. cbv zeta.
  cbn [fst grid isTimerRunning].
  destruct (isFull _ && allValid _); [intros H; destruct H; reflexivity|reflexivity].
Qed.

Lemma completion_goes_stale_witness :
  editable solvedSession 0 0 {| value := Some 1; isFixed := false; isValid := true |}
  ∧ isComplete solvedSession = true
  ∧ isComplete (handleNumberInput 1 solvedSession).1 = true
  ∧ ¬ completed (grid (handleNumberInput 1 solvedSession).1).
Proof.
  assert (Hed : editable solvedSession 0 0
                  {| value := Some 1; isFixed := false; isValid := true |}).
  { repeat split; reflexivity. }
  assert (Hc : isComplete solvedSession = true) by reflexivity.
  destruct (completion_goes_stale solvedSession 1 0 0 _ Hed eq_refl Hc)
    as (_ & Hnot & Hstill & _).
  split; [exact Hed|]. split; [exact Hc|]. split; [exact Hstill|exact Hnot].
Defined.
